(** * Zariski-Van Kampen braid monodromy: a shallow embedding

    This development embeds the functions of
    [src/sage/schemes/curves/zariski_vankampen.py] and proves properties of
    them.  Numbers that the Python code keeps in [CC], [RealField] or
    [QQbar] are idealised by exact rationals [Q]; a complex number is a
    pair of rationals.  A Python exception is a value [Raise e]; a loop that
    may run for ever takes a [fuel] argument and yields [OutOfFuel] when
    the fuel is spent. *)

From Stdlib Require Import Reals.
From Stdlib Require Import List Arith NArith ZArith QArith Qabs Qreals Lia Bool Permutation.
From Stdlib Require Import Sorting.Sorted Psatz.
Close Scope R_scope.
Import ListNotations.

(** ** Outcomes of Python computations *)

Inductive error : Type :=
| IndexError          (* list index out of range *)
| EmptySequence       (* ValueError: min() arg is an empty sequence *)
| ZeroDivisionError
| RootsTooClose       (* ValueError("different roots are too close") *)
| UnpackError         (* wrong number of values to unpack *)
| NotInList           (* ValueError of list.index *)
| NotAGenerator       (* ValueError of the free group constructor *)
| TooFewStrands.      (* ValueError of BraidGroup on fewer than two strands *)

Inductive outcome (A : Type) : Type :=
| Return (a : A)
| Raise (e : error)
| OutOfFuel.

Arguments Return {A} a.
Arguments Raise {A} e.
Arguments OutOfFuel {A}.

Definition bind {A B : Type} (m : outcome A) (k : A -> outcome B) : outcome B :=
  match m with
  | Return a => k a
  | Raise e => Raise e
  | OutOfFuel => OutOfFuel
  end.

Notation "x <- m ;; k" := (bind m (fun x => k))
  (at level 61, m at next level, right associativity).

Fixpoint mapM {A B : Type} (f : A -> outcome B) (l : list A) : outcome (list B) :=
  match l with
  | [] => Return []
  | a :: l' => b <- f a ;; bs <- mapM f l' ;; Return (b :: bs)
  end.

(** [l[n]] for a non-negative index. *)
Definition index {A : Type} (l : list A) (n : nat) : outcome A :=
  match nth_error l n with
  | Some a => Return a
  | None => Raise IndexError
  end.

(** [l[-1]]. *)
Definition index_last {A : Type} (l : list A) : outcome A :=
  match rev l with
  | a :: _ => Return a
  | [] => Raise IndexError
  end.

(** ** Comparisons and sorting *)

Definition Qltb (x y : Q) : bool :=
  match x ?= y with Lt => true | _ => false end.

Definition Qeqb (x y : Q) : bool :=
  match x ?= y with Eq => true | _ => false end.

(** Lexicographic combination, as Python compares lists and tuples. *)
Definition lex (c1 c2 : comparison) : comparison :=
  match c1 with Eq => c2 | _ => c1 end.

Definition ltb_of {A : Type} (cmp : A -> A -> comparison) (a b : A) : bool :=
  match cmp a b with Lt => true | _ => false end.

Section Sort.
Variable A : Type.
Variable cmp : A -> A -> comparison.

(** A stable sort, as [list.sort] and [sorted] are: an element goes
    before the first one that is not smaller than it. *)
Fixpoint insert (x : A) (l : list A) : list A :=
  match l with
  | [] => [x]
  | y :: l' =>
      match cmp x y with
      | Gt => y :: insert x l'
      | _ => x :: l
      end
  end.

Fixpoint sort (l : list A) : list A :=
  match l with
  | [] => []
  | x :: l' => insert x (sort l')
  end.
End Sort.

Arguments insert {A} cmp x l.
Arguments sort {A} cmp l.

(** [min] of a sequence of numbers: the first minimal one. *)
Fixpoint Qmin_from (m : Q) (l : list Q) : Q :=
  match l with
  | [] => m
  | x :: l' => Qmin_from (if Qltb x m then x else m) l'
  end.

Definition pymin (l : list Q) : outcome Q :=
  match l with
  | [] => Raise EmptySequence
  | x :: l' => Return (Qmin_from x l')
  end.

(** ** Permutations of the symmetric group

    [SymmetricGroup(n)] elements act on [1..n]; the product [g * h] of the
    group applies [g] first and [h] second. *)
Module Perm.
Definition perm : Type := nat -> nat.

(** [G(Permutation([]))] *)
Definition one : perm := fun x => x.

(** [G(Permutation([(a, b)]))] *)
Definition transposition (a b : nat) : perm :=
  fun x => if Nat.eqb x a then b else if Nat.eqb x b then a else x.

Definition mul (g h : perm) : perm := fun x => h (g x).
End Perm.

(** ** braid_from_piecewise *)
Module Piecewise.

Record complex : Type := mkC { real : Q; imag : Q }.

(** A sample [(t, c)] of a strand. *)
Abbreviation sample := (Q * complex)%type (only parsing).
Abbreviation strand := (list (Q * complex)) (only parsing).

(** A resampled point [[c.real(), c.imag()]]. *)
Abbreviation point := (Q * Q)%type (only parsing).

Definition pt (c : complex) : point := (real c, imag c).

Definition point_compare (p q : point) : comparison :=
  lex (fst p ?= fst q) (snd p ?= snd q).

(** [xaux + (yaux - xaux) * (i - aaux) / (baux - aaux)] *)
Definition interpolate (xaux yaux : complex) (i aaux baux : Q) : outcome complex :=
  if Qeqb (baux - aaux) 0 then Raise ZeroDivisionError
  else Return (mkC (real xaux + (real yaux - real xaux) * (i - aaux) / (baux - aaux))
                   (imag xaux + (imag yaux - imag xaux) * (i - aaux) / (baux - aaux))).

(** The body of [for j, val in enumerate(L)] for one strand [val], its
    index [indices[j]] and its row [totalpoints[j]]. *)
Definition strand_step (i : Q) (val : strand) (ix : nat) (tp : list point)
  : outcome (nat * list point) :=
  cur <- index val ix ;;
  if Qltb i (fst cur) then
    prev <- index val (ix - 1) ;;
    let xaux := snd prev in
    let yaux := snd cur in
    let aaux := fst prev in
    let baux := fst cur in
    interpola <- interpolate xaux yaux i aaux baux ;;
    Return (ix, tp ++ [pt interpola])
  else
    Return (S ix, tp ++ [pt (snd cur)]).

(** [for j, val in enumerate(L)] inside the [while] loop. *)
Fixpoint for_strands (i : Q) (L : list strand) (indices : list nat)
         (totalpoints : list (list point))
  : outcome (list nat * list (list point)) :=
  match L, indices, totalpoints with
  | val :: L', ix :: indices', tp :: totalpoints' =>
      r <- strand_step i val ix tp ;;
      rest <- for_strands i L' indices' totalpoints' ;;
      Return (fst r :: fst rest, snd r :: snd rest)
  | _, _, _ => Return ([], [])
  end.

(** [min(val[indices[k]][0] for k, val in enumerate(L))] *)
Definition next_time (L : list strand) (indices : list nat) : outcome Q :=
  ts <- mapM (fun vi => s <- index (fst vi) (snd vi) ;; Return (fst s))
             (combine L indices) ;;
  pymin ts.

(** [while i < 1: ...] *)
Fixpoint resample_loop (fuel : nat) (L : list strand) (i : Q)
         (indices : list nat) (totalpoints : list (list point))
  : outcome (list (list point)) :=
  if Qltb i 1 then
    match fuel with
    | O => OutOfFuel
    | S fuel' =>
        st <- for_strands i L indices totalpoints ;;
        i' <- next_time L (fst st) ;;
        resample_loop fuel' L i' (fst st) (snd st)
    end
  else Return totalpoints.

(** The first half of the function: every strand resampled on the
    common partition. *)
Definition resample (fuel : nat) (L : list strand) : outcome (list (list point)) :=
  ts <- mapM (fun val => s <- index val 1 ;; Return (fst s)) L ;;
  i <- pymin ts ;;
  totalpoints <- mapM (fun a => s <- index a 0 ;; Return [pt (snd s)]) L ;;
  let indices := map (fun _ => 1%nat) L in
  totalpoints <- resample_loop fuel L i indices totalpoints ;;
  mapM (fun vt => s <- index_last (fst vt) ;; Return (snd vt ++ [pt (snd s)]))
       (combine L totalpoints).

Definition sgn (x y : Q) : Z :=
  if Qltb x y then 1%Z
  else if Qltb y x then (-1)%Z
  else 0%Z.

(** A crossing [[t, k, j, s]]. *)
Abbreviation cruce := (Q * nat * nat * Z)%type (only parsing).

Definition cruce_compare (a b : cruce) : comparison :=
  let '(t1, k1, j1, s1) := a in
  let '(t2, k2, j2, s2) := b in
  lex (t1 ?= t2) (lex (Nat.compare k1 k2) (lex (Nat.compare j1 j2) (Z.compare s1 s2))).

(** A tied crossing [(P(c[2]+1) - P(c[1]+1), c[1], c[2], c[3])]. *)
Abbreviation cross := (Z * nat * nat * Z)%type (only parsing).

Definition cross_compare (a b : cross) : comparison :=
  let '(g1, k1, j1, s1) := a in
  let '(g2, k2, j2, s2) := b in
  lex (Z.compare g1 g2) (lex (Nat.compare k1 k2) (lex (Nat.compare j1 j2) (Z.compare s1 s2))).

Definition segment_compare (a b : point * point) : comparison :=
  lex (point_compare (fst a) (fst b)) (point_compare (snd a) (snd b)).

(** The test and the body of the innermost [if l2[j] < l2[k]].  The
    numbers are exact: the division by a zero denominator raises. *)
Definition crossing (l1 l2 : list point) (j k : nat) : outcome (list cruce) :=
  l2j <- index l2 j ;;
  l2k <- index l2 k ;;
  if ltb_of point_compare l2j l2k then
    l1j <- index l1 j ;;
    l1k <- index l1 k ;;
    let den := fst l2k - fst l1k + fst l1j - fst l2j in
    if Qeqb den 0 then Raise ZeroDivisionError
    else
      let t := (fst l1j - fst l1k) / den in
      let s := sgn (snd l1k * (1 - t) + t * snd l2k)
                   (snd l1j * (1 - t) + t * snd l2j) in
      Return [(t, k, j, s)]
  else Return [].

(** [for j in range(len(l2)): for k in range(j): ...] *)
Definition find_cruces (l1 l2 : list point) : outcome (list cruce) :=
  rows <- mapM (fun j =>
                  cs <- mapM (fun k => crossing l1 l2 j k) (seq 0 j) ;;
                  Return (concat cs))
               (seq 0 (length l2)) ;;
  Return (concat rows).

Definition gap (P : Perm.perm) (c1 c2 : nat) : Z :=
  Z.of_nat (P (c2 + 1)%nat) - Z.of_nat (P (c1 + 1)%nat).

(** [c[3] * min(map(P, [c[1] + 1, c[2] + 1]))] *)
Definition letter (P : Perm.perm) (c : cross) : Z :=
  let '(_, c1, c2, c3) := c in
  (c3 * Z.of_nat (Nat.min (P (c1 + 1)%nat) (P (c2 + 1)%nat)))%Z.

Definition regap (P : Perm.perm) (cr : cross) : cross :=
  let '(_, c1, c2, c3) := cr in (gap P c1 c2, c1, c2, c3).

(** [while crossesl: ...]; every pass removes one element, so the
    length of the list bounds the passes. *)
Fixpoint tied_loop (n : nat) (P : Perm.perm) (crossesl : list cross) (braid : list Z)
  : Perm.perm * list Z :=
  match n with
  | O => (P, braid)
  | S n' =>
      match sort cross_compare crossesl with
      | [] => (P, braid)
      | c :: crossesl' =>
          let braid' := braid ++ [letter P c] in
          let '(_, c1, c2, _) := c in
          let P' := Perm.mul (Perm.transposition (c1 + 1) (c2 + 1)) P in
          tied_loop n' P' (map (regap P') crossesl') braid'
      end
  end.

Definition same_time (t0 : Q) (c : cruce) : bool :=
  let '(t, _, _, _) := c in Qeqb t t0.

Definition to_cross (P : Perm.perm) (c : cruce) : cross :=
  let '(_, c1, c2, c3) := c in (gap P c1 c2, c1, c2, c3).

(** [while cruces: ...]; every pass removes at least the first
    crossing, whose time, an exact number, is equal to itself. *)
Fixpoint cruces_loop (n : nat) (P : Perm.perm) (cruces : list cruce) (braid : list Z)
  : list Z :=
  match n with
  | O => braid
  | S n' =>
      match cruces with
      | [] => braid
      | (t0, _, _, _) :: _ =>
          let crucesl := filter (same_time t0) cruces in
          let crossesl := map (to_cross P) crucesl in
          let cruces' := skipn (length crucesl) cruces in
          let '(P', braid') := tied_loop (length crossesl) P crossesl braid in
          cruces_loop n' P' cruces' braid'
      end
  end.

(** One pass of [for i in range(len(totalpoints[0]) - 1)]. *)
Definition interval (totalpoints : list (list point)) (n : nat) (braid : list Z) (i : nat)
  : outcome (list Z) :=
  l1 <- mapM (fun j => row <- index totalpoints j ;; index row i) (seq 0 n) ;;
  l2 <- mapM (fun j => row <- index totalpoints j ;; index row (i + 1)) (seq 0 n) ;;
  let M := sort segment_compare (combine l1 l2) in
  let l1 := map fst M in
  let l2 := map snd M in
  cruces <- find_cruces l1 l2 ;;
  Return (cruces_loop (length cruces) Perm.one (sort cruce_compare cruces) braid).

Fixpoint intervals (totalpoints : list (list point)) (n : nat) (braid : list Z)
         (ivals : list nat) : outcome (list Z) :=
  match ivals with
  | [] => Return braid
  | i :: ivals' =>
      braid' <- interval totalpoints n braid i ;;
      intervals totalpoints n braid' ivals'
  end.

(** The list [braid] that the function has built when it comes to its
    last two lines, [B = BraidGroup(len(L))] and [return B(braid)]; the
    function with these two lines is [Whole.braid_from_piecewise]. *)
Definition braid_from_piecewise (fuel : nat) (strands : list strand) : outcome (list Z) :=
  let L := strands in
  totalpoints <- resample fuel L ;;
  row0 <- index totalpoints 0 ;;
  intervals totalpoints (length L) [] (seq 0 (length row0 - 1)).

(** *** Vocabulary of the statements *)

Definition times (val : strand) : list Q := map fst val.

(** At least two samples, with strictly increasing [t] from 0 to 1. *)
Definition well_formed (val : strand) : Prop :=
  (2 <= length val)%nat /\
  StronglySorted Qlt (times val) /\
  hd 0 (times val) == 0 /\
  last (times val) 0 == 1.

Definition occurs (L : list strand) (t : Q) : Prop :=
  exists val t', In val L /\ In t' (times val) /\ t' == t.

(** [partition] lists, in increasing order and each once, the [t]
    values of all the strands. *)
Definition common_partition (L : list strand) (partition : list Q) : Prop :=
  StronglySorted Qlt partition /\
  Forall (occurs L) partition /\
  (forall val t, In val L -> In t (times val) ->
                 exists t', In t' partition /\ t' == t).

(** The call returns a word or stops on a division by zero: no index
    is out of range and no loop runs out of fuel. *)
Definition in_bounds {A : Type} (m : outcome A) : Prop :=
  (exists a, m = Return a) \/ m = Raise ZeroDivisionError.

End Piecewise.


Import Piecewise.

(** ** External collaborators

    The polynomial algebra, the continuation primitive of [sirocco], the
    Voronoi diagram of [scipy] and the group algebra are not part of the
    module; each is an interface here. *)

(** [sage.libs.sirocco] and the interval arithmetic that prepares its
    input.  A failure of the primitive is [None]. *)
Class Sirocco (poly : Type) : Type := {
(** [deg] and [coefs] of [followstrand], at precision [prec] *)
coefficients : poly -> complex -> complex -> N -> nat * list Q;
(** [ComplexField(prec)(c)] *)
to_CC : N -> complex -> complex;
contpath : nat -> list Q -> Q -> Q -> option (list (Q * Q * Q));
contpath_mp : nat -> list Q -> Q -> Q -> N -> option (list (Q * Q * Q))
}.

(** [QQbar[y](f(X, y)).roots(multiplicities=False)] *)
Class Fibers (poly : Type) : Type := {
  fiber_roots : poly -> complex -> list complex
}.

(** ** followstrand *)
Module Follow.
Section Follow.
Context {poly : Type} {S : Sirocco poly}.

(** The call inside [try]. *)
Definition primitive (f : poly) (x0 x1 y0a : complex) (prec : N)
  : option (list (Q * Q * Q)) :=
  let '(deg, coefs) := coefficients f x0 x1 prec in
  let yr := real (to_CC prec y0a) in
  let yi := imag (to_CC prec y0a) in
  if N.eqb prec 53 then contpath deg coefs yr yi
  else contpath_mp deg coefs yr yi prec.

(** The [try] statement that ends the function, and the call of the
    function in its [except] clause; the function from its first line,
    with the assignment [(x, y) = G.variables()] that comes before the
    [try], is [Whole.followstrand]. *)
Fixpoint followstrand (fuel : nat) (f : poly) (x0 x1 y0a : complex) (prec : N)
  : outcome (list (Q * Q * Q)) :=
  match fuel with
  | O => OutOfFuel
  | Datatypes.S fuel' =>
      match primitive f x0 x1 y0a prec with
      | Some points => Return points
      | None => followstrand fuel' f x0 x1 y0a (2 * prec)
      end
  end.

(** The precision of the [k]-th retry. *)
Definition retry_prec (prec : N) (k : nat) : N := (prec * 2 ^ N.of_nat k)%N.

(** The primitive fails [k] times and then yields [points]. *)
Definition first_success (f : poly) (x0 x1 y0a : complex) (prec : N) (k : nat)
           (points : list (Q * Q * Q)) : Prop :=
  (forall i, (i < k)%nat -> primitive f x0 x1 y0a (retry_prec prec i) = None) /\
  primitive f x0 x1 y0a (retry_prec prec k) = Some points.
End Follow.
End Follow.

(** ** braid_in_segment *)
Module Segment.
Import Follow.

Definition csub (a b : complex) : complex :=
  mkC (real a - real b) (imag a - imag b).

(** [c.norm()]: the square of the modulus. *)
Definition norm (c : complex) : Q := real c * real c + imag c * imag c.

Definition complex_compare (a b : complex) : comparison :=
  lex (real a ?= real b) (imag a ?= imag b).

Definition complex_eqb (a b : complex) : bool :=
  Qeqb (real a) (real b) && Qeqb (imag a) (imag b).

Definition distance_compare (a b : Q * complex) : comparison :=
  lex (fst a ?= fst b) (complex_compare (snd a) (snd b)).

(** [sorted(distances)[0][1]] *)
Definition nearest (yap : complex) (ys : list complex) : outcome complex :=
  let distances := map (fun y0 => (norm (csub yap y0), y0)) ys in
  d <- index (sort distance_compare distances) 0 ;;
  Return (snd d).

(** [y0 in used] *)
Definition mem (y : complex) (used : list complex) : bool :=
  existsb (complex_eqb y) used.

(** The matching loop [for yap in yaps: ...]; [mk y yap] is the strand
    appended for the exact root [y] and the approximation [yap]. *)
Fixpoint match_roots (mk : complex -> complex -> strand) (ys yaps used : list complex)
         (strands : list strand) : outcome (list complex * list strand) :=
  match yaps with
  | [] => Return (used, strands)
  | yap :: yaps' =>
      y <- nearest yap ys ;;
      if mem y used then Raise RootsTooClose
      else match_roots mk ys yaps' (used ++ [y]) (strands ++ [mk y yap])
  end.

(** *** Vocabulary of the statements *)

(** The nearest root of some approximation of [yaps] is the nearest
    root of an earlier one. *)
Definition reuses (ys yaps : list complex) : Prop :=
  exists pre yap post yap' y y',
    yaps = pre ++ yap :: post /\ In yap' pre /\
    nearest yap' ys = Return y' /\ nearest yap ys = Return y /\
    complex_eqb y y' = true.

(** No two entries are equal. *)
Fixpoint distinct (l : list complex) : Prop :=
  match l with
  | [] => True
  | a :: l' => mem a l' = false /\ distinct l'
  end.

(** [used] lists, in order, the nearest roots of [yaps], all different. *)
Definition matched (ys yaps used : list complex) : Prop :=
  Forall2 (fun yap y => nearest yap ys = Return y) yaps used /\ distinct used.

(** The call does not raise "different roots are too close". *)
Definition quiet {A : Type} (m : outcome A) : Prop := m <> Raise RootsTooClose.

Definition initial_strand (y0 y0ap : complex) : strand := [(0, y0); (1, y0ap)].
Definition final_strand (y1 y1ap : complex) : strand := [(0, y1ap); (1, y1)].

Section Segment.
Context {poly : Type} {S : Sirocco poly} {R : Fibers poly}.

Definition complexstrand (b : list (Q * Q * Q)) : strand :=
  map (fun a => let '(t, yr, yi) := a in (t, to_CC 64 (mkC yr yi))) b.

(** The function from [F0 = QQbar[y](f(X0, y))] on, on the lists that
    it hands to [BraidGroup]: a braid is given by a word of it, the
    product of braids is the concatenation of their words.  The function
    from its first line, with the assignment [(x, y) = f.variables()]
    and the braids of [Whole.braid_from_piecewise], is
    [Whole.braid_in_segment]. *)
Definition braid_in_segment (fuel : nat) (f : poly) (x0 x1 : complex)
  : outcome (list Z) :=
  let X0 := x0 in
  let X1 := x1 in
  let y0s := fiber_roots f X0 in
  strands <- mapM (fun a => followstrand fuel f x0 x1 (to_CC 64 a) 53) y0s ;;
  let complexstrands := map complexstrand strands in
  centralbraid <- braid_from_piecewise fuel complexstrands ;;
  y0aps <- mapM (fun c => s <- index c 0 ;; Return (snd s)) complexstrands ;;
  initial <- match_roots initial_strand y0s y0aps [] [] ;;
  let initialstrands := snd initial in
  initialbraid <- braid_from_piecewise fuel initialstrands ;;
  let y1s := fiber_roots f X1 in
  y1aps <- mapM (fun c => s <- index_last c ;; Return (snd s)) complexstrands ;;
  final <- match_roots final_strand y1s y1aps [] [] ;;
  let finalstrands := snd final in
  finallbraid <- braid_from_piecewise fuel finalstrands ;;
  Return (initialbraid ++ centralbraid ++ finallbraid).
End Segment.
End Segment.

(** ** The polynomial algebra *)

(** A polynomial ring in two variables over a field [F]. *)
Class Polynomials : Type := {
  poly : Type;
  var : Type;
  ring : Type;
(** [f.variables()] *)
variables : poly -> list var;
(** [f.base_ring()] *)
base_ring : poly -> ring
}.

(** What [discrim] asks of the algebra. *)
Class Elimination (P : Polynomials) : Type := {
  upoly : Type;
  QQbar : Type;
(** [f.discriminant(y)] *)
discriminant : poly -> var -> poly;
(** [p.resultant(q, y)] *)
resultant : poly -> poly -> var -> poly;
(** [F[x](p)] *)
univariate : ring -> var -> poly -> upoly;
(** [p.radical()] in [F[x]] *)
uradical : upoly -> upoly;
(** [p.roots(QQbar, multiplicities=False)] *)
roots : upoly -> list QQbar
}.

(** What [fundamental_group] asks of the algebra. *)
Class Curves (P : Polynomials) : Type := {
(** [f.radical()] *)
radical : poly -> poly;
(** [g.degree(y)] *)
degree : poly -> var -> nat;
(** [g.total_degree()] *)
total_degree : poly -> nat;
(** [g.coefficient(y**d)] *)
coefficient : poly -> var -> nat -> poly;
(** [c in F] *)
mem_ring : poly -> ring -> bool;
(** [g.subs({x: x + y})] *)
subs_add : poly -> var -> var -> poly
}.

(** [(x, y) = t] *)
Definition unpack2 {A : Type} (t : list A) : outcome (A * A) :=
  match t with
  | [x; y] => Return (x, y)
  | _ => Raise UnpackError
  end.

(** ** discrim *)
Module Discrim.
Section Discrim.
Context {P : Polynomials} {E : Elimination P}.

Definition discrim (f : poly) : outcome (list QQbar) :=
  xy <- unpack2 (variables f) ;;
  let '(x, y) := xy in
  let F := base_ring f in
  let poly := uradical (univariate F x (resultant (discriminant f y) f y)) in
  Return (roots poly).
End Discrim.
End Discrim.

(** ** segments *)

(** [CC(a)] for an algebraic number [a], and [scipy.spatial.Voronoi]: the
    vertices of the diagram and, for every ridge, the indices of its
    vertices, [-1] for a vertex at infinity. *)
Class Geometry (QQbar : Type) : Type := {
  QQbar_to_CC : QQbar -> complex;
  voronoi : list point -> list point * list (list Z)
}.

Fixpoint Qmax_from (m : Q) (l : list Q) : Q :=
  match l with
  | [] => m
  | x :: l' => Qmax_from (if Qltb m x then x else m) l'
  end.

(** [a.max()] of a numpy array. *)
Definition pymax (l : list Q) : outcome Q :=
  match l with
  | [] => Raise EmptySequence
  | x :: l' => Return (Qmax_from x l')
  end.

Module Voronoi.
Section Voronoi.
Context {QQbar : Type} {V : Geometry QQbar}.

(** [V.vertices[n]] for an index that is not [-1]. *)
Definition vertex (vertices : list point) (n : Z) : outcome complex :=
  p <- index vertices (Z.to_nat n) ;;
  Return (mkC (fst p) (snd p)).

Fixpoint ridges (vertices : list point) (ridge_vertices : list (list Z))
         (res : list (complex * complex)) : outcome (list (complex * complex)) :=
  match ridge_vertices with
  | [] => Return res
  | rv :: rest =>
      if negb (existsb (Z.eqb (-1)) rv) then
        rv0 <- index rv 0 ;;
        p1 <- vertex vertices rv0 ;;
        rv1 <- index rv 1 ;;
        p2 <- vertex vertices rv1 ;;
        ridges vertices rest (res ++ [(p1, p2)])
      else ridges vertices rest res
  end.

Definition segments (points : list QQbar) : outcome (list (complex * complex)) :=
  let discpoints := map (fun a => (real (QQbar_to_CC a), imag (QQbar_to_CC a))) points in
  m <- pymax (concat (map (fun p => [Qabs (fst p); Qabs (snd p)]) discpoints)) ;;
  let added_points := 3 * m + 1 in
  let configuration := discpoints ++ [(added_points, 0); (- added_points, 0);
                                      (0, added_points); (0, - added_points)] in
  let '(vertices, ridge_vertices) := voronoi configuration in
  ridges vertices ridge_vertices [].
End Voronoi.
End Voronoi.

(** ** Free groups and presentations *)
Module FreeGroup.
(** An element is its reduced Tietze word. *)
Definition word : Type := list Z.

Definition push (a : Z) (w : word) : word :=
  match w with
  | b :: w' => if Z.eqb (a + b) 0 then w' else a :: w
  | [] => [a]
  end.

Definition reduce (l : list Z) : word := fold_right push [] l.

(** [F(l)] for [F = FreeGroup(n)] *)
Definition make (n : nat) (l : list Z) : outcome word :=
  if forallb (fun a => negb (Z.eqb a 0) && Z.leb (Z.abs a) (Z.of_nat n)) l
  then Return (reduce l)
  else Raise NotAGenerator.

(** [F.gen(i)] *)
Definition gen (n i : nat) : outcome word :=
  if Nat.ltb i n then Return [Z.of_nat (i + 1)] else Raise IndexError.

Definition mul (w1 w2 : word) : word := reduce (w1 ++ w2).
Definition inverse (w : word) : word := rev (map Z.opp w).
Definition div (w1 w2 : word) : word := mul w1 (inverse w2).

(** [prod(ws)] *)
Definition prod (ws : list word) : word := fold_left mul ws [].

(** [F / rels] *)
Record presentation : Type := quotient {
  generators : nat;
  relators : list word
}.
End FreeGroup.

(** The braid group acting on the free group, and the simplification of
    presentations. *)
Class Groups : Type := {
(** [Faux(x) * b], for [Faux = FreeGroup(d)] and a braid [b]: its Tietze word *)
act : nat -> FreeGroup.word -> list Z -> FreeGroup.word;
(** [G.simplified()] *)
simplified_presentation : FreeGroup.presentation -> FreeGroup.presentation
}.

(** What the Python runtime leaves open: the order in which a [set] lists
    its elements, and the order in which a [@parallel] function yields
    its results. *)
Class Runtime : Type := {
  set_order : list complex -> list complex;
  set_order_perm : forall l, Permutation (set_order l) l;
  schedule : list (complex * complex * list Z) -> list (complex * complex * list Z);
  schedule_perm : forall l, Permutation (schedule l) l
}.

(** ** fundamental_group *)
Module Fundamental.
Import Discrim Voronoi Segment FreeGroup.

(** [b.inverse()] on a word of the braid. *)
Definition braid_inverse (b : list Z) : list Z := rev (map Z.opp b).

(** [flatten(segs)] *)
Definition flatten (segs : list (complex * complex)) : list complex :=
  concat (map (fun seg => [fst seg; snd seg]) segs).

(** The elements of [set(l)], each once. *)
Fixpoint dedup (l : list complex) : list complex :=
  match l with
  | [] => []
  | a :: l' => if mem a l' then dedup l' else a :: dedup l'
  end.

(** [vertices.index(p)] *)
Fixpoint list_index (vertices : list complex) (p : complex) : outcome nat :=
  match vertices with
  | [] => Raise NotInList
  | v :: vs =>
      if complex_eqb v p then Return O
      else i <- list_index vs p ;; Return (S i)
  end.

Section Fundamental.
Context {P : Polynomials} {E : Elimination P} {C : Curves P}
        {S : Sirocco poly} {R : Fibers poly} {V : Geometry QQbar}
        {G : Groups} {T : Runtime}.

(** [while not g.coefficient(y**d) in F or (projective and g.total_degree() > d)] *)
Definition shift_needed (projective : bool) (F : ring) (y : var) (g : poly) (d : nat) : bool :=
  negb (mem_ring (coefficient g y d) F) || (projective && Nat.ltb d (total_degree g)).

Fixpoint shift_loop (fuel : nat) (projective : bool) (F : ring) (x y : var)
         (g : poly) (d : nat) : outcome (poly * nat) :=
  if shift_needed projective F y g d then
    match fuel with
    | O => OutOfFuel
    | Datatypes.S fuel' =>
        let g := subs_add g x y in
        let d := degree g y in
        shift_loop fuel' projective F x y g d
    end
  else Return (g, d).

(** The relator [w1 / w2] of strand [k] on the segment from vertex [i]
    to vertex [j] with braid [b]. *)
Definition relator (d n i j : nat) (b : list Z) (k : nat) : outcome word :=
  let el1 := act d [Z.of_nat (k + 1)] (braid_inverse b) in
  let el2 := Z.of_nat (k + 1) in
  w1 <- make n (map (fun a => Z.sgn a * Z.of_nat d * Z.of_nat i + a)%Z el1) ;;
  w2 <- make n [(Z.of_nat d * Z.of_nat j + el2)%Z] ;;
  Return (div w1 w2).

(** [for braidcomputed in braidscomputed: ...] *)
Fixpoint relations (d n : nat) (vertices : list complex)
         (braidscomputed : list (complex * complex * list Z)) (rels : list word)
  : outcome (list word) :=
  match braidscomputed with
  | [] => Return rels
  | (seg0, seg1, b) :: rest =>
      i <- list_index vertices seg0 ;;
      j <- list_index vertices seg1 ;;
      new <- mapM (relator d n i j b) (seq 0 d) ;;
      relations d n vertices rest (rels ++ new)
  end.

Definition fundamental_group (fuel : nat) (f : poly) (simplified projective : bool)
  : outcome presentation :=
  xy <- unpack2 (variables f) ;;
  let '(x, y) := xy in
  let F := base_ring f in
  let g := radical f in
  let d := degree g y in
  gd <- shift_loop fuel projective F x y g d ;;
  let '(g, d) := gd in
  disc <- discrim g ;;
  segs <- segments disc ;;
  let vertices := set_order (dedup (flatten segs)) in
  let n := (d * length vertices)%nat in
  rels <- (if projective
           then gens <- mapM (gen n) (seq 0 d) ;; Return [prod gens]
           else Return []) ;;
  computed <- mapM (fun seg => b <- braid_in_segment fuel g (fst seg) (snd seg) ;;
                               Return (fst seg, snd seg, b)) segs ;;
  let braidscomputed := schedule computed in
  rels <- relations d n vertices braidscomputed rels ;;
  let G := quotient n rels in
  if simplified then Return (simplified_presentation G) else Return G.
End Fundamental.
End Fundamental.

(** ** A polynomial algebra over the rationals

    The ring [QQ[x, y]] with the operations that [discrim] uses.  A
    polynomial in [x] is the list of its coefficients, the constant
    first; a polynomial in [x] and [y] is the list of its coefficients in
    [y], each a polynomial in [x]. *)
Module QPoly.

Abbreviation upoly := (list Q) (only parsing).
Abbreviation bipoly := (list (list Q)) (only parsing).

Inductive var : Type := X | Y.

(** *** Polynomials in one variable *)

(** Without its zero leading coefficients, the others reduced. *)
Fixpoint strip (p : upoly) : upoly :=
  match p with
  | [] => []
  | a :: p' =>
      match strip p' with
      | [] => if Qeqb a 0 then [] else [Qred a]
      | q => Qred a :: q
      end
  end.

Fixpoint uadd_raw (p q : upoly) : upoly :=
  match p, q with
  | [], _ => q
  | _, [] => p
  | a :: p', b :: q' => (a + b) :: uadd_raw p' q'
  end.

Definition uadd (p q : upoly) : upoly := strip (uadd_raw p q).
Definition uscale (c : Q) (p : upoly) : upoly := strip (map (Qmult c) p).
Definition uopp (p : upoly) : upoly := uscale (-1) p.
Definition usub (p q : upoly) : upoly := uadd p (uopp q).

Fixpoint umul (p q : upoly) : upoly :=
  match p with
  | [] => []
  | a :: p' => uadd (uscale a q) (0 :: umul p' q)
  end.

Fixpoint upow (p : upoly) (n : nat) : upoly :=
  match n with
  | O => [1]
  | S n' => umul p (upow p n')
  end.

Definition udegree (p : upoly) : nat := (length (strip p) - 1)%nat.
Definition ulead (p : upoly) : Q := last (strip p) 0.

Fixpoint uderiv_from (n : nat) (p : upoly) : upoly :=
  match p with
  | [] => []
  | a :: p' => (inject_Z (Z.of_nat n) * a) :: uderiv_from (S n) p'
  end.

Definition uderivative (p : upoly) : upoly := strip (uderiv_from 1 (tl p)).

(** [c * x^k] *)
Definition umonomial (c : Q) (k : nat) : upoly := repeat 0 k ++ [c].

(** Long division by a nonzero [q]: quotient and remainder. *)
Fixpoint udivmod (fuel : nat) (quo r q : upoly) : upoly * upoly :=
  match fuel with
  | O => (quo, r)
  | S fuel' =>
      match strip r with
      | [] => (quo, [])
      | r' =>
          if Nat.ltb (udegree r') (udegree q) then (quo, r')
          else
            let c := ulead r' / ulead q in
            let m := umonomial c (udegree r' - udegree q) in
            udivmod fuel' (uadd quo m) (usub r' (umul m q)) q
      end
  end.

(** [p // q] *)
Definition uquo (p q : upoly) : upoly := fst (udivmod (length p) [] p q).
(** [p % q] *)
Definition urem (p q : upoly) : upoly := snd (udivmod (length p) [] p q).

Definition umonic (p : upoly) : upoly :=
  match strip p with
  | [] => []
  | p' => uscale (/ ulead p') p'
  end.

Fixpoint ugcd_loop (fuel : nat) (p q : upoly) : upoly :=
  match fuel with
  | O => p
  | S fuel' =>
      match strip q with
      | [] => p
      | q' => ugcd_loop fuel' q' (urem p q')
      end
  end.

(** The monic greatest common divisor. *)
Definition ugcd (p q : upoly) : upoly :=
  umonic (ugcd_loop (S (length p + length q)) (strip p) (strip q)).

(** Modelled from the spec: the squarefree radical of a polynomial in
    one variable over a field of characteristic zero, which is of the
    exact algebra of Sage and not in the module: [p // gcd(p, p')]. *)
Definition uradical (p : upoly) : upoly := uquo (strip p) (ugcd p (uderivative p)).

(** *** Polynomials in two variables *)

Fixpoint bstrip (f : bipoly) : bipoly :=
  match f with
  | [] => []
  | a :: f' =>
      match bstrip f', strip a with
      | [], [] => []
      | g, a' => a' :: g
      end
  end.

Fixpoint badd_raw (f g : bipoly) : bipoly :=
  match f, g with
  | [], _ => g
  | _, [] => f
  | a :: f', b :: g' => uadd a b :: badd_raw f' g'
  end.

Definition badd (f g : bipoly) : bipoly := bstrip (badd_raw f g).
Definition bscale (c : upoly) (f : bipoly) : bipoly := bstrip (map (umul c) f).

Fixpoint bmul (f g : bipoly) : bipoly :=
  match f with
  | [] => []
  | a :: f' => badd (bscale a g) ([] :: bmul f' g)
  end.

Fixpoint bpow (f : bipoly) (n : nat) : bipoly :=
  match n with
  | O => [[1]]
  | S n' => bmul f (bpow f n')
  end.

(** The same polynomial with the two variables exchanged. *)
Definition column (f : bipoly) (i : nat) : upoly := strip (map (fun a => nth i a 0) f).

Definition transpose (f : bipoly) : bipoly :=
  bstrip (map (column f) (seq 0 (list_max (map (@length Q) f)))).

(** [f] as a polynomial in [v] with coefficients in the other
    variable. *)
Definition wrt (v : var) (f : bipoly) : bipoly :=
  match v with
  | Y => bstrip f
  | X => transpose f
  end.

Definition bdegree (f : bipoly) : nat := (length (bstrip f) - 1)%nat.

(** [f.degree(v)] *)
Definition degree (f : bipoly) (v : var) : nat := bdegree (wrt v f).

Definition bderivative (f : bipoly) : bipoly :=
  bstrip (map (fun na => uscale (inject_Z (Z.of_nat (fst na))) (snd na))
              (combine (seq 1 (length f)) (tl f))).

(** The coefficients of [f], the leading one first, on [n] places. *)
Definition shifted (before after : nat) (f : bipoly) : list upoly :=
  repeat [] before ++ rev (bstrip f) ++ repeat [] after.

(** The Sylvester matrix of [p] and [q], of degrees [m] and [n]. *)
Definition sylvester (p q : bipoly) : list (list upoly) :=
  let m := bdegree p in
  let n := bdegree q in
  map (fun i => shifted i (n - 1 - i) p) (seq 0 n)
  ++ map (fun i => shifted i (m - 1 - i) q) (seq 0 m).

(** The determinant, by expansion along the first column. *)
Fixpoint det_column (size : nat) (det : list (list upoly) -> upoly)
         (sign : bool) (above below : list (list upoly)) : upoly :=
  match size with
  | O => []
  | S size' =>
      match below with
      | [] => []
      | row :: below' =>
          let rest := det_column size' det (negb sign) (above ++ [row]) below' in
          match strip (hd [] row) with
          | [] => rest
          | a =>
              let minor := map (@tl upoly) (above ++ below') in
              let term := umul a (det minor) in
              uadd (if sign then uopp term else term) rest
          end
      end
  end.

Fixpoint determinant (size : nat) (M : list (list upoly)) : upoly :=
  match size with
  | O => [1]
  | S size' => det_column (S size') (determinant size') false [] M
  end.

(** Modelled from the spec: the resultant of two polynomials in their
    main variable, which is of the exact algebra of Sage and not in the
    module: the determinant of the Sylvester matrix. *)
Definition bresultant (p q : bipoly) : upoly :=
  match bstrip p, bstrip q with
  | [], _ => []
  | _, [] => []
  | p', q' => determinant (bdegree p' + bdegree q') (sylvester p' q')
  end.

(** Modelled from the spec: the discriminant of a polynomial in its
    main variable, which is of the exact algebra of Sage and not in the
    module: [(-1)^(n(n-1)/2) * resultant(f, f') / lc(f)]. *)
Definition bdiscriminant (f : bipoly) : upoly :=
  match bstrip f with
  | [] => []
  | f' =>
      let n := bdegree f' in
      let u := if Nat.ltb (n mod 4) 2 then 1 else -1 in
      uquo (uscale u (bresultant f' (bderivative f'))) (last f' [])
  end.

(** *** The squarefree radical in two variables *)

Definition blead (f : bipoly) : upoly := last (bstrip f) [].

Definition bsub (f g : bipoly) : bipoly := badd f (bscale [-1] g).

(** [c * y^k * g] *)
Definition bshift (c : upoly) (k : nat) (g : bipoly) : bipoly :=
  bstrip (repeat [] k ++ map (umul c) g).

(** The content of [f]: the monic greatest common divisor of its
    coefficients. *)
Definition content (f : bipoly) : upoly := fold_right ugcd [] (bstrip f).

(** [f] with every coefficient divided by [c]. *)
Definition bdivide (f : bipoly) (c : upoly) : bipoly :=
  bstrip (map (fun a => uquo a c) f).

Definition primitive_part (f : bipoly) : bipoly :=
  match bstrip f with
  | [] => []
  | f' => bdivide f' (content f')
  end.

(** The pseudo-remainder of [f] by a nonzero [g]. *)
Fixpoint prem (fuel : nat) (f g : bipoly) : bipoly :=
  match fuel with
  | O => f
  | S fuel' =>
      match bstrip f with
      | [] => []
      | f' =>
          if Nat.ltb (bdegree f') (bdegree g) then f'
          else prem fuel' (bsub (bscale (blead g) f')
                                (bshift (blead f') (bdegree f' - bdegree g) g)) g
      end
  end.

Fixpoint bgcd_loop (fuel : nat) (f g : bipoly) : bipoly :=
  match fuel with
  | O => f
  | S fuel' =>
      match bstrip g with
      | [] => f
      | g' => bgcd_loop fuel' g' (primitive_part (prem (S (length f)) f g'))
      end
  end.

(** The greatest common divisor of two primitive polynomials,
    primitive itself. *)
Definition bgcd (f g : bipoly) : bipoly :=
  primitive_part (bgcd_loop (S (length f + length g)) (bstrip f) (primitive_part g)).

(** The quotient of [f] by a divisor [g] of it. *)
Fixpoint bquo_loop (fuel : nat) (quo f g : bipoly) : bipoly :=
  match fuel with
  | O => quo
  | S fuel' =>
      match bstrip f with
      | [] => quo
      | f' =>
          if Nat.ltb (bdegree f') (bdegree g) then quo
          else
            let c := uquo (blead f') (blead g) in
            let k := (bdegree f' - bdegree g)%nat in
            bquo_loop fuel' (badd quo (bshift c k [[1]])) (bsub f' (bshift c k g)) g
      end
  end.

Definition bquo (f g : bipoly) : bipoly := bquo_loop (S (length f)) [] f (bstrip g).

(** [f] divided by the leading coefficient of its leading
    coefficient. *)
Definition bmonic (f : bipoly) : bipoly :=
  match bstrip f with
  | [] => []
  | f' => bscale [/ ulead (blead f')] f'
  end.

(** Modelled from the spec: the squarefree radical of a polynomial in
    two variables, which is of the exact algebra of Sage and not in the
    module: the radical of the content times the primitive part divided
    by its common divisor with its derivative, made monic. *)
Definition radical (f : bipoly) : bipoly :=
  match bstrip f with
  | [] => []
  | f' =>
      let h := primitive_part f' in
      bmonic (bscale (uradical (content f')) (bquo h (bgcd h (bderivative h))))
  end.

(** A polynomial in the other variable than [v], as an element of the
    ring. *)
Definition constant_wrt (v : var) (c : upoly) : bipoly :=
  match v with
  | Y => bstrip [c]
  | X => transpose [c]
  end.

(** [f.discriminant(v)] *)
Definition discriminant (f : bipoly) (v : var) : bipoly :=
  constant_wrt v (bdiscriminant (wrt v f)).

(** [p.resultant(q, v)] *)
Definition resultant (p q : bipoly) (v : var) : bipoly :=
  constant_wrt v (bresultant (wrt v p) (wrt v q)).

(** [F[x](p)]: [p] as a polynomial in the variable [x] alone. *)
Definition univariate (x : var) (p : bipoly) : upoly :=
  match x with
  | X => strip (hd [] p)
  | Y => strip (hd [] (transpose p))
  end.

(** [f.variables()] *)
Definition variables (f : bipoly) : list var :=
  (if Nat.ltb 0 (degree f X) then [X] else [])
  ++ (if Nat.ltb 0 (degree f Y) then [Y] else []).

(** [f.total_degree()] *)
Definition total_degree (f : bipoly) : nat :=
  list_max (map (fun ia => match strip (snd ia) with
                           | [] => O
                           | a => (fst ia + (length a - 1))%nat
                           end)
                (combine (seq 0 (length f)) f)).

(** [f.coefficient(v**d)] *)
Definition coefficient (f : bipoly) (v : var) (d : nat) : bipoly :=
  constant_wrt v (nth d (wrt v f) []).

(** [c in F], for the field [F] of the constants. *)
Definition is_constant (c : bipoly) : bool :=
  Nat.eqb (degree c X) 0 && Nat.eqb (degree c Y) 0.

(** [f] at [x + y] for [x]. *)
Definition compose_add (f : bipoly) : bipoly :=
  fold_right (fun (ja : nat * upoly) acc =>
                badd acc
                     (bmul (bpow [[]; [1]] (fst ja))
                           (fold_right (fun (ic : nat * Q) acc' =>
                                          badd acc' (bscale [snd ic] (bpow [[0; 1]; [1]] (fst ic))))
                                       [] (combine (seq 0 (length (snd ja))) (snd ja)))))
             [] (combine (seq 0 (length f)) f).

(** [g.subs({x: x + y})], the variables swapped when [x] is [Y]. *)
Definition subs_add (f : bipoly) (x y : var) : bipoly :=
  match x with
  | X => compose_add f
  | Y => transpose (compose_add (transpose f))
  end.

End QPoly.

(** The ring [QQ[x, y]]. *)
#[global] Instance QQxy : Polynomials := {
  poly := list (list Q);
  var := QPoly.var;
  ring := unit;
  variables := QPoly.variables;
  base_ring := fun _ => tt
}.

(** Its elimination theory, for a root finder [roots] into a field [K]
    that stands for the algebraic numbers. *)
Definition QQxy_elimination (K : Type) (roots : list Q -> list K) : Elimination QQxy := {|
  upoly := list Q;
  QQbar := K;
  discriminant := QPoly.discriminant;
  resultant := QPoly.resultant;
  univariate := fun _ => QPoly.univariate;
  uradical := QPoly.uradical;
  roots := roots
|}.

(** ** The cusp [x^2 + y^3]: a world to run the functions in

    The docstrings of the module run it on the curve [x^2 + y^3].  Here
    are stand-ins for the collaborators on that curve: the tables hold what
    the root finder and the continuation primitive return there. *)
Module Cusp.
Import Segment.

Definition Cx (a b : Q) : complex := mkC a b.

(** [f = x^2 + y^3] *)
Definition f : list (list Q) := [[0; 0; 1]; []; []; [1]].

(** The roots of [y^3 + x^2] above the points of the example, to seven
    decimals. *)
Definition fiber_table : list (complex * list complex) :=
  [ (Cx 1 0, [Cx (-1) 0; Cx (1 # 2) (-4330127 # 5000000); Cx (1 # 2) (4330127 # 5000000)]);
  (Cx 1 (1 # 2), [Cx (-10261661 # 10000000) (-1638447 # 5000000); Cx (2292957 # 10000000) (5262653 # 5000000); Cx (124511 # 156250) (-1812103 # 2500000)]);
  (Cx (-1 # 2) (-1 # 2), [Cx (-429603 # 625000) (-3968503 # 10000000); Cx 0 (1587401 # 2000000); Cx (429603 # 625000) (-3968503 # 10000000)]);
  (Cx (1 # 2) (-1 # 2), [Cx (-429603 # 625000) (3968503 # 10000000); Cx 0 (-1587401 # 2000000); Cx (429603 # 625000) (3968503 # 10000000)]);
  (Cx (-1 # 2) (1 # 2), [Cx (-429603 # 625000) (3968503 # 10000000); Cx 0 (-1587401 # 2000000); Cx (429603 # 625000) (3968503 # 10000000)]);
  (Cx (1 # 2) (1 # 2), [Cx (-429603 # 625000) (-3968503 # 10000000); Cx 0 (1587401 # 2000000); Cx (429603 # 625000) (-3968503 # 10000000)]) ].

(** The continuation of every root along every segment of the example:
    the segment, the root at its start, and the samples [(t, Re y, Im y)]
    of the path of the root, to six decimals.  The first path is the one
    of the docstring of [followstrand]; the segments are the one of the
    docstring of [braid_in_segment] and the four sides of the square of
    corners [(+-1/2, +-1/2)]. *)
Definition path_table : list (complex * complex * complex * list (Q * Q * Q)) :=
  [ (Cx 1 0, Cx 1 (1 # 2), Cx (-1) 0,
     [(0, (-1), 0); ((3 # 4), (-1015091 # 1000000), (-30941 # 125000)); (1, (-513083 # 500000), (-327689 # 1000000))]);
    (Cx 1 0, Cx 1 (1 # 2), Cx (1 # 2) (-4330127 # 5000000),
     [(0, (1 # 2), (-4330127 # 5000000)); ((3 # 4), (721911 # 1000000), (-75533 # 100000)); (1, (79687 # 100000), (-724841 # 1000000))]);
    (Cx 1 0, Cx 1 (1 # 2), Cx (1 # 2) (4330127 # 5000000),
     [(0, (1 # 2), (4330127 # 5000000)); ((3 # 4), (14659 # 50000), (1002859 # 1000000)); (1, (14331 # 62500), (1052531 # 1000000))]);
    (Cx (-1 # 2) (-1 # 2), Cx (1 # 2) (-1 # 2), Cx (-429603 # 625000) (-3968503 # 10000000),
     [(0, (-429603 # 625000), (-3968503 # 10000000)); ((1 # 2), (-15749 # 50000), (-272781 # 500000)); (1, 0, (-793701 # 1000000))]);
    (Cx (-1 # 2) (-1 # 2), Cx (1 # 2) (-1 # 2), Cx 0 (1587401 # 2000000),
     [(0, 0, (1587401 # 2000000)); ((1 # 2), (-15749 # 50000), (272781 # 500000)); (1, (-137473 # 200000), (7937 # 20000))]);
    (Cx (-1 # 2) (-1 # 2), Cx (1 # 2) (-1 # 2), Cx (429603 # 625000) (-3968503 # 10000000),
     [(0, (429603 # 625000), (-3968503 # 10000000)); ((1 # 2), (629961 # 1000000), 0); (1, (137473 # 200000), (7937 # 20000))]);
    (Cx (-1 # 2) (-1 # 2), Cx (-1 # 2) (1 # 2), Cx (-429603 # 625000) (-3968503 # 10000000),
     [(0, (-429603 # 625000), (-3968503 # 10000000)); ((1 # 2), (-629961 # 1000000), 0); (1, (-137473 # 200000), (7937 # 20000))]);
    (Cx (-1 # 2) (-1 # 2), Cx (-1 # 2) (1 # 2), Cx 0 (1587401 # 2000000),
     [(0, 0, (1587401 # 2000000)); ((1 # 2), (15749 # 50000), (272781 # 500000)); (1, (137473 # 200000), (7937 # 20000))]);
    (Cx (-1 # 2) (-1 # 2), Cx (-1 # 2) (1 # 2), Cx (429603 # 625000) (-3968503 # 10000000),
     [(0, (429603 # 625000), (-3968503 # 10000000)); ((1 # 2), (15749 # 50000), (-272781 # 500000)); (1, 0, (-793701 # 1000000))]);
    (Cx (1 # 2) (-1 # 2), Cx (1 # 2) (1 # 2), Cx (-429603 # 625000) (3968503 # 10000000),
     [(0, (-429603 # 625000), (3968503 # 10000000)); ((1 # 2), (-629961 # 1000000), 0); (1, (-137473 # 200000), (-7937 # 20000))]);
    (Cx (1 # 2) (-1 # 2), Cx (1 # 2) (1 # 2), Cx 0 (-1587401 # 2000000),
     [(0, 0, (-1587401 # 2000000)); ((1 # 2), (15749 # 50000), (-272781 # 500000)); (1, (137473 # 200000), (-7937 # 20000))]);
    (Cx (1 # 2) (-1 # 2), Cx (1 # 2) (1 # 2), Cx (429603 # 625000) (3968503 # 10000000),
     [(0, (429603 # 625000), (3968503 # 10000000)); ((1 # 2), (15749 # 50000), (272781 # 500000)); (1, 0, (793701 # 1000000))]);
    (Cx (-1 # 2) (1 # 2), Cx (1 # 2) (1 # 2), Cx (-429603 # 625000) (3968503 # 10000000),
     [(0, (-429603 # 625000), (3968503 # 10000000)); ((1 # 2), (-15749 # 50000), (272781 # 500000)); (1, 0, (793701 # 1000000))]);
    (Cx (-1 # 2) (1 # 2), Cx (1 # 2) (1 # 2), Cx 0 (-1587401 # 2000000),
     [(0, 0, (-1587401 # 2000000)); ((1 # 2), (-15749 # 50000), (-272781 # 500000)); (1, (-137473 # 200000), (-7937 # 20000))]);
    (Cx (-1 # 2) (1 # 2), Cx (1 # 2) (1 # 2), Cx (429603 # 625000) (3968503 # 10000000),
     [(0, (429603 # 625000), (3968503 # 10000000)); ((1 # 2), (629961 # 1000000), 0); (1, (137473 # 200000), (-7937 # 20000))]) ].

(** Modelled from the spec: the exact root finder of the fibre
    polynomial, which is of the exact algebra of Sage and not in the
    module; on the points of the example it returns the roots of the
    table. *)
Definition lookup_fiber (x : complex) : list complex :=
  match find (fun e => complex_eqb (fst e) x) fiber_table with
  | Some e => snd e
  | None => []
  end.

#[global] Instance fibers : Fibers (list (list Q)) := {
  fiber_roots := fun _ x => lookup_fiber x
}.

Definition same_path (x0 x1 y : complex) (e : complex * complex * complex * list (Q * Q * Q))
  : bool :=
  let '(a, b, c, _) := e in
  complex_eqb a x0 && complex_eqb b x1 && complex_eqb c y.

(** Modelled from the spec: the continuation primitive of sirocco, which
    is not in the module: it takes the coefficients of the polynomial
    along the segment and an approximate root, and returns a
    piecewise-linear approximation of the path of the root or fails.
    The coefficients are stood for by the ends of the segment; the
    paths are those of the table, at any precision. *)
Definition lookup_path (coefs : list Q) (yr yi : Q) : option (list (Q * Q * Q)) :=
  match coefs with
  | [a; b; c; d] =>
      match find (same_path (Cx a b) (Cx c d) (Cx yr yi)) path_table with
      | Some e => Some (snd e)
      | None => None
      end
  | _ => None
  end.

#[global] Instance sirocco : Sirocco (list (list Q)) := {
  coefficients := fun g x0 x1 _ =>
    (QPoly.total_degree g, [real x0; imag x0; real x1; imag x1]);
  to_CC := fun _ c => c;
  contpath := fun _ coefs yr yi => lookup_path coefs yr yi;
  contpath_mp := fun _ coefs yr yi _ => lookup_path coefs yr yi
}.

(** A root finder that is exact on the polynomials of degree one. *)
Definition linear_roots (p : list Q) : list complex :=
  match QPoly.strip p with
  | [a0; a1] => [Cx (Qred (- a0 / a1)) 0]
  | _ => []
  end.

#[global] Instance elimination : Elimination QQxy := QQxy_elimination complex linear_roots.

#[global] Instance curves : Curves QQxy := {
  radical := QPoly.radical;
  degree := QPoly.degree;
  total_degree := QPoly.total_degree;
  coefficient := QPoly.coefficient;
  mem_ring := fun c _ => QPoly.is_constant c;
  subs_add := QPoly.subs_add
}.

Definition point_eqb (p q : Q * Q) : bool := Qeqb (fst p) (fst q) && Qeqb (snd p) (snd q).

Fixpoint points_eqb (l l' : list (Q * Q)) : bool :=
  match l, l' with
  | [], [] => true
  | p :: l, q :: l' => point_eqb p q && points_eqb l l'
  | _, _ => false
  end.

(** Modelled from the spec: the Voronoi diagram of scipy, which is not in
    the module.  The diagram of the origin and the four frame points
    [(1,0)], [(-1,0)], [(0,1)], [(0,-1)] is the square of corners
    [(+-1/2, +-1/2)], with a ray from every corner. *)
Definition square_voronoi (configuration : list (Q * Q)) : list (Q * Q) * list (list Z) :=
  if points_eqb configuration [(0, 0); (1, 0); (-1, 0); (0, 1); (0, -1)]
  then ([(-(1#2), -(1#2)); (1#2, -(1#2)); (-(1#2), 1#2); (1#2, 1#2)],
        [[-1; 0]; [-1; 1]; [0; 1]; [-1; 2]; [0; 2]; [-1; 3]; [1; 3]; [2; 3]]%Z)
  else ([], []).

#[global] Instance geometry : Geometry complex := {
  QQbar_to_CC := fun a => a;
  voronoi := square_voronoi
}.

(** The image of the letter [i] of a free group word under the braid
    generator [j]. *)
Definition act_letter (j i : Z) : list Z :=
  (if (Z.eqb j i && Z.ltb 0 i)%bool then [i; i + 1; - i]
  else if (Z.eqb j (- i) && Z.ltb i 0)%bool then [- i; i - 1; i]
  else if (Z.eqb j (- i) && Z.ltb 0 i)%bool then [i + 1]
  else if (Z.eqb j i && Z.ltb i 0)%bool then [i - 1]
  else if (Z.ltb 0 i && Z.eqb j (i - 1))%bool then [i - 1]
  else if (Z.ltb i 0 && Z.eqb j (1 - i))%bool then [i + 1]
  else if (Z.ltb 0 i && Z.eqb (- j) (i - 1))%bool then [- i; i - 1; i]
  else if (Z.ltb i 0 && Z.eqb j (i + 1))%bool then [i; i + 1; - i]
  else [i])%Z.

(** Modelled from the spec: the action of the braid group on the free
    group, which is of the group algebra of Sage and not in the module:
    the generator [j] sends [x_j] to [x_j x_(j+1) x_j^-1] and [x_(j+1)]
    to [x_j]. *)
Definition artin (d : nat) (x : list Z) (b : list Z) : list Z :=
  FreeGroup.reduce (fold_left (fun t j => concat (map (act_letter j) t)) b x).

#[global] Instance groups : Groups := {
  act := artin;
  simplified_presentation := fun G => G
}.

#[global] Instance runtime : Runtime := {
  set_order := fun l => l;
  set_order_perm := fun l => Permutation_refl l;
  schedule := fun l => l;
  schedule_perm := fun l => Permutation_refl l
}.

(** [f^2], whose radical is [f]. *)
Definition f_squared : list (list Q) := QPoly.bmul f f.

(** The segment of the docstring of [braid_in_segment]. *)
Definition x0 : complex := Cx 1 0.
Definition x1 : complex := Cx 1 (1 # 2).

(** The presentations that [fundamental_group] returns for [f] in this
    world, before simplification. *)
Definition segment_relators : list (list Z) :=
  [[2; -4]; [-2; 1; 2; -5]; [3; -6];
   [1; -7]; [2; 3; -2; -8]; [2; -9];
   [4; -10]; [6; -11]; [-6; 5; 6; -12];
   [7; 8; -7; -10]; [7; -11]; [9; -12]]%Z.

Definition affine_presentation : FreeGroup.presentation :=
  FreeGroup.quotient 12 segment_relators.

Definition projective_presentation : FreeGroup.presentation :=
  FreeGroup.quotient 12 ([1; 2; 3]%Z :: segment_relators).

(** The four sides of the square, and the braids on them. *)
Definition sides : list (complex * complex) :=
  [(Cx (-(1 # 2)) (-(1 # 2)), Cx (1 # 2) (-(1 # 2)));
   (Cx (-(1 # 2)) (-(1 # 2)), Cx (-(1 # 2)) (1 # 2));
   (Cx (1 # 2) (-(1 # 2)), Cx (1 # 2) (1 # 2));
   (Cx (-(1 # 2)) (1 # 2), Cx (1 # 2) (1 # 2))].

Definition side_braids : list (complex * complex * list Z) :=
  combine sides [[1]; [-2]; [2]; [-1]]%Z.
End Cusp.

(** ** A primitive that needs precision

    A continuation primitive that fails below the precision 200. *)
Module Stubborn.
Definition needs_200 (prec : N) : option (list (Q * Q * Q)) :=
  if N.leb 200 prec then Some [(0, 0, 0); (1, 0, 0)] else None.

#[local] Instance sirocco : Sirocco unit := {
  coefficients := fun _ _ _ _ => (O, []);
  to_CC := fun _ c => c;
  contpath := fun _ _ _ _ => None;
  contpath_mp := fun _ _ _ _ prec => needs_200 prec
}.

(** [followstrand(f, 0, 1, 0)] with this primitive. *)
Definition follow (fuel : nat) : outcome (list (Q * Q * Q)) :=
  Follow.followstrand fuel tt (mkC 0 0) (mkC 1 0) (mkC 0 0) 53.
End Stubborn.

(** ** Strands to run braid_from_piecewise on *)
Module Strands.
Definition Cx (a b : Q) : complex := mkC a b.

(** The strands of the docstring of [braid_from_piecewise]. *)
Definition paths : list (list (Q * complex)) :=
  [ [(0, Cx 0 1); (2 # 10, Cx (-1) (-(1 # 2))); (8 # 10, Cx (-1) 0); (1, Cx 0 (-1))];
    [(0, Cx (-1) 0); (1 # 2, Cx 0 (-1)); (1, Cx 1 0)];
    [(0, Cx 1 0); (1 # 2, Cx 1 1); (1, Cx 0 1)] ].

(** Two strands that exchange their places along the real axis: they
    meet at [t = 1/2] in the point [1/2]. *)
Definition collide : list (list (Q * complex)) :=
  [ [(0, Cx 0 0); (1, Cx 1 0)];
    [(0, Cx 1 0); (1, Cx 0 0)] ].
End Strands.

(** ** Loop invariants of the resampling loop *)
Module ResampleInv.

Definition at_time (val : strand) (n : nat) (P : Q -> Prop) : Prop :=
  forall s, nth_error val n = Some s -> P (fst s).

Definition covered (val : strand) (vis : list Q) (P : Q -> Prop) : Prop :=
  forall t, In t (times val) -> P t -> exists t', In t' vis /\ t' == t.

(** Before the pass at time [i], [vis] being the partition points
    already sampled. *)
Definition before (i : Q) (vis : list Q) (val : strand) (ix : nat) (tp : list point)
  : Prop :=
  (1 <= ix)%nat /\ (ix < length val)%nat /\
  at_time val (ix - 1) (fun t => t < i) /\
  at_time val ix (fun t => i <= t) /\
  length tp = length vis /\
  covered val vis (fun t => t < i).

(** After the pass at time [i]. *)
Definition after (i : Q) (vis : list Q) (val : strand) (ix : nat) (tp : list point)
  : Prop :=
  (1 <= ix)%nat /\ (ix < length val)%nat /\
  at_time val (ix - 1) (fun t => t <= i) /\
  at_time val ix (fun t => i < t) /\
  length tp = S (length vis) /\
  covered val (vis ++ [i]) (fun t => t <= i).

(** The three lists of the loop, strand by strand. *)
Inductive rows (P : strand -> nat -> list point -> Prop)
  : list strand -> list nat -> list (list point) -> Prop :=
| rows_nil : rows P [] [] []
| rows_cons val ix tp L indices totalpoints :
    P val ix tp -> rows P L indices totalpoints ->
    rows P (val :: L) (ix :: indices) (tp :: totalpoints).

(** Some strand has a sample exactly at time [i]. *)
Definition hits (i : Q) (L : list strand) (indices : list nat) : Prop :=
  Exists (fun vi => exists s, nth_error (fst vi) (snd vi) = Some s /\ fst s = i)
         (combine L indices).

(** The samples not yet passed. *)
Definition slack (L : list strand) (indices : list nat) : nat :=
  list_sum (map (fun vi => length (fst vi) - snd vi)%nat (combine L indices)).

Definition visited (L : list strand) (i : Q) (vis : list Q) : Prop :=
  StronglySorted Qlt vis /\ Forall (fun t => t < i) vis /\ Forall (occurs L) vis.

End ResampleInv.

(** ** The order in which crossings are turned into letters *)
Module Trace.

Definition time (c : cruce) : Q := let '(t, _, _, _) := c in t.

Definition le_time (a b : cruce) : Prop := time a <= time b.

(** The index gap of the two strands of [c] under [P]. *)
Definition cruce_gap (P : Perm.perm) (c : cruce) : Z :=
  let '(_, k, j, _) := c in gap P k j.

Definition cross_gap (c : cross) : Z := let '(g, _, _, _) := c in g.

(** The letter of [c] under [P]: its sign at the smaller of the
    current positions of its two strands. *)
Definition step_letter (P : Perm.perm) (c : cruce) : Z :=
  let '(_, k, j, s) := c in
  (s * Z.of_nat (Nat.min (P (k + 1)%nat) (P (j + 1)%nat)))%Z.

(** [P] after the transposition of the two strands of [c]. *)
Definition step_perm (P : Perm.perm) (c : cruce) : Perm.perm :=
  let '(_, k, j, _) := c in Perm.mul (Perm.transposition (k + 1) (j + 1)) P.

(** The word of the crossings [order], taken one after the other from
    the permutation [P]. *)
Fixpoint run (P : Perm.perm) (order : list cruce) : list Z :=
  match order with
  | [] => []
  | c :: order' => step_letter P c :: run (step_perm P c) order'
  end.

Definition final_perm (P : Perm.perm) (order : list cruce) : Perm.perm :=
  fold_left step_perm order P.

(** Every crossing has the least gap, under the permutation current
    when it is taken, among the crossings after it. *)
Fixpoint least_gap_tied (P : Perm.perm) (order : list cruce) : Prop :=
  match order with
  | [] => True
  | c :: order' =>
      (forall c', In c' order' -> (cruce_gap P c <= cruce_gap P c')%Z) /\
      least_gap_tied (step_perm P c) order'
  end.

(** The same among the crossings after it at the same time. *)
Fixpoint least_gap_first (P : Perm.perm) (order : list cruce) : Prop :=
  match order with
  | [] => True
  | c :: order' =>
      (forall c', In c' order' -> time c' == time c ->
                  (cruce_gap P c <= cruce_gap P c')%Z) /\
      least_gap_first (step_perm P c) order'
  end.

(** The columns [l1], [l2] of one interval, sorted as the code sorts
    them. *)
Definition sorted_columns (l1 l2 : list point) : list point * list point :=
  let M := sort segment_compare (combine l1 l2) in (map fst M, map snd M).

(** [P] permutes [1..n]. *)
Definition permutes (n : nat) (P : Perm.perm) : Prop :=
  (forall x, (1 <= x <= n)%nat -> (1 <= P x <= n)%nat) /\
  (forall x y, (1 <= x <= n)%nat -> (1 <= y <= n)%nat -> P x = P y -> x = y).

(** A crossing of strands [k < j] among [n], with a sign of [sgn]. *)
Definition shaped (n : nat) (c : cruce) : Prop :=
  let '(_, k, j, s) := c in
  (k < j < n)%nat /\ (s = 1 \/ s = -1 \/ s = 0)%Z.

(** A letter of a braid word on [n] strands, or zero. *)
Definition letter_or_zero (n : nat) (a : Z) : Prop :=
  (Z.abs a <= Z.of_nat n - 1)%Z.

End Trace.

(** ** Algebraic numbers, for the example of discrim

    The roots that [discrim] returns are algebraic numbers; those of the
    example are not rational.  A complex number is here a pair of real
    numbers, and a root finder is any function that is exact on the
    polynomial it is given. *)
Module Algebraic.

Abbreviation RC := (R * R)%type (only parsing).

Definition cadd (z w : RC) : RC := (fst z + fst w, snd z + snd w)%R.

Definition cmul (z w : RC) : RC :=
  (fst z * fst w - snd z * snd w, fst z * snd w + snd z * fst w)%R.

Definition of_Q (a : Q) : RC := (Q2R a, 0%R).

(** The value of a polynomial with rational coefficients. *)
Definition ceval (p : list Q) (z : RC) : RC :=
  fold_right (fun a acc => cadd (of_Q a) (cmul z acc)) (0%R, 0%R) p.

(** Modelled from the spec: the root isolation over the algebraic
    closure, which is of the exact algebra of Sage and not in the
    module: [roots p] lists the complex roots of [p], each once. *)
Definition exact_on (roots : list Q -> list RC) (p : list Q) : Prop :=
  NoDup (roots p) /\ forall z, In z (roots p) <-> ceval p z = (0%R, 0%R).

(** [1], [-1/2 - (sqrt 3 / 2) i] and [-1/2 + (sqrt 3 / 2) i] *)
Definition cube_roots_of_unity : list RC :=
  [(1, 0); (-1 / 2, - sqrt 3 / 2); (-1 / 2, sqrt 3 / 2)]%R.

(** [f = (y^3 + x^3 - 1) * (x + y)] *)
Definition cubic_and_line : list (list Q) :=
  QPoly.bmul [[-1; 0; 0; 1]; []; []; [1]] [[0; 1]; [1]].

(** The polynomial whose roots [discrim] returns. *)
Definition eliminant (f : list (list Q)) : list Q :=
  QPoly.uradical
    (QPoly.univariate QPoly.X
       (QPoly.resultant (QPoly.discriminant f QPoly.Y) f QPoly.Y)).

(** A root finder that knows the cube roots of unity. *)
Definition unity_roots (p : list Q) : list RC := cube_roots_of_unity.

End Algebraic.

(** ** Vocabulary of the further properties *)
Module Coverage.

(** The call has come to an end: it returned or it raised. *)
Definition finished {A : Type} (m : outcome A) : Prop :=
  (exists a, m = Return a) \/ (exists e, m = Raise e).

(** The point of the strand [val] at the time [t]: on the segment that
    joins two consecutive samples, one at or before [t] and one at or
    after [t]. *)
Definition on_strand (val : strand) (t : Q) (p : point) : Prop :=
  exists n a b,
    nth_error val n = Some a /\ nth_error val (S n) = Some b /\
    fst a <= t /\ t <= fst b /\ fst a < fst b /\
    fst p == real (snd a) + (real (snd b) - real (snd a)) * (t - fst a) / (fst b - fst a) /\
    snd p == imag (snd a) + (imag (snd b) - imag (snd a)) * (t - fst a) / (fst b - fst a).

(** The row [tp] holds the points of the strand at the times [ts]. *)
Definition sampled (val : strand) (ts : list Q) (tp : list point) : Prop :=
  Forall2 (on_strand val) ts tp.

(** The points handed to the Voronoi diagram: the discriminant points
    and the four points of the frame at distance [added_points]. *)
Definition configuration (discpoints : list point) (added_points : Q) : list point :=
  discpoints ++ [(added_points, 0); (- added_points, 0);
                 (0, added_points); (0, - added_points)].

(** A ridge with both of its vertices at finite distance. *)
Definition bounded_ridge (rv : list Z) : bool := negb (existsb (Z.eqb (-1)) rv).

(** The segment [seg] joins the two vertices of the ridge [rv]. *)
Definition ridge_ends (vertices : list point) (rv : list Z) (seg : complex * complex) : Prop :=
  exists a b,
    nth_error rv 0 = Some a /\ nth_error rv 1 = Some b /\
    nth_error vertices (Z.to_nat a) = Some (pt (fst seg)) /\
    nth_error vertices (Z.to_nat b) = Some (pt (snd seg)).

(** A letter of a word of the free group on [n] generators. *)
Definition generator_letter (n : nat) (a : Z) : Prop :=
  (1 <= Z.abs a <= Z.of_nat n)%Z.

End Coverage.

(** ** The coefficients handed to sirocco

    The loop of [followstrand] that lists the coefficients of [g], each
    one a complex interval given by the endpoints of its real and of its
    imaginary part. *)
Module Coefs.

(** An element [c] of [CIF], by [c.real().endpoints()] and
    [c.imag().endpoints()]. *)
Record CIF : Type := mkCIF {
  real_endpoints : Q * Q;
  imag_endpoints : Q * Q
}.

(** What one pass of the inner loop adds to [coefs]. *)
Definition endpoints (c : CIF) : list Q :=
  [fst (real_endpoints c); snd (real_endpoints c)]
    ++ [fst (imag_endpoints c); snd (imag_endpoints c)].

(** [for d in range(deg + 1): for i in range(d + 1): ...], where
    [coefficient a b] is [CIF(g.coefficient({x: a, y: b}))]. *)
Definition coefs (coefficient : nat -> nat -> CIF) (deg : nat) : list Q :=
  fold_left (fun coefs d =>
               fold_left (fun coefs i => coefs ++ endpoints (coefficient (d - i) i)%nat)
                         (seq 0 (d + 1)) coefs)
            (seq 0 (deg + 1)) [].

(** The part of [coefs] that the pass [d] of the outer loop adds: the
    coefficients of the monomials of total degree [d]. *)
Definition block (coefficient : nat -> nat -> CIF) (d : nat) : list Q :=
  flat_map (fun i => endpoints (coefficient (d - i) i)%nat) (seq 0 (d + 1)).

End Coefs.

(** ** The functions from their first to their last statement *)

(** The braids of Sage, by their Tietze words. *)
Module Braid.

(** Modelled from the spec: [BraidGroup(n)], of the group algebra of Sage
    and not in the module.  The group on [n] strands has the [n - 1]
    generators [s0], ..., [s(n-2)]; there is none on fewer than two
    strands. *)
Definition BraidGroup (n : nat) : outcome nat :=
  if Nat.ltb n 2 then Raise TooFewStrands else Return n.

(** Modelled from the spec: [B(braid)] for [B = BraidGroup(n)] and a list
    [braid], of the group algebra of Sage and not in the module.  The
    list goes through the free group on the [n - 1] generators, which
    refuses the letter [0] and a letter beyond [n - 1] and reduces the
    word. *)
Definition make (n : nat) (braid : list Z) : outcome (list Z) :=
  FreeGroup.make (n - 1) braid.

(** Modelled from the spec: the product [b1 * b2] of two braids, of the
    group algebra of Sage and not in the module. *)
Definition mul (b1 b2 : list Z) : list Z := FreeGroup.mul b1 b2.

End Braid.

Module Whole.
Import Follow Segment.

(** [braid_from_piecewise(strands)], to its last line
    [return B(braid)]. *)
Definition braid_from_piecewise (fuel : nat) (strands : list strand) : outcome (list Z) :=
  let L := strands in
  braid <- Piecewise.braid_from_piecewise fuel strands ;;
  B <- Braid.BraidGroup (length L) ;;
  Braid.make B braid.

Section Whole.
Context {P : Polynomials} {S : Sirocco poly} {R : Fibers poly}.

(** [followstrand(f, x0, x1, y0a, prec)], from its first line.  The
    changes of ring that give [G] keep the monomials of [f]:
    [G.variables()] is [f.variables()]. *)
Fixpoint followstrand (fuel : nat) (f : poly) (x0 x1 y0a : complex) (prec : N)
  : outcome (list (Q * Q * Q)) :=
  match fuel with
  | O => OutOfFuel
  | Datatypes.S fuel' =>
      xy <- unpack2 (variables f) ;;
      match primitive f x0 x1 y0a prec with
      | Some points => Return points
      | None => followstrand fuel' f x0 x1 y0a (2 * prec)
      end
  end.

(** [braid_in_segment(f, x0, x1)], from its first line. *)
Definition braid_in_segment (fuel : nat) (f : poly) (x0 x1 : complex)
  : outcome (list Z) :=
  xy <- unpack2 (variables f) ;;
  let X0 := x0 in
  let X1 := x1 in
  let y0s := fiber_roots f X0 in
  strands <- mapM (fun a => followstrand fuel f x0 x1 (to_CC 64 a) 53) y0s ;;
  let complexstrands := map complexstrand strands in
  centralbraid <- braid_from_piecewise fuel complexstrands ;;
  y0aps <- mapM (fun c => s <- index c 0 ;; Return (snd s)) complexstrands ;;
  initial <- match_roots initial_strand y0s y0aps [] [] ;;
  let initialstrands := snd initial in
  initialbraid <- braid_from_piecewise fuel initialstrands ;;
  let y1s := fiber_roots f X1 in
  y1aps <- mapM (fun c => s <- index_last c ;; Return (snd s)) complexstrands ;;
  final <- match_roots final_strand y1s y1aps [] [] ;;
  let finalstrands := snd final in
  finallbraid <- braid_from_piecewise fuel finalstrands ;;
  Return (Braid.mul (Braid.mul initialbraid centralbraid) finallbraid).
End Whole.
End Whole.

(** * Properties *)

(** ** Outcomes *)

Lemma bind_Return_inv (A B : Type) (m : outcome A) (k : A -> outcome B) (b : B) :
  bind m k = Return b -> exists a, m = Return a /\ k a = Return b.
Proof.
  destruct m as [a | e |]; simpl; intros H; try discriminate.
  exists a; split; [reflexivity | exact H].
Qed.

Lemma bind_Raise_inv (A B : Type) (m : outcome A) (k : A -> outcome B) (e : error) :
  bind m k = Raise e -> m = Raise e \/ exists a, m = Return a /\ k a = Raise e.
Proof.
  destruct m as [a | e' |]; simpl; intros H; try discriminate.
  - right; exists a; split; [reflexivity | exact H].
  - left; inversion H; reflexivity.
Qed.

Lemma index_Return (A : Type) (l : list A) (n : nat) (a : A) :
  index l n = Return a <-> nth_error l n = Some a.
Proof.
  unfold index; destruct (nth_error l n); split; intros H; inversion H; reflexivity.
Qed.

Lemma index_lt (A : Type) (l : list A) (n : nat) :
  (n < length l)%nat -> exists a, index l n = Return a.
Proof.
  intros H. unfold index.
  destruct (nth_error l n) as [a |] eqn:E.
  - exists a; reflexivity.
  - apply nth_error_None in E. lia.
Qed.

Lemma index_only_IndexError (A : Type) (l : list A) (n : nat) (e : error) :
  index l n = Raise e -> e = IndexError.
Proof.
  unfold index; destruct (nth_error l n); intros H; inversion H; reflexivity.
Qed.

Lemma index_no_fuel (A : Type) (l : list A) (n : nat) : index l n <> OutOfFuel.
Proof. unfold index; destruct (nth_error l n); discriminate. Qed.

Lemma mapM_Return_length (A B : Type) (f : A -> outcome B) (l : list A) (bs : list B) :
  mapM f l = Return bs -> length bs = length l.
Proof.
  revert bs; induction l as [| a l IH]; simpl; intros bs H.
  - inversion H; reflexivity.
  - apply bind_Return_inv in H; destruct H as (b & _ & H).
    apply bind_Return_inv in H; destruct H as (bs' & Hbs & H).
    inversion H; subst; simpl; f_equal; apply IH; exact Hbs.
Qed.

Lemma mapM_Forall2 (A B : Type) (f : A -> outcome B) (l : list A) (bs : list B) :
  mapM f l = Return bs <-> Forall2 (fun a b => f a = Return b) l bs.
Proof.
  revert bs; induction l as [| a l IH]; simpl; intros bs; split; intros H.
  - inversion H; constructor.
  - inversion H; reflexivity.
  - apply bind_Return_inv in H; destruct H as (b & Hb & H).
    apply bind_Return_inv in H; destruct H as (bs' & Hbs & H).
    inversion H; subst; constructor; [exact Hb | apply IH; exact Hbs].
  - inversion H as [| a' b l' bs' Hb Hbs]; subst.
    rewrite Hb; simpl. apply IH in Hbs. rewrite Hbs; reflexivity.
Qed.

Lemma mapM_total (A B : Type) (f : A -> outcome B) (l : list A) :
  Forall (fun a => exists b, f a = Return b) l -> exists bs, mapM f l = Return bs.
Proof.
  induction 1 as [| a l (b & Hb) _ (bs & Hbs)]; simpl.
  - exists []; reflexivity.
  - exists (b :: bs); rewrite Hb; simpl; rewrite Hbs; reflexivity.
Qed.

Lemma mapM_Raise_inv (A B : Type) (f : A -> outcome B) (l : list A) (e : error) :
  mapM f l = Raise e -> exists a, In a l /\ f a = Raise e.
Proof.
  induction l as [| a l IH]; simpl; intros H; [discriminate |].
  apply bind_Raise_inv in H; destruct H as [H | (b & _ & H)].
  - exists a; auto.
  - apply bind_Raise_inv in H; destruct H as [H | (bs & _ & H)]; [| discriminate].
    destruct (IH H) as (a' & Hin & Ha'); exists a'; auto.
Qed.

Lemma mapM_ext_in (A B : Type) (f g : A -> outcome B) (l : list A) :
  (forall a, In a l -> f a = g a) -> mapM f l = mapM g l.
Proof.
  induction l as [| a l IH]; simpl; intros H; [reflexivity |].
  rewrite (H a (or_introl eq_refl)), IH; [reflexivity |].
  intros a' Ha'; apply H; right; exact Ha'.
Qed.

Lemma Forall2_In_l (A B : Type) (R : A -> B -> Prop) (l : list A) (l' : list B) (a : A) :
  Forall2 R l l' -> In a l -> exists b, In b l' /\ R a b.
Proof.
  induction 1 as [| x y l l' Hxy _ IH]; intros Hin; [inversion Hin |].
  destruct Hin as [-> | Hin].
  - exists y; split; [left; reflexivity | exact Hxy].
  - destruct (IH Hin) as (b & Hb & Hab). exists b; split; [right; exact Hb | exact Hab].
Qed.

Lemma Forall2_In_r (A B : Type) (R : A -> B -> Prop) (l : list A) (l' : list B) (b : B) :
  Forall2 R l l' -> In b l' -> exists a, In a l /\ R a b.
Proof.
  induction 1 as [| x y l l' Hxy _ IH]; intros Hin; [inversion Hin |].
  destruct Hin as [-> | Hin].
  - exists x; split; [left; reflexivity | exact Hxy].
  - destruct (IH Hin) as (a & Ha & Hab). exists a; split; [right; exact Ha | exact Hab].
Qed.

(** ** Rational comparisons *)

Lemma Qltb_lt (x y : Q) : Qltb x y = true <-> x < y.
Proof.
  unfold Qltb. rewrite Qlt_alt. destruct (x ?= y); split; intros H; congruence.
Qed.

Lemma Qltb_ge (x y : Q) : Qltb x y = false <-> y <= x.
Proof.
  unfold Qltb. rewrite Qle_alt.
  pose proof (Qcompare_antisym x y) as Ha.
  destruct (x ?= y) eqn:E; rewrite <- Ha; simpl; split; intros H; congruence.
Qed.

Lemma Qeqb_eq (x y : Q) : Qeqb x y = true <-> x == y.
Proof.
  unfold Qeqb. rewrite Qeq_alt. destruct (x ?= y); split; intros H; congruence.
Qed.

Lemma Qeqb_neq (x y : Q) : Qeqb x y = false <-> ~ x == y.
Proof.
  rewrite <- Qeqb_eq. destruct (Qeqb x y); split; intros H; congruence.
Qed.

(** ** The stable sort *)

Section SortFacts.
Variable A : Type.
Variable cmp : A -> A -> comparison.

Lemma insert_perm (x : A) (l : list A) : Permutation (insert cmp x l) (x :: l).
Proof.
  induction l as [| y l IH]; simpl; [apply Permutation_refl |].
  destruct (cmp x y); try apply Permutation_refl.
  eapply perm_trans; [apply perm_skip; exact IH | apply perm_swap].
Qed.

Lemma sort_perm (l : list A) : Permutation (sort cmp l) l.
Proof.
  induction l as [| x l IH]; simpl; [constructor |].
  eapply perm_trans; [apply insert_perm | apply perm_skip; exact IH].
Qed.

Lemma sort_length (l : list A) : length (sort cmp l) = length l.
Proof. apply Permutation_length, sort_perm. Qed.

Lemma sort_nil_inv (l : list A) : sort cmp l = [] -> l = [].
Proof.
  intros H. apply length_zero_iff_nil. rewrite <- sort_length, H. reflexivity.
Qed.

(** Any relation that [cmp] decides in both directions orders the
    sorted list. *)
Variable R : A -> A -> Prop.
Hypothesis cmp_le : forall x y, cmp x y <> Gt -> R x y.
Hypothesis cmp_gt : forall x y, cmp x y = Gt -> R y x.

Lemma insert_sorted (x : A) (l : list A) : Sorted R l -> Sorted R (insert cmp x l).
Proof.
  induction 1 as [| y l Hs IH Hhd]; simpl.
  - repeat constructor.
  - destruct (cmp x y) eqn:E.
    + constructor; [constructor; assumption |].
      constructor; apply cmp_le; congruence.
    + constructor; [constructor; assumption |].
      constructor; apply cmp_le; congruence.
    + constructor; [exact IH |].
      destruct l as [| z l]; simpl.
      * constructor; apply cmp_gt; exact E.
      * destruct (cmp x z); constructor;
          solve [apply cmp_gt; exact E | inversion Hhd; assumption].
Qed.

Lemma sort_sorted (l : list A) : Sorted R (sort cmp l).
Proof.
  induction l as [| x l IH]; simpl; [constructor | apply insert_sorted; exact IH].
Qed.

Hypothesis R_trans : forall x y z, R x y -> R y z -> R x z.

Lemma sort_strongly_sorted (l : list A) : StronglySorted R (sort cmp l).
Proof. apply Sorted_StronglySorted; [exact R_trans | apply sort_sorted]. Qed.

Lemma sort_head_least (l : list A) (c : A) (rest : list A) :
  sort cmp l = c :: rest -> Forall (R c) rest.
Proof.
  intros H. pose proof (sort_strongly_sorted l) as Hs.
  rewrite H in Hs. inversion Hs; assumption.
Qed.
End SortFacts.

(** ** followstrand *)
Module FollowFacts.
Import Follow.

Section FollowFacts.
Context {poly : Type} {S : Sirocco poly}.
Variables (f : poly) (x0 x1 y0a : complex).

Lemma retry_prec_0 (prec : N) : retry_prec prec 0 = prec.
Proof. unfold retry_prec; simpl; lia. Qed.

Lemma retry_prec_S (prec : N) (k : nat) :
  retry_prec prec (Datatypes.S k) = retry_prec (2 * prec) k.
Proof.
  unfold retry_prec. rewrite Nat2N.inj_succ, N.pow_succ_r'. lia.
Qed.

Lemma followstrand_never_raises (fuel : nat) (prec : N) (e : error) :
  followstrand fuel f x0 x1 y0a prec <> Raise e.
Proof.
  revert prec; induction fuel as [| fuel IH]; simpl; intros prec; [discriminate |].
  destruct (primitive f x0 x1 y0a prec); [discriminate | apply IH].
Qed.

Lemma followstrand_first_success (k : nat) :
  forall prec points, first_success f x0 x1 y0a prec k points ->
  forall fuel, (k < fuel)%nat -> followstrand fuel f x0 x1 y0a prec = Return points.
Proof.
  induction k as [| k IH]; intros prec points [Hfail Hok] fuel Hfuel;
    (destruct fuel as [| fuel]; [lia |]); cbn [followstrand].
  - rewrite retry_prec_0 in Hok. rewrite Hok. reflexivity.
  - pose proof (Hfail O ltac:(lia)) as H0. rewrite retry_prec_0 in H0. rewrite H0.
    apply IH; [| lia]. split.
    + intros i Hi. rewrite <- retry_prec_S. apply Hfail. lia.
    + rewrite <- retry_prec_S. exact Hok.
Qed.

Lemma followstrand_Return_inv (fuel : nat) :
  forall prec points, followstrand fuel f x0 x1 y0a prec = Return points ->
  exists k, (k < fuel)%nat /\ first_success f x0 x1 y0a prec k points.
Proof.
  induction fuel as [| fuel IH]; cbn [followstrand]; intros prec points H; [discriminate |].
  destruct (primitive f x0 x1 y0a prec) as [pts |] eqn:E.
  - inversion H; subst. exists O. split; [lia |]. split.
    + intros i Hi; lia.
    + rewrite retry_prec_0; exact E.
  - destruct (IH _ _ H) as (k & Hk & Hfail & Hok).
    exists (Datatypes.S k). split; [lia |]. split.
    + intros [| i] Hi.
      * rewrite retry_prec_0; exact E.
      * rewrite retry_prec_S. apply Hfail. lia.
    + rewrite retry_prec_S. exact Hok.
Qed.

Lemma followstrand_some_success (k : nat) :
  forall prec, primitive f x0 x1 y0a (retry_prec prec k) <> None ->
  exists points, followstrand (Datatypes.S k) f x0 x1 y0a prec = Return points.
Proof.
  induction k as [| k IH]; intros prec Hk; cbn [followstrand].
  - rewrite retry_prec_0 in Hk.
    destruct (primitive f x0 x1 y0a prec) as [pts |]; [| congruence].
    exists pts; reflexivity.
  - destruct (primitive f x0 x1 y0a prec) as [pts |]; [exists pts; reflexivity |].
    rewrite retry_prec_S in Hk. apply (IH _ Hk).
Qed.

(** As long as the primitive fails the call goes on. *)
Lemma followstrand_still_running (k : nat) :
  forall prec,
    (forall i, (i < k)%nat -> primitive f x0 x1 y0a (retry_prec prec i) = None) ->
    followstrand k f x0 x1 y0a prec = OutOfFuel.
Proof.
  induction k as [| k IH]; intros prec Hfail; cbn [followstrand]; [reflexivity |].
  pose proof (Hfail O ltac:(lia)) as H0. rewrite retry_prec_0 in H0. rewrite H0.
  apply IH. intros i Hi. rewrite <- retry_prec_S. apply Hfail. lia.
Qed.
End FollowFacts.
End FollowFacts.

(** ** The resampling loop of braid_from_piecewise *)
Module ResampleFacts.
Import ResampleInv.

Lemma times_nth (val : strand) (n : nat) (s : sample) :
  nth_error val n = Some s -> nth_error (times val) n = Some (fst s).
Proof. intros H. unfold times. apply map_nth_error. exact H. Qed.

Lemma sorted_nth_lt (val : strand) :
  StronglySorted Qlt (times val) ->
  forall n m a b, (n < m)%nat -> nth_error val n = Some a -> nth_error val m = Some b ->
                  fst a < fst b.
Proof.
  induction val as [| s val IH]; simpl; intros Hs n m a b Hnm Ha Hb.
  - destruct n; discriminate.
  - apply StronglySorted_inv in Hs. destruct Hs as [Hs Hall].
    destruct m as [| m]; [lia |]. simpl in Hb.
    destruct n as [| n]; simpl in Ha.
    + inversion Ha; subst a.
      rewrite Forall_forall in Hall. apply Hall.
      apply nth_error_In with (n := m). apply times_nth; exact Hb.
    + apply (IH Hs n m); [lia | assumption | assumption].
Qed.

Lemma sorted_nth_le (val : strand) :
  StronglySorted Qlt (times val) ->
  forall n m a b, (n <= m)%nat -> nth_error val n = Some a -> nth_error val m = Some b ->
                  fst a <= fst b.
Proof.
  intros Hs n m a b Hnm Ha Hb.
  destruct (Nat.eq_dec n m) as [-> | Hne].
  - rewrite Ha in Hb; inversion Hb; subst. apply Qle_refl.
  - apply Qlt_le_weak. apply (sorted_nth_lt val Hs n m); [lia | assumption | assumption].
Qed.

Lemma hd_times (val : strand) (s : sample) :
  nth_error val 0 = Some s -> hd 0 (times val) = fst s.
Proof. destruct val; simpl; intros H; inversion H; reflexivity. Qed.

Lemma last_times (val : strand) (s : sample) :
  nth_error val (length val - 1) = Some s -> last (times val) 0 = fst s.
Proof.
  intros H.
  assert (Hn : val <> []) by (intros ->; discriminate).
  destruct (exists_last Hn) as (val' & s' & ->).
  rewrite length_app in H; simpl in H.
  replace (length val' + 1 - 1)%nat with (length val') in H by lia.
  rewrite nth_error_app2 in H by lia. rewrite Nat.sub_diag in H. simpl in H.
  inversion H; subst. unfold times. rewrite map_app. simpl. apply last_last.
Qed.

Lemma in_times_nth (val : strand) (t : Q) :
  In t (times val) -> exists n s, nth_error val n = Some s /\ fst s = t.
Proof.
  intros H. apply In_nth_error in H. destruct H as (n & H).
  unfold times in H.
  destruct (nth_error val n) as [s |] eqn:E.
  - rewrite (map_nth_error fst n val E) in H. inversion H. exists n, s. auto.
  - apply nth_error_None in E.
    assert (Hn : nth_error (map fst val) n <> None) by congruence.
    apply nth_error_Some in Hn. rewrite length_map in Hn.
    lia.
Qed.

Section OneStrand.
Variable val : strand.
Hypothesis Hwf : well_formed val.

Lemma wf_nth (n : nat) : (n < length val)%nat -> exists s, nth_error val n = Some s.
Proof.
  intros H. destruct (nth_error val n) as [s |] eqn:E; [exists s; reflexivity |].
  apply nth_error_None in E; lia.
Qed.

Lemma wf_first (s : sample) : nth_error val 0 = Some s -> fst s == 0.
Proof.
  intros H. destruct Hwf as (_ & _ & H0 & _).
  rewrite (hd_times _ _ H) in H0. exact H0.
Qed.

Lemma wf_last (s : sample) : nth_error val (length val - 1) = Some s -> fst s == 1.
Proof.
  intros H. destruct Hwf as (_ & _ & _ & H1).
  rewrite (last_times _ _ H) in H1. exact H1.
Qed.

Lemma wf_le_1 (t : Q) : In t (times val) -> t <= 1.
Proof.
  intros H. apply in_times_nth in H. destruct H as (n & s & Hn & <-).
  assert (Hlen : (n < length val)%nat) by (apply nth_error_Some; congruence).
  destruct (wf_nth (length val - 1)) as (l & Hl); [lia |].
  rewrite <- (wf_last _ Hl).
  destruct Hwf as (_ & Hs & _).
  apply (sorted_nth_le val Hs n (length val - 1)%nat); [lia | assumption | assumption].
Qed.

(** One strand in one pass of the loop body. *)
Lemma strand_step_spec (i : Q) (vis : list Q) (ix : nat) (tp : list point) :
  before i vis val ix tp -> i < 1 ->
  exists ix' tp',
    strand_step i val ix tp = Return (ix', tp') /\
    after i vis val ix' tp' /\
    (ix <= ix')%nat /\
    ((exists s, nth_error val ix = Some s /\ fst s = i) -> ix' = S ix).
Proof.
  intros (H1 & Hlen & Hprev & Hcur & Htp & Hcov) Hi.
  destruct Hwf as (Hlen2 & Hs & _).
  destruct (wf_nth ix Hlen) as (cur & Ecur).
  destruct (wf_nth (ix - 1)) as (prev & Eprev); [lia |].
  pose proof (Hprev _ Eprev) as Hp. pose proof (Hcur _ Ecur) as Hc.
  simpl in Hp, Hc.
  assert (Hcov' : covered val (vis ++ [i]) (fun t => t <= i)).
  { intros t Ht Hle. destruct (Qlt_le_dec t i) as [Hlt | Hge].
    - destruct (Hcov t Ht Hlt) as (t' & Hin & Heq).
      exists t'; split; [apply in_or_app; left; exact Hin | exact Heq].
    - exists i; split; [apply in_or_app; right; left; reflexivity |].
      apply Qle_antisym; assumption. }
  unfold strand_step, index. rewrite Ecur. simpl.
  destruct (Qltb i (fst cur)) eqn:E.
  - apply Qltb_lt in E. rewrite Eprev. simpl.
    unfold interpolate.
    destruct (Qeqb (fst cur - fst prev) 0) eqn:Ez.
    { apply Qeqb_eq in Ez. lra. }
    simpl. eexists; eexists; split; [reflexivity |].
    split; [| split; [lia |]].
    + repeat split; try assumption.
      * intros s Hs'. rewrite Eprev in Hs'. inversion Hs'; subst.
        apply Qlt_le_weak; exact Hp.
      * intros s Hs'. rewrite Ecur in Hs'. inversion Hs'; subst. exact E.
      * rewrite length_app; simpl; lia.
    + intros (s & Hs' & Heq). inversion Hs'; subst. lra.
  - apply Qltb_ge in E.
    assert (Heq : fst cur == i) by (apply Qle_antisym; assumption).
    assert (Hnext : (S ix < length val)%nat).
    { destruct (Nat.eq_dec ix (length val - 1)) as [-> | Hne]; [| lia].
      pose proof (wf_last _ Ecur). lra. }
    eexists; eexists; split; [reflexivity |].
    split; [| split; [lia | reflexivity]].
    repeat split; try assumption; try lia.
    + intros s Hs'. replace (S ix - 1)%nat with ix in Hs' by lia.
      rewrite Ecur in Hs'. inversion Hs'; subst. exact E.
    + intros s Hs'.
      pose proof (sorted_nth_lt val Hs ix (S ix) _ _ ltac:(lia) Ecur Hs').
      lra.
    + rewrite length_app; simpl; lia.
Qed.

(** From the state after the pass at [i] to the state before the
    pass at a later time [i'] that no sample precedes. *)
Lemma after_before (i i' : Q) (vis : list Q) (ix : nat) (tp : list point) :
  after i vis val ix tp -> i < i' -> at_time val ix (fun t => i' <= t) ->
  before i' (vis ++ [i]) val ix tp.
Proof.
  intros (H1 & Hlen & Hprev & Hcur & Htp & Hcov) Hi Hnext.
  destruct Hwf as (Hlen2 & Hs & _).
  destruct (wf_nth ix Hlen) as (cur & Ecur).
  destruct (wf_nth (ix - 1)) as (prev & Eprev); [lia |].
  pose proof (Hprev _ Eprev) as Hp. pose proof (Hnext _ Ecur) as Hn. simpl in Hp, Hn.
  repeat split; try assumption.
  - intros s Hs'. rewrite Eprev in Hs'. inversion Hs'; subst. lra.
  - rewrite length_app; simpl; lia.
  - intros t Ht Hlt. apply Hcov; [exact Ht |].
    destruct (in_times_nth _ _ Ht) as (n & s & Hn' & <-).
    destruct (le_lt_dec ix n) as [Hge | Hlt'].
    + pose proof (sorted_nth_le val Hs ix n _ _ Hge Ecur Hn'). lra.
    + pose proof (sorted_nth_le val Hs n (ix - 1)%nat _ _ ltac:(lia) Hn' Eprev). lra.
Qed.
End OneStrand.

(** *** Minimum of a list *)

Lemma Qmin_from_in (l : list Q) : forall m, In (Qmin_from m l) (m :: l).
Proof.
  induction l as [| x l IH]; simpl; intros m; [left; reflexivity |].
  destruct (IH (if Qltb x m then x else m)) as [H | H].
  - destruct (Qltb x m); rewrite <- H; auto.
  - right; right; exact H.
Qed.

Lemma Qmin_from_le (l : list Q) : forall m x, In x (m :: l) -> Qmin_from m l <= x.
Proof.
  induction l as [| y l IH]; simpl; intros m x H.
  - destruct H as [<- | []]. apply Qle_refl.
  - assert (Hm : Qmin_from (if Qltb y m then y else m) l <= (if Qltb y m then y else m))
      by (apply IH; left; reflexivity).
    destruct H as [<- | [<- | H]].
    + destruct (Qltb y m) eqn:E; [apply Qltb_lt in E; lra | exact Hm].
    + destruct (Qltb y m) eqn:E; [exact Hm | apply Qltb_ge in E; lra].
    + apply IH; right; exact H.
Qed.

Lemma pymin_spec (ts : list Q) :
  ts <> [] -> exists i, pymin ts = Return i /\ In i ts /\ Forall (fun t => i <= t) ts.
Proof.
  destruct ts as [| t ts]; [congruence | intros _].
  exists (Qmin_from t ts). split; [reflexivity |]. split; [apply Qmin_from_in |].
  apply Forall_forall. intros x Hx. apply Qmin_from_le; exact Hx.
Qed.

(** *** One pass over all the strands *)

Lemma rows_length (P : strand -> nat -> list point -> Prop) L indices totalpoints :
  rows P L indices totalpoints ->
  length indices = length L /\ length totalpoints = length L.
Proof. induction 1; simpl; [auto | lia]. Qed.

Lemma rows_impl (P P' : strand -> nat -> list point -> Prop) L indices totalpoints :
  (forall val ix tp, In val L -> P val ix tp -> P' val ix tp) ->
  rows P L indices totalpoints -> rows P' L indices totalpoints.
Proof.
  intros Himp H. induction H as [| val ix tp L indices totalpoints HP H IH].
  - constructor.
  - constructor.
    + apply Himp; [left; reflexivity | exact HP].
    + apply IH. intros v i t Hin; apply Himp; right; exact Hin.
Qed.

Lemma rows_Forall (P : strand -> nat -> list point -> Prop) (Q' : list point -> Prop)
      L indices totalpoints :
  (forall val ix tp, P val ix tp -> Q' tp) ->
  rows P L indices totalpoints -> Forall Q' totalpoints.
Proof. intros Himp; induction 1; constructor; eauto. Qed.

Lemma for_strands_spec (i : Q) (vis : list Q) L indices totalpoints :
  Forall well_formed L -> rows (before i vis) L indices totalpoints -> i < 1 ->
  exists indices' totalpoints',
    for_strands i L indices totalpoints = Return (indices', totalpoints') /\
    rows (after i vis) L indices' totalpoints' /\
    (slack L indices' <= slack L indices)%nat /\
    (hits i L indices -> (slack L indices' < slack L indices)%nat).
Proof.
  intros Hwf H Hi. induction H as [| val ix tp L indices totalpoints HP H IH].
  - exists [], []. simpl. repeat split; [constructor | lia |].
    intros Hh; inversion Hh.
  - inversion Hwf as [| ? ? Hval HL]; subst.
    destruct (strand_step_spec val Hval i vis ix tp HP Hi) as (ix' & tp' & E & Ha & Hle & Hhit).
    destruct (IH HL) as (indices' & totalpoints' & E' & Hrows & Hsl & Hst).
    exists (ix' :: indices'), (tp' :: totalpoints').
    simpl. rewrite E. simpl. rewrite E'. simpl.
    split; [reflexivity |]. split; [constructor; assumption |].
    unfold slack in *. simpl.
    destruct Ha as (_ & Hlen' & _). destruct HP as (_ & Hlen & _).
    split; [lia |].
    intros Hh. inversion Hh as [? ? Hhd | ? ? Htl]; subst.
    + simpl in Hhd. rewrite (Hhit Hhd). lia.
    + specialize (Hst Htl). lia.
Qed.

Lemma next_times_spec (i : Q) (vis : list Q) (L0 : list strand) L indices totalpoints :
  Forall well_formed L -> (forall val, In val L -> In val L0) ->
  rows (after i vis) L indices totalpoints ->
  exists ts,
    mapM (fun vi => s <- index (fst vi) (snd vi) ;; Return (fst s)) (combine L indices)
    = Return ts /\
    length ts = length L /\
    (forall i', Forall (fun t => i' <= t) ts -> i < i' ->
                rows (before i' (vis ++ [i])) L indices totalpoints) /\
    (forall i', In i' ts -> i < i' /\ i' <= 1 /\ hits i' L indices /\ occurs L0 i').
Proof.
  intros Hwf Hsub H. induction H as [| val ix tp L indices totalpoints HP H IH].
  - exists []. simpl. split; [reflexivity |]. split; [reflexivity |]. split.
    + intros i' _ _. apply rows_nil.
    + intros i' [].
  - inversion Hwf as [| ? ? Hval HL]; subst.
    destruct IH as (ts & E & Hlen & Hrows & Hin); [exact HL | |].
    { intros v Hv; apply Hsub; right; exact Hv. }
    pose proof HP as (_ & Hix & _ & Hcur & _).
    destruct (wf_nth val ix Hix) as (cur & Ecur).
    exists (fst cur :: ts). simpl. unfold index at 1. rewrite Ecur. simpl.
    rewrite E. simpl. split; [reflexivity |]. split; [lia |]. split.
    + intros i' Hall Hi'. inversion Hall; subst. constructor.
      * apply after_before; [exact Hval | exact HP | exact Hi' |].
        intros s Hs. rewrite Ecur in Hs. inversion Hs; subst. assumption.
      * apply Hrows; assumption.
    + intros i' [<- | Hi'].
      * split; [apply (Hcur _ Ecur) |]. split.
        { apply (wf_le_1 val Hval). apply nth_error_In with (n := ix).
          apply times_nth; exact Ecur. }
        split.
        { left. simpl. exists cur. auto. }
        { exists val, (fst cur). split; [apply Hsub; left; reflexivity |].
          split; [| apply Qeq_refl].
          apply nth_error_In with (n := ix). apply times_nth; exact Ecur. }
      * destruct (Hin i' Hi') as (H1 & H2 & H3 & H4).
        repeat split; try assumption. right. exact H3.
Qed.

Lemma next_time_spec (i : Q) (vis : list Q) L indices totalpoints :
  L <> [] -> Forall well_formed L -> rows (after i vis) L indices totalpoints ->
  exists i',
    next_time L indices = Return i' /\ i < i' /\ i' <= 1 /\
    rows (before i' (vis ++ [i])) L indices totalpoints /\
    hits i' L indices /\ occurs L i'.
Proof.
  intros Hne Hwf H.
  destruct (next_times_spec i vis L L indices totalpoints Hwf (fun _ h => h) H)
    as (ts & E & Hlen & Hrows & Hin).
  assert (Hts : ts <> []).
  { intros ->. simpl in Hlen. destruct L; [congruence | discriminate]. }
  destruct (pymin_spec ts Hts) as (i' & Emin & Hi' & Hall).
  destruct (Hin i' Hi') as (H1 & H2 & H3 & H4).
  exists i'. unfold next_time. rewrite E. simpl.
  repeat split; try assumption. apply Hrows; assumption.
Qed.

Lemma hits_slack (i : Q) L indices : hits i L indices -> (1 <= slack L indices)%nat.
Proof.
  unfold hits, slack. intros H. apply Exists_exists in H.
  destruct H as (vi & Hin & s & Hs & _).
  assert (Hlt : (snd vi < length (fst vi))%nat) by (apply nth_error_Some; congruence).
  clear Hs. induction (combine L indices) as [| a l IH]; [inversion Hin |].
  simpl. destruct Hin as [-> | Hin]; [lia |]. specialize (IH Hin). lia.
Qed.

(** *** The loop *)

Lemma resample_loop_spec (L : list strand) :
  L <> [] -> Forall well_formed L ->
  forall fuel i vis indices totalpoints,
    rows (before i vis) L indices totalpoints -> hits i L indices ->
    visited L i vis -> i <= 1 ->
    (slack L indices <= fuel)%nat ->
    exists totalpoints' vis' indices',
      resample_loop fuel L i indices totalpoints = Return totalpoints' /\
      rows (before 1 vis') L indices' totalpoints' /\
      visited L 1 vis'.
Proof.
  intros Hne Hwf. induction fuel as [| fuel IH];
    intros i vis indices totalpoints Hrows Hhit Hvis Hle Hfuel.
  - pose proof (hits_slack _ _ _ Hhit). lia.
  - simpl. destruct (Qltb i 1) eqn:E.
    + apply Qltb_lt in E.
      destruct (for_strands_spec i vis L indices totalpoints Hwf Hrows E)
        as (indices' & totalpoints' & E1 & Hafter & _ & Hdec).
      specialize (Hdec Hhit). rewrite E1. simpl.
      destruct (next_time_spec i vis L indices' totalpoints' Hne Hwf Hafter)
        as (i' & E2 & Hlt & Hle' & Hbefore & Hhit' & Hocc).
      rewrite E2. simpl.
      apply (IH i' (vis ++ [i])); try assumption; [| lia].
      destruct Hvis as (Hs & Hall & Hoc).
      assert (Hi_occ : occurs L i).
      { apply Exists_exists in Hhit. destruct Hhit as (vi & Hin & s & Hs' & Heq).
        exists (fst vi), (fst s). split.
        - destruct vi as [v n]. apply in_combine_l in Hin. exact Hin.
        - split; [| rewrite Heq; apply Qeq_refl].
          apply nth_error_In with (n := snd vi). apply times_nth; exact Hs'. }
      split; [| split].
      * clear - Hs Hall. induction vis as [| v vis IHv]; simpl.
        { repeat constructor. }
        { apply StronglySorted_inv in Hs. destruct Hs as [Hs Hv].
          inversion Hall; subst. constructor; [apply IHv; assumption |].
          apply Forall_app; split; [exact Hv |]. repeat constructor. assumption. }
      * apply Forall_app; split.
        { eapply Forall_impl; [| exact Hall]. simpl. intros; lra. }
        { repeat constructor. exact Hlt. }
      * apply Forall_app; split; [exact Hoc |]. repeat constructor. exact Hi_occ.
    + apply Qltb_ge in E.
      assert (Heq : i == 1) by (apply Qle_antisym; assumption).
      exists totalpoints, vis, indices. split; [reflexivity |]. split.
      * eapply rows_impl; [| exact Hrows].
        intros val ix tp _ (H1 & H2 & H3 & H4 & H5 & H6).
        repeat split; try assumption.
        { intros s Hs. specialize (H3 s Hs). simpl in *. lra. }
        { intros s Hs. specialize (H4 s Hs). simpl in *. lra. }
        { intros t Ht Hlt. apply H6; [exact Ht | lra]. }
      * destruct Hvis as (Hs & Hall & Hoc). repeat split; try assumption.
        eapply Forall_impl; [| exact Hall]. simpl. intros; lra.
Qed.
End ResampleFacts.

(** ** The common partition *)
Module PartitionFacts.
Import ResampleInv ResampleFacts.

Lemma first_times_eq (L : list strand) :
  mapM (fun val => s <- index val 1 ;; Return (fst s)) L
  = mapM (fun vi => s <- index (fst vi) (snd vi) ;; Return (fst s))
         (combine L (map (fun _ => 1%nat) L)).
Proof. induction L as [| val L IH]; simpl; [reflexivity | rewrite IH; reflexivity]. Qed.

Lemma initial_rows (L : list strand) :
  Forall well_formed L ->
  exists totalpoints,
    mapM (fun a => s <- index a 0 ;; Return [pt (snd s)]) L = Return totalpoints /\
    rows (after 0 []) L (map (fun _ => 1%nat) L) totalpoints.
Proof.
  induction 1 as [| val L Hval HL (totalpoints & E & Hrows)]; simpl.
  - exists []; split; [reflexivity | constructor].
  - pose proof Hval as (Hlen & Hs & _).
    destruct (wf_nth val 0) as (s0 & E0); [lia |].
    destruct (wf_nth val 1) as (s1 & E1); [lia |].
    pose proof (wf_first val Hval _ E0) as H0.
    pose proof (sorted_nth_lt val Hs 0 1 _ _ ltac:(lia) E0 E1) as H01.
    exists ([pt (snd s0)] :: totalpoints).
    unfold index at 1. rewrite E0. simpl. rewrite E. simpl.
    split; [reflexivity |]. constructor; [| exact Hrows].
    repeat split; try lia.
    + intros s Hs'. change (1 - 1)%nat with 0%nat in Hs'. rewrite E0 in Hs'.
      inversion Hs'; subst. lra.
    + intros s Hs'. rewrite E1 in Hs'. inversion Hs'; subst. lra.
    + intros t Ht Hle. exists 0. split; [left; reflexivity |].
      destruct (in_times_nth _ _ Ht) as (n & s & Hn & <-).
      destruct n as [| n].
      * rewrite E0 in Hn. inversion Hn; subst. symmetry; exact H0.
      * pose proof (sorted_nth_le val Hs 1 (S n) _ _ ltac:(lia) E1 Hn). lra.
Qed.

Lemma slack_ones (L : list strand) :
  (slack L (map (fun _ => 1%nat) L) <= length (concat L))%nat.
Proof.
  unfold slack. induction L as [| val L IH]; simpl; [lia |].
  rewrite length_app. lia.
Qed.

Lemma rows_in (P : strand -> nat -> list point -> Prop) L indices totalpoints val :
  rows P L indices totalpoints -> In val L -> exists ix tp, P val ix tp.
Proof.
  induction 1 as [| v ix tp L indices totalpoints HP H IH]; intros Hin; [inversion Hin |].
  destruct Hin as [-> | Hin]; [exists ix, tp; exact HP | apply IH; exact Hin].
Qed.

Lemma final_rows (m : nat) (P : strand -> nat -> list point -> Prop) L indices totalpoints :
  (forall val ix tp, P val ix tp -> val <> [] /\ length tp = m) ->
  rows P L indices totalpoints ->
  exists final,
    mapM (fun vt => s <- index_last (fst vt) ;; Return (snd vt ++ [pt (snd s)]))
         (combine L totalpoints) = Return final /\
    length final = length L /\
    Forall (fun row => length row = S m) final.
Proof.
  intros HP. induction 1 as [| val ix tp L indices totalpoints Hv H (final & E & Hlen & Hall)].
  - exists []. repeat split; constructor.
  - destruct (HP _ _ _ Hv) as (Hne & Htp).
    destruct (exists_last Hne) as (val' & s & ->).
    exists ((tp ++ [pt (snd s)]) :: final). simpl.
    unfold index_last at 1. rewrite rev_app_distr. simpl. rewrite E. simpl.
    split; [reflexivity |]. split; [lia |].
    constructor; [rewrite length_app; simpl; lia | exact Hall].
Qed.

Lemma sorted_snoc (vis : list Q) (i : Q) :
  StronglySorted Qlt vis -> Forall (fun t => t < i) vis -> StronglySorted Qlt (vis ++ [i]).
Proof.
  intros Hs Hall. induction vis as [| v vis IH]; simpl; [repeat constructor |].
  apply StronglySorted_inv in Hs. destruct Hs as [Hs Hv].
  inversion Hall; subst. constructor; [apply IH; assumption |].
  apply Forall_app; split; [exact Hv |]. repeat constructor. assumption.
Qed.

Lemma resample_loop_mono (fuel : nat) :
  forall L i indices totalpoints r,
    resample_loop fuel L i indices totalpoints = Return r ->
    forall fuel', (fuel <= fuel')%nat ->
                  resample_loop fuel' L i indices totalpoints = Return r.
Proof.
  induction fuel as [| fuel IH]; intros L i indices totalpoints r H fuel' Hle.
  - simpl in H. destruct (Qltb i 1) eqn:E; [discriminate |].
    destruct fuel'; simpl; rewrite E; exact H.
  - destruct fuel' as [| fuel']; [lia |]. simpl in *.
    destruct (Qltb i 1); [| exact H].
    destruct (for_strands i L indices totalpoints) as [st | |]; simpl in *; try discriminate.
    destruct (next_time L (fst st)) as [i' | |]; simpl in *; try discriminate.
    apply (IH _ _ _ _ _ H). lia.
Qed.

(** The first half of the function on well-formed strands. *)
Lemma resample_spec (L : list strand) :
  L <> [] -> Forall well_formed L ->
  exists totalpoints partition,
    (forall fuel, (length (concat L) <= fuel)%nat -> resample fuel L = Return totalpoints) /\
    common_partition L partition /\
    length totalpoints = length L /\
    Forall (fun row => length row = length partition) totalpoints.
Proof.
  intros Hne Hwf.
  destruct (initial_rows L Hwf) as (tps0 & E0 & Hrows0).
  destruct (next_time_spec 0 [] L _ _ Hne Hwf Hrows0)
    as (i & Ei & Hi0 & Hi1 & Hbefore & Hhit & Hocc).
  assert (Hfirst : exists val, In val L) by (destruct L as [| v L]; [congruence | exists v; left; reflexivity]).
  destruct Hfirst as (v & Hv).
  assert (Hv_wf : well_formed v) by (rewrite Forall_forall in Hwf; apply Hwf; exact Hv).
  assert (Hvis : visited L i ([] ++ [0])).
  { simpl. split; [repeat constructor |]. split; [repeat constructor; exact Hi0 |].
    repeat constructor.
    destruct (wf_nth v 0) as (s0 & Es0); [destruct Hv_wf; lia |].
    exists v, (fst s0). split; [exact Hv |]. split.
    - apply nth_error_In with (n := 0%nat). apply times_nth; exact Es0.
    - apply (wf_first v Hv_wf _ Es0). }
  pose proof (slack_ones L) as Hslack.
  assert (Hloop : exists totalpoints' vis' indices',
             (forall fuel, (length (concat L) <= fuel)%nat ->
                resample_loop fuel L i (map (fun _ => 1%nat) L) tps0 = Return totalpoints') /\
             rows (before 1 vis') L indices' totalpoints' /\ visited L 1 vis').
  { destruct (resample_loop_spec L Hne Hwf (length (concat L)) i _ _ _ Hbefore Hhit Hvis Hi1 Hslack)
      as (tps' & vis' & ix' & E' & Hr & Hvis').
    exists tps', vis', ix'. split; [| split; assumption].
    intros fuel Hfuel. apply (resample_loop_mono _ _ _ _ _ _ E' _ Hfuel). }
  destruct Hloop as (tps' & vis' & ix' & Eloop & Hrows & Hs & Hall & Hoc).
  destruct (final_rows (length vis') (before 1 vis') L ix' tps') as (final & Ef & Hlen & Hfin);
    [| exact Hrows |].
  { intros val ix tp (H1 & H2 & _ & _ & H5 & _). split; [| exact H5].
    intros ->; simpl in H2; lia. }
  exists final, (vis' ++ [1]). split; [| split; [| split]].
  - intros fuel Hfuel. unfold resample.
    rewrite first_times_eq.
    unfold next_time in Ei. apply bind_Return_inv in Ei. destruct Ei as (ts & Ets & Emin).
    rewrite Ets. simpl. rewrite Emin. simpl. rewrite E0. simpl. rewrite (Eloop fuel Hfuel). simpl. exact Ef.
  - split; [apply sorted_snoc; assumption |]. split.
    + apply Forall_app; split; [exact Hoc |]. repeat constructor.
      destruct (wf_nth v (length v - 1)) as (s1 & Es1); [destruct Hv_wf; lia |].
      exists v, (fst s1). split; [exact Hv |]. split.
      * apply nth_error_In with (n := (length v - 1)%nat). apply times_nth; exact Es1.
      * apply (wf_last v Hv_wf _ Es1).
    + intros val t Hval Ht.
      assert (Hval_wf : well_formed val) by (rewrite Forall_forall in Hwf; apply Hwf; exact Hval).
      pose proof (wf_le_1 val Hval_wf t Ht) as Hle.
      destruct (Qlt_le_dec t 1) as [Hlt | Hge].
      * destruct (rows_in _ _ _ _ val Hrows Hval) as (ix & tp & Hb).
        destruct Hb as (_ & _ & _ & _ & _ & Hcov).
        destruct (Hcov t Ht Hlt) as (t' & Hin & Heq).
        exists t'. split; [apply in_or_app; left; exact Hin | exact Heq].
      * exists 1. split; [apply in_or_app; right; left; reflexivity |].
        apply Qle_antisym; assumption.
  - exact Hlen.
  - rewrite length_app. simpl. replace (length vis' + 1)%nat with (S (length vis')) by lia.
    exact Hfin.
Qed.
End PartitionFacts.

(** ** The crossing stage of braid_from_piecewise *)
Module CrossingFacts.

Lemma in_bounds_Return (A : Type) (a : A) : in_bounds (Return a).
Proof. left; exists a; reflexivity. Qed.

Lemma in_bounds_bind (A B : Type) (m : outcome A) (k : A -> outcome B) :
  in_bounds m -> (forall a, m = Return a -> in_bounds (k a)) -> in_bounds (bind m k).
Proof.
  intros [(a & ->) | ->] Hk; simpl; [apply Hk; reflexivity | right; reflexivity].
Qed.

Lemma mapM_in_bounds (A B : Type) (f : A -> outcome B) (l : list A) :
  (forall a, In a l -> in_bounds (f a)) -> in_bounds (mapM f l).
Proof.
  induction l as [| a l IH]; simpl; intros H; [apply in_bounds_Return |].
  apply in_bounds_bind; [apply H; left; reflexivity |].
  intros b _. apply in_bounds_bind; [apply IH; intros; apply H; right; assumption |].
  intros bs _. apply in_bounds_Return.
Qed.

Lemma index_in_bounds (A : Type) (l : list A) (n : nat) :
  (n < length l)%nat -> in_bounds (index l n).
Proof. intros H. left. apply index_lt; exact H. Qed.

Lemma crossing_in_bounds (l1 l2 : list point) (j k : nat) :
  length l1 = length l2 -> (j < length l2)%nat -> (k < length l2)%nat ->
  in_bounds (crossing l1 l2 j k).
Proof.
  intros Hlen Hj Hk. unfold crossing.
  apply in_bounds_bind; [apply index_in_bounds; exact Hj | intros l2j _].
  apply in_bounds_bind; [apply index_in_bounds; exact Hk | intros l2k _].
  destruct (ltb_of point_compare l2j l2k); [| apply in_bounds_Return].
  apply in_bounds_bind; [apply index_in_bounds; lia | intros l1j _].
  apply in_bounds_bind; [apply index_in_bounds; lia | intros l1k _].
  destruct (Qeqb _ 0); [right; reflexivity | apply in_bounds_Return].
Qed.

Lemma find_cruces_in_bounds (l1 l2 : list point) :
  length l1 = length l2 -> in_bounds (find_cruces l1 l2).
Proof.
  intros Hlen. unfold find_cruces.
  apply in_bounds_bind; [| intros; apply in_bounds_Return].
  apply mapM_in_bounds. intros j Hj. apply in_seq in Hj.
  apply in_bounds_bind; [| intros; apply in_bounds_Return].
  apply mapM_in_bounds. intros k Hk. apply in_seq in Hk.
  apply crossing_in_bounds; [exact Hlen | lia | lia].
Qed.

Lemma column_in_bounds (totalpoints : list (list point)) (n m i : nat) :
  length totalpoints = n -> Forall (fun row => length row = m) totalpoints ->
  (i < m)%nat ->
  in_bounds (mapM (fun j => row <- index totalpoints j ;; index row i) (seq 0 n)).
Proof.
  intros Hn Hrows Hi. apply mapM_in_bounds. intros j Hj. apply in_seq in Hj.
  destruct (index_lt _ totalpoints j ltac:(lia)) as (row & Erow).
  rewrite Erow. simpl. apply index_in_bounds.
  rewrite Forall_forall in Hrows. rewrite (Hrows row); [exact Hi |].
  apply index_Return in Erow. apply nth_error_In in Erow. exact Erow.
Qed.

Lemma interval_in_bounds (totalpoints : list (list point)) (n m i : nat) (braid : list Z) :
  length totalpoints = n -> Forall (fun row => length row = m) totalpoints ->
  (S i < m)%nat ->
  in_bounds (interval totalpoints n braid i).
Proof.
  intros Hn Hrows Hi. unfold interval.
  apply in_bounds_bind; [apply (column_in_bounds _ n m); [assumption | assumption | lia] |].
  intros l1 _.
  apply in_bounds_bind; [apply (column_in_bounds _ n m); [assumption | assumption | lia] |].
  intros l2 _.
  apply in_bounds_bind; [| intros; apply in_bounds_Return].
  apply find_cruces_in_bounds. rewrite !length_map. reflexivity.
Qed.

Lemma intervals_in_bounds (totalpoints : list (list point)) (n m : nat) (ivals : list nat) :
  length totalpoints = n -> Forall (fun row => length row = m) totalpoints ->
  Forall (fun i => S i < m)%nat ivals ->
  forall braid, in_bounds (intervals totalpoints n braid ivals).
Proof.
  intros Hn Hrows. induction 1 as [| i ivals Hi _ IH]; intros braid; simpl.
  - apply in_bounds_Return.
  - apply in_bounds_bind; [apply (interval_in_bounds _ n m); assumption |].
    intros braid' _. apply IH.
Qed.

(** C10. For a nonempty list of strands, each with at least two samples
    whose times increase strictly from 0 to 1, the resampling loop
    ends (any fuel not below the number of samples is enough, and the
    outcome does not depend on it); the rows of [totalpoints] are one
    for each strand and all have as many points as the common
    partition, the increasing list of all the times of all the strands;
    hence no later index [totalpoints[j][i]], [l1[j]], [l2[k]] is out
    of range: the call returns a word, unless a crossing time divides by
    zero. *)
Theorem resample_common_partition (L : list strand) :
  L <> [] -> Forall well_formed L ->
  exists totalpoints partition,
    (forall fuel, (length (concat L) <= fuel)%nat -> resample fuel L = Return totalpoints) /\
    common_partition L partition /\
    length totalpoints = length L /\
    Forall (fun row => length row = length partition) totalpoints /\
    (forall fuel, (length (concat L) <= fuel)%nat ->
                  in_bounds (braid_from_piecewise fuel L)).
Proof.
  intros Hne Hwf.
  destruct (PartitionFacts.resample_spec L Hne Hwf)
    as (totalpoints & partition & Hres & Hpart & Hlen & Hrows).
  exists totalpoints, partition. repeat split; try assumption; try apply Hpart.
  intros fuel Hfuel. unfold braid_from_piecewise. rewrite (Hres fuel Hfuel). simpl.
  apply in_bounds_bind.
  - apply index_in_bounds. rewrite Hlen. destruct L; [congruence | simpl; lia].
  - intros row0 Hrow0.
    apply (intervals_in_bounds _ _ (length partition)); [exact Hlen | exact Hrows |].
    assert (Hr : length row0 = length partition).
    { rewrite Forall_forall in Hrows. apply Hrows.
      apply index_Return in Hrow0. apply nth_error_In in Hrow0. exact Hrow0. }
    apply Forall_forall. intros i Hi. apply in_seq in Hi. lia.
Qed.
End CrossingFacts.

(** ** The order of the crossings *)
Module OrderFacts.
Import Trace.

Lemma run_app (order1 order2 : list cruce) :
  forall P, run P (order1 ++ order2) = run P order1 ++ run (final_perm P order1) order2.
Proof.
  induction order1 as [| c order1 IH]; intros P; simpl; [reflexivity |].
  rewrite IH. reflexivity.
Qed.

Lemma final_perm_app (order1 order2 : list cruce) (P : Perm.perm) :
  final_perm P (order1 ++ order2) = final_perm (final_perm P order1) order2.
Proof. unfold final_perm. apply fold_left_app. Qed.

Lemma to_cross_letter (P : Perm.perm) (c : cruce) : letter P (to_cross P c) = step_letter P c.
Proof. destruct c as [[[t k] j] s]. reflexivity. Qed.

Lemma regap_to_cross (P P' : Perm.perm) (c : cruce) : regap P' (to_cross P c) = to_cross P' c.
Proof. destruct c as [[[t k] j] s]. reflexivity. Qed.

Lemma to_cross_gap (P : Perm.perm) (c : cruce) : cross_gap (to_cross P c) = cruce_gap P c.
Proof. destruct c as [[[t k] j] s]. reflexivity. Qed.

Lemma cross_compare_le (a b : Z * nat * nat * Z) :
  cross_compare a b <> Gt -> (cross_gap a <= cross_gap b)%Z.
Proof.
  destruct a as [[[g1 k1] j1] s1], b as [[[g2 k2] j2] s2]. simpl.
  destruct (Z.compare_spec g1 g2); simpl; intros Hc; try lia; congruence.
Qed.

Lemma cross_compare_gt (a b : Z * nat * nat * Z) :
  cross_compare a b = Gt -> (cross_gap b <= cross_gap a)%Z.
Proof.
  destruct a as [[[g1 k1] j1] s1], b as [[[g2 k2] j2] s2]. simpl.
  destruct (Z.compare_spec g1 g2); simpl; intros Hc; try lia; congruence.
Qed.

(** The inner loop: the tied crossings leave by least gap. *)
Lemma tied_loop_spec (n : nat) :
  forall P cs braid, (length cs <= n)%nat ->
  exists order,
    Permutation order cs /\ least_gap_tied P order /\
    tied_loop n P (map (to_cross P) cs) braid = (final_perm P order, braid ++ run P order).
Proof.
  induction n as [| n IH]; intros P cs braid Hlen.
  - destruct cs; [| simpl in Hlen; lia].
    exists []. simpl. rewrite app_nil_r. repeat split. constructor.
  - simpl. destruct (sort cross_compare (map (to_cross P) cs)) as [| c rest] eqn:E.
    + apply sort_nil_inv in E. apply map_eq_nil in E. subst cs.
      exists []. simpl. rewrite app_nil_r. repeat split. constructor.
    + pose proof (sort_perm _ cross_compare (map (to_cross P) cs)) as Hperm.
      rewrite E in Hperm.
      destruct (Permutation_map_inv _ _ Hperm) as (cs' & Ecs' & Hperm').
      destruct cs' as [| c0 rest0]; [discriminate |].
      simpl in Ecs'. inversion Ecs' as [[Ec Erest]].
      assert (Hlen0 : (length rest0 <= n)%nat).
      { apply Permutation_length in Hperm'. simpl in Hperm'. lia. }
      destruct (IH (step_perm P c0) rest0 (braid ++ [step_letter P c0]) Hlen0)
        as (order0 & Hp0 & Hg0 & E0).
      exists (c0 :: order0). split; [| split].
      * eapply perm_trans; [apply perm_skip; exact Hp0 | apply Permutation_sym; exact Hperm'].
      * simpl. split; [| exact Hg0].
        intros c' Hc'. rewrite <- !to_cross_gap.
        assert (Hleast : Forall (fun b => (cross_gap c <= cross_gap b)%Z) rest).
        { apply (sort_head_least _ cross_compare (fun a b => (cross_gap a <= cross_gap b)%Z)
                                 cross_compare_le cross_compare_gt) with (l := map (to_cross P) cs).
          - intros x y z; apply Z.le_trans.
          - exact E. }
        rewrite Forall_forall in Hleast. rewrite <- Ec. apply Hleast.
        rewrite Erest. apply in_map. apply (Permutation_in _ Hp0). exact Hc'.
      * subst c rest. destruct c0 as [[[t k] j] s]. simpl. rewrite map_map.
        rewrite (map_ext _ (to_cross (step_perm P (t, k, j, s))))
          by (intros x; apply regap_to_cross).
        simpl in E0. unfold step_perm at 1. rewrite E0.
        rewrite <- app_assoc. reflexivity.
Qed.

Lemma same_time_time (t0 : Q) (c : cruce) : same_time t0 c = Qeqb (time c) t0.
Proof. destruct c as [[[t k] j] s]. reflexivity. Qed.

Lemma filter_none (A : Type) (f : A -> bool) (l : list A) :
  Forall (fun a => f a = false) l -> filter f l = [].
Proof. induction 1 as [| a l Ha _ IH]; simpl; [| rewrite Ha]; auto. Qed.

(** In a list sorted by time, the crossings at the first time are a
    prefix. *)
Lemma tied_prefix (t0 : Q) (cs : list cruce) :
  StronglySorted le_time cs -> Forall (fun c => t0 <= time c) cs ->
  cs = filter (same_time t0) cs ++ skipn (length (filter (same_time t0) cs)) cs /\
  Forall (fun c => time c == t0) (filter (same_time t0) cs) /\
  Forall (fun c => t0 < time c) (skipn (length (filter (same_time t0) cs)) cs) /\
  StronglySorted le_time (skipn (length (filter (same_time t0) cs)) cs).
Proof.
  induction cs as [| c cs IH]; intros Hs Hall.
  - simpl. repeat split; constructor.
  - apply StronglySorted_inv in Hs. destruct Hs as [Hs Hc].
    inversion Hall as [| ? ? Hc0 Hall']; subst.
    simpl. rewrite same_time_time. destruct (Qeqb (time c) t0) eqn:E.
    + apply Qeqb_eq in E. destruct (IH Hs Hall') as (Heq & Hpre & Hpost & Hsorted).
      simpl. split; [f_equal; exact Heq |]. split; [constructor; assumption |].
      split; assumption.
    + apply Qeqb_neq in E.
      assert (Hlt : t0 < time c).
      { destruct (Qlt_le_dec t0 (time c)) as [Hlt | Hge]; [exact Hlt |].
        exfalso. apply E. apply Qle_antisym; assumption. }
      assert (Hlater : Forall (fun c' => t0 < time c') cs).
      { eapply Forall_impl; [| exact Hc]. unfold le_time. intros c' Hc'. lra. }
      rewrite filter_none.
      * simpl. split; [reflexivity |]. split; [constructor |].
        split; [constructor; assumption |]. constructor; assumption.
      * eapply Forall_impl; [| exact Hlater]. intros c' Hc'.
        rewrite same_time_time. apply Qeqb_neq. intros Heq. simpl in Hc'. lra.
Qed.

Lemma sorted_tied_then_later (t0 : Q) (order1 order2 : list cruce) :
  Forall (fun c => time c == t0) order1 ->
  Forall (fun c => t0 < time c) order2 ->
  StronglySorted le_time order2 ->
  StronglySorted le_time (order1 ++ order2).
Proof.
  intros H1 H2 Hs. induction H1 as [| c order1 Hc H1 IH]; simpl; [exact Hs |].
  constructor; [exact IH |]. apply Forall_app; split.
  - eapply Forall_impl; [| exact H1]. unfold le_time. intros c' Hc'.
    simpl in Hc'. lra.
  - eapply Forall_impl; [| exact H2]. unfold le_time. intros c' Hc'.
    simpl in Hc'. lra.
Qed.

Lemma least_gap_app (order1 order2 : list cruce) :
  forall P, least_gap_tied P order1 ->
  (forall c1 c2, In c1 order1 -> In c2 order2 -> ~ time c2 == time c1) ->
  least_gap_first (final_perm P order1) order2 ->
  least_gap_first P (order1 ++ order2).
Proof.
  induction order1 as [| c order1 IH]; intros P Htied Hsep H2; simpl; [exact H2 |].
  destruct Htied as [Hc Htied]. split.
  - intros c' Hc' Ht. apply in_app_or in Hc'. destruct Hc' as [Hc' | Hc'].
    + apply Hc; exact Hc'.
    + exfalso. apply (Hsep c c'); [left; reflexivity | exact Hc' | exact Ht].
  - apply IH; [exact Htied | | exact H2].
    intros c1 c2 H1 H2'. apply Hsep; [right; exact H1 | exact H2'].
Qed.

(** The outer loop on a list sorted by time. *)
Lemma cruces_loop_spec (n : nat) :
  forall P cs braid, (length cs <= n)%nat -> StronglySorted le_time cs ->
  exists order,
    Permutation order cs /\ StronglySorted le_time order /\
    least_gap_first P order /\
    cruces_loop n P cs braid = braid ++ run P order.
Proof.
  induction n as [| n IH]; intros P cs braid Hlen Hs.
  - destruct cs; [| simpl in Hlen; lia].
    exists []. simpl. rewrite app_nil_r. repeat split; constructor.
  - destruct cs as [| c0 cs0].
    { exists []. simpl. rewrite app_nil_r. repeat split; constructor. }
    set (cs := c0 :: cs0) in *.
    assert (Hall : Forall (fun c => time c0 <= time c) cs).
    { apply StronglySorted_inv in Hs. destruct Hs as [_ Hc].
      constructor; [apply Qle_refl | exact Hc]. }
    destruct (tied_prefix (time c0) cs Hs Hall) as (Hsplit & Hpre & Hpost & Hsorted).
    set (pre := filter (same_time (time c0)) cs) in *.
    set (post := skipn (length pre) cs) in *.
    assert (Hpre_len : (1 <= length pre)%nat).
    { subst pre cs. simpl. rewrite same_time_time.
      rewrite (proj2 (Qeqb_eq _ _) (Qeq_refl _)). simpl. lia. }
    destruct (tied_loop_spec (length pre) P pre braid (le_n _)) as (order1 & Hp1 & Hg1 & E1).
    assert (Hpost_len : (length post <= n)%nat).
    { assert (Hl : length cs = (length pre + length post)%nat)
        by (rewrite Hsplit at 1; apply length_app).
      lia. }
    destruct (IH (final_perm P order1) post (braid ++ run P order1) Hpost_len Hsorted)
      as (order2 & Hp2 & Hs2 & Hg2 & E2).
    exists (order1 ++ order2). split; [| split; [| split]].
    + rewrite Hsplit. apply Permutation_app; assumption.
    + apply (sorted_tied_then_later (time c0)).
      * apply (Permutation_Forall (Permutation_sym Hp1)). exact Hpre.
      * apply (Permutation_Forall (Permutation_sym Hp2)). exact Hpost.
      * exact Hs2.
    + apply least_gap_app; [exact Hg1 | | exact Hg2].
      intros c1 c2 H1 H2 Heq.
      assert (H1' : time c1 == time c0).
      { rewrite Forall_forall in Hpre. apply Hpre. apply (Permutation_in _ Hp1). exact H1. }
      assert (H2' : time c0 < time c2).
      { rewrite Forall_forall in Hpost. apply Hpost. apply (Permutation_in _ Hp2). exact H2. }
      lra.
    + rewrite run_app, app_assoc, <- E2.
      subst cs. cbn [cruces_loop]. destruct c0 as [[[t0 k0] j0] s0].
      change (filter (same_time t0) ((t0, k0, j0, s0) :: cs0)) with pre.
      rewrite length_map. rewrite E1. reflexivity.
Qed.
End OrderFacts.

(** ** The word of braid_from_piecewise *)
Module WordFacts.
Import Trace OrderFacts.

Lemma cruce_compare_le (a b : cruce) : cruce_compare a b <> Gt -> le_time a b.
Proof.
  destruct a as [[[t1 k1] j1] s1], b as [[[t2 k2] j2] s2]. unfold le_time. simpl.
  destruct (t1 ?= t2) eqn:E; simpl; intros H.
  - apply Qeq_alt in E. lra.
  - apply Qlt_alt in E. lra.
  - congruence.
Qed.

Lemma cruce_compare_gt (a b : cruce) : cruce_compare a b = Gt -> le_time b a.
Proof.
  destruct a as [[[t1 k1] j1] s1], b as [[[t2 k2] j2] s2]. unfold le_time. simpl.
  destruct (t1 ?= t2) eqn:E; simpl; intros H.
  - apply Qeq_alt in E. lra.
  - congruence.
  - apply Qgt_alt in E. lra.
Qed.

Lemma le_time_trans (a b c : cruce) : le_time a b -> le_time b c -> le_time a c.
Proof. unfold le_time. intros; lra. Qed.

(** One interval: the detected crossings are taken in the order of
    their times and, at equal times, by least gap. *)
Lemma interval_order totalpoints n braid i braid' :
  interval totalpoints n braid i = Return braid' ->
  exists l1 l2 cruces order,
    mapM (fun j => row <- index totalpoints j ;; index row i) (seq 0 n) = Return l1 /\
    mapM (fun j => row <- index totalpoints j ;; index row (i + 1)) (seq 0 n) = Return l2 /\
    find_cruces (fst (sorted_columns l1 l2)) (snd (sorted_columns l1 l2)) = Return cruces /\
    Permutation order cruces /\
    StronglySorted le_time order /\
    least_gap_first Perm.one order /\
    braid' = braid ++ run Perm.one order.
Proof.
  unfold interval. intros H.
  apply bind_Return_inv in H. destruct H as (l1 & E1 & H).
  apply bind_Return_inv in H. destruct H as (l2 & E2 & H).
  apply bind_Return_inv in H. destruct H as (cruces & E3 & H).
  inversion H as [Hb]. clear H.
  destruct (cruces_loop_spec (length cruces) Perm.one (sort cruce_compare cruces) braid)
    as (order & Hp & Hs & Hg & E).
  - rewrite sort_length. apply le_n.
  - apply (sort_strongly_sorted _ cruce_compare le_time cruce_compare_le cruce_compare_gt
                                le_time_trans).
  - exists l1, l2, cruces, order. repeat split; try assumption.
    eapply perm_trans; [exact Hp | apply sort_perm].
Qed.

(** The outcome does not depend on the fuel. *)
Lemma resample_fuel (fuel1 fuel2 : nat) (L : list strand) tp1 tp2 :
  resample fuel1 L = Return tp1 -> resample fuel2 L = Return tp2 -> tp1 = tp2.
Proof.
  unfold resample. intros H1 H2.
  apply bind_Return_inv in H1. destruct H1 as (ts & Ets & H1). rewrite Ets in H2. simpl in H2.
  apply bind_Return_inv in H1. destruct H1 as (i & Ei & H1). rewrite Ei in H2. simpl in H2.
  apply bind_Return_inv in H1. destruct H1 as (tps & Etps & H1). rewrite Etps in H2. simpl in H2.
  apply bind_Return_inv in H1. destruct H1 as (r1 & Er1 & H1).
  apply bind_Return_inv in H2. destruct H2 as (r2 & Er2 & H2).
  assert (Hr : r1 = r2).
  { pose proof (PartitionFacts.resample_loop_mono _ _ _ _ _ _ Er1 (Nat.max fuel1 fuel2)
                                                   (Nat.le_max_l _ _)) as M1.
    pose proof (PartitionFacts.resample_loop_mono _ _ _ _ _ _ Er2 (Nat.max fuel1 fuel2)
                                                   (Nat.le_max_r _ _)) as M2.
    congruence. }
  subst r2. congruence.
Qed.

Lemma braid_from_piecewise_fuel (fuel1 fuel2 : nat) (strands : list strand) w1 w2 :
  braid_from_piecewise fuel1 strands = Return w1 ->
  braid_from_piecewise fuel2 strands = Return w2 -> w1 = w2.
Proof.
  unfold braid_from_piecewise. intros H1 H2.
  apply bind_Return_inv in H1. destruct H1 as (tp1 & E1 & H1).
  apply bind_Return_inv in H2. destruct H2 as (tp2 & E2 & H2).
  rewrite (resample_fuel _ _ _ _ _ E1 E2) in H1. congruence.
Qed.

(** C3. In every interval of the common partition the detected
    crossings are turned into letters in non-decreasing order of their
    crossing times; among the remaining crossings of the same time the
    one taken has the least index gap [P(j+1) - P(k+1)] under the running
    permutation [P]; its letter is its sign times the smaller of the two
    current positions, and [P] goes on composed with the transposition
    of the pair.  The word is a function of the strands: two
    extractions give the same word, whatever fuel they are given. *)
Theorem crossings_in_time_order :
  (forall totalpoints n braid i braid',
      interval totalpoints n braid i = Return braid' ->
      exists l1 l2 cruces order,
        mapM (fun j => row <- index totalpoints j ;; index row i) (seq 0 n) = Return l1 /\
        mapM (fun j => row <- index totalpoints j ;; index row (i + 1)) (seq 0 n)
        = Return l2 /\
        find_cruces (fst (sorted_columns l1 l2)) (snd (sorted_columns l1 l2))
        = Return cruces /\
        Permutation order cruces /\
        StronglySorted le_time order /\
        least_gap_first Perm.one order /\
        braid' = braid ++ run Perm.one order) /\
  (forall fuel1 fuel2 strands w1 w2,
      braid_from_piecewise fuel1 strands = Return w1 ->
      braid_from_piecewise fuel2 strands = Return w2 -> w1 = w2).
Proof.
  split.
  - intros totalpoints n braid i braid' H. unfold interval in H.
    apply bind_Return_inv in H. destruct H as (l1 & E1 & H).
    apply bind_Return_inv in H. destruct H as (l2 & E2 & H).
    apply bind_Return_inv in H. destruct H as (cruces & E3 & H).
    inversion H as [Hb]. clear H.
    assert (Hsorted : StronglySorted le_time (sort cruce_compare cruces)).
    { apply (sort_strongly_sorted _ cruce_compare le_time cruce_compare_le cruce_compare_gt
                                  le_time_trans). }
    assert (Hlen : (length (sort cruce_compare cruces) <= length cruces)%nat)
      by (rewrite sort_length; apply le_n).
    destruct (cruces_loop_spec (length cruces) Perm.one (sort cruce_compare cruces) braid
                               Hlen Hsorted) as (order & Hp & Hs & Hg & E).
    exists l1, l2, cruces, order. repeat split; try assumption.
    eapply perm_trans; [exact Hp | apply sort_perm].
  - intros fuel1 fuel2 strands w1 w2 H1 H2. unfold braid_from_piecewise in H1, H2.
    apply bind_Return_inv in H1. destruct H1 as (tp1 & E1 & H1).
    apply bind_Return_inv in H2. destruct H2 as (tp2 & E2 & H2).
    rewrite (resample_fuel _ _ _ _ _ E1 E2) in H1. congruence.
Qed.
End WordFacts.

(** ** The letters of the word *)
Module LetterFacts.
Import Trace OrderFacts WordFacts.

Lemma sgn_cases (x y : Q) : (sgn x y = 1 \/ sgn x y = -1 \/ sgn x y = 0)%Z.
Proof. unfold sgn. destruct (Qltb x y); [| destruct (Qltb y x)]; auto. Qed.

(** The sign is zero exactly when the two numbers are equal. *)
Lemma sgn_zero (x y : Q) : sgn x y = 0%Z <-> x == y.
Proof.
  unfold sgn. destruct (Qltb x y) eqn:E1.
  - apply Qltb_lt in E1. split; [discriminate | intros; lra].
  - destruct (Qltb y x) eqn:E2.
    + apply Qltb_lt in E2. split; [discriminate | intros; lra].
    + apply Qltb_ge in E1. apply Qltb_ge in E2. split; [intros; lra | reflexivity].
Qed.

Lemma crossing_shaped (l1 l2 : list point) (j k : nat) cs :
  (k < j < length l2)%nat -> crossing l1 l2 j k = Return cs ->
  Forall (shaped (length l2)) cs.
Proof.
  intros Hkj. unfold crossing. intros H.
  apply bind_Return_inv in H. destruct H as (l2j & _ & H).
  apply bind_Return_inv in H. destruct H as (l2k & _ & H).
  destruct (ltb_of point_compare l2j l2k); [| inversion H; constructor].
  apply bind_Return_inv in H. destruct H as (l1j & _ & H).
  apply bind_Return_inv in H. destruct H as (l1k & _ & H).
  destruct (Qeqb _ 0); [discriminate |].
  inversion H. constructor; [| constructor].
  unfold shaped. split; [lia | apply sgn_cases].
Qed.

Lemma mapM_concat_Forall (A B : Type) (P : B -> Prop) (f : A -> outcome (list B))
      (l : list A) (rows : list (list B)) :
  (forall a bs, In a l -> f a = Return bs -> Forall P bs) ->
  mapM f l = Return rows -> Forall P (concat rows).
Proof.
  revert rows. induction l as [| a l IH]; simpl; intros rows Hf H.
  - inversion H. constructor.
  - apply bind_Return_inv in H. destruct H as (bs & Ebs & H).
    apply bind_Return_inv in H. destruct H as (rest & Erest & H).
    inversion H; subst. simpl. apply Forall_app; split.
    + apply (Hf a); [left; reflexivity | exact Ebs].
    + apply IH; [| exact Erest]. intros a' bs' Hin; apply Hf; right; exact Hin.
Qed.

Lemma find_cruces_shaped (l1 l2 : list point) cruces :
  find_cruces l1 l2 = Return cruces -> Forall (shaped (length l2)) cruces.
Proof.
  unfold find_cruces. intros H.
  apply bind_Return_inv in H. destruct H as (rows & E & H). inversion H; subst.
  apply (mapM_concat_Forall _ _ _ _ _ _) with (2 := E).
  intros j cs Hj Hcs. apply in_seq in Hj.
  apply bind_Return_inv in Hcs. destruct Hcs as (rows' & E' & Hcs). inversion Hcs; subst.
  apply (mapM_concat_Forall _ _ _ _ _ _) with (2 := E').
  intros k cs' Hk Hcs'. apply in_seq in Hk.
  apply (crossing_shaped l1 l2 j k); [lia | exact Hcs'].
Qed.

Lemma permutes_one (n : nat) : permutes n Perm.one.
Proof. split; unfold Perm.one; auto. Qed.

Lemma permutes_step (n : nat) (P : Perm.perm) (c : cruce) :
  permutes n P -> shaped n c -> permutes n (step_perm P c).
Proof.
  destruct c as [[[t k] j] s]. intros [Hran Hinj] [Hkj _].
  unfold step_perm, Perm.mul, Perm.transposition. split.
  - intros x Hx. apply Hran.
    destruct (Nat.eqb_spec x (k + 1)); [lia |].
    destruct (Nat.eqb_spec x (j + 1)); lia.
  - intros x y Hx Hy Heq. apply Hinj in Heq.
    + destruct (Nat.eqb_spec x (k + 1)); destruct (Nat.eqb_spec y (k + 1));
        destruct (Nat.eqb_spec x (j + 1)); destruct (Nat.eqb_spec y (j + 1)); lia.
    + destruct (Nat.eqb_spec x (k + 1)); [lia |].
      destruct (Nat.eqb_spec x (j + 1)); lia.
    + destruct (Nat.eqb_spec y (k + 1)); [lia |].
      destruct (Nat.eqb_spec y (j + 1)); lia.
Qed.

(** The position of a letter is in [1..n-1]; the letter is zero
    exactly when the sign of the crossing is. *)
Lemma step_letter_bound (n : nat) (P : Perm.perm) (c : cruce) :
  permutes n P -> shaped n c ->
  letter_or_zero n (step_letter P c) /\
  (step_letter P c = 0%Z <-> snd c = 0%Z).
Proof.
  destruct c as [[[t k] j] s]. intros [Hran Hinj] [Hkj Hs].
  unfold letter_or_zero, step_letter. simpl snd.
  pose proof (Hran (k + 1)%nat ltac:(lia)) as Hk.
  pose proof (Hran (j + 1)%nat ltac:(lia)) as Hj.
  assert (Hne : P (k + 1)%nat <> P (j + 1)%nat).
  { intros Heq. apply Hinj in Heq; lia. }
  destruct Hs as [-> | [-> | ->]]; split; try lia.
Qed.

Lemma run_letters (n : nat) (order : list cruce) :
  forall P, permutes n P -> Forall (shaped n) order ->
            Forall (letter_or_zero n) (run P order).
Proof.
  induction order as [| c order IH]; intros P HP Hall; simpl; [constructor |].
  inversion Hall; subst. constructor.
  - apply (step_letter_bound n P c); assumption.
  - apply IH; [apply permutes_step |]; assumption.
Qed.

Lemma interval_letters (totalpoints : list (list point)) (n i : nat) braid braid' :
  Forall (letter_or_zero n) braid ->
  interval totalpoints n braid i = Return braid' ->
  Forall (letter_or_zero n) braid'.
Proof.
  intros Hb H.
  destruct (interval_order _ _ _ _ _ H)
    as (l1 & l2 & cruces & order & E1 & E2 & E3 & Hp & _ & _ & ->).
  apply Forall_app; split; [exact Hb |].
  apply run_letters; [apply permutes_one |].
  apply (Permutation_Forall (Permutation_sym Hp)).
  apply find_cruces_shaped in E3.
  replace n with (length (snd (sorted_columns l1 l2))); [exact E3 |].
  unfold sorted_columns. simpl. rewrite length_map, sort_length, length_combine.
  apply mapM_Return_length in E1. apply mapM_Return_length in E2.
  rewrite length_seq in E1, E2. lia.
Qed.

Lemma intervals_letters (totalpoints : list (list point)) (n : nat) (ivals : list nat) :
  forall braid w, Forall (letter_or_zero n) braid ->
                  intervals totalpoints n braid ivals = Return w ->
                  Forall (letter_or_zero n) w.
Proof.
  induction ivals as [| i ivals IH]; simpl; intros braid w Hb H.
  - inversion H; subst. exact Hb.
  - apply bind_Return_inv in H. destruct H as (braid' & E & H).
    apply (IH braid'); [| exact H]. apply (interval_letters _ _ _ _ _ Hb E).
Qed.

(** Every letter of the word has a position in [1..n-1], or is zero. *)
Lemma letters_in_range (fuel : nat) (strands : list strand) (w : list Z) :
  braid_from_piecewise fuel strands = Return w ->
  Forall (letter_or_zero (length strands)) w.
Proof.
  unfold braid_from_piecewise. intros H.
  apply bind_Return_inv in H. destruct H as (totalpoints & _ & H).
  apply bind_Return_inv in H. destruct H as (row0 & _ & H).
  apply (intervals_letters totalpoints _ (seq 0 (length row0 - 1)) [] w); [constructor | exact H].
Qed.
End LetterFacts.

(** ** The matching of roots in braid_in_segment *)
Module MatchingFacts.
Import Follow Segment.

Lemma quiet_Return (A : Type) (a : A) : quiet (Return a).
Proof. discriminate. Qed.

Lemma quiet_bind (A B : Type) (m : outcome A) (k : A -> outcome B) :
  quiet m -> (forall a, quiet (k a)) -> quiet (bind m k).
Proof.
  unfold quiet. intros Hm Hk. destruct m as [a | e |]; simpl; [apply Hk | | discriminate].
  intros H. apply Hm. inversion H. reflexivity.
Qed.

Lemma quiet_mapM (A B : Type) (f : A -> outcome B) (l : list A) :
  (forall a, quiet (f a)) -> quiet (mapM f l).
Proof.
  intros Hf. induction l as [| a l IH]; simpl; [apply quiet_Return |].
  apply quiet_bind; [apply Hf | intros b].
  apply quiet_bind; [exact IH | intros bs; apply quiet_Return].
Qed.

Lemma quiet_index (A : Type) (l : list A) (n : nat) : quiet (index l n).
Proof. unfold quiet, index. destruct (nth_error l n); discriminate. Qed.

Lemma quiet_index_last (A : Type) (l : list A) : quiet (index_last l).
Proof. unfold quiet, index_last. destruct (rev l); discriminate. Qed.

Lemma quiet_pymin (l : list Q) : quiet (pymin l).
Proof. destruct l; discriminate. Qed.

Create HintDb quiet.
#[local] Hint Resolve quiet_Return quiet_index quiet_index_last quiet_pymin : quiet.

Ltac quiet_step :=
  match goal with
  | |- quiet (bind _ _) => apply quiet_bind; [| intros ?]
  | |- quiet (mapM _ _) => apply quiet_mapM; intros ?
  | |- quiet (if ?b then _ else _) => destruct b
  | |- quiet (match ?p with (_, _) => _ end) => destruct p
  | |- quiet (Raise _) => discriminate
  | |- _ => solve [auto with quiet]
  end.

Lemma quiet_strand_step i val ix tp : quiet (strand_step i val ix tp).
Proof. unfold strand_step, interpolate. repeat quiet_step. Qed.

Lemma quiet_for_strands i L : forall indices totalpoints,
    quiet (for_strands i L indices totalpoints).
Proof.
  induction L as [| val L IH]; intros [| ix indices] [| tp totalpoints]; simpl;
    try apply quiet_Return.
  apply quiet_bind; [apply quiet_strand_step | intros r].
  apply quiet_bind; [apply IH | intros; apply quiet_Return].
Qed.

Lemma quiet_resample_loop fuel L : forall i indices totalpoints,
    quiet (resample_loop fuel L i indices totalpoints).
Proof.
  induction fuel as [| fuel IH]; intros i indices totalpoints; simpl;
    destruct (Qltb i 1); try apply quiet_Return; try discriminate.
  apply quiet_bind; [apply quiet_for_strands | intros st].
  apply quiet_bind; [unfold next_time; repeat quiet_step | intros i'; apply IH].
Qed.

Lemma quiet_resample fuel L : quiet (resample fuel L).
Proof.
  unfold resample.
  apply quiet_bind; [repeat quiet_step | intros ts].
  apply quiet_bind; [repeat quiet_step | intros i].
  apply quiet_bind; [repeat quiet_step | intros tps].
  apply quiet_bind; [apply quiet_resample_loop | intros tps'].
  repeat quiet_step.
Qed.

Lemma quiet_intervals totalpoints n ivals : forall braid,
    quiet (intervals totalpoints n braid ivals).
Proof.
  induction ivals as [| i ivals IH]; intros braid; simpl; [apply quiet_Return |].
  apply quiet_bind; [| intros; apply IH].
  unfold interval, find_cruces, crossing. repeat quiet_step.
Qed.

Lemma quiet_braid_from_piecewise fuel strands : quiet (braid_from_piecewise fuel strands).
Proof.
  unfold braid_from_piecewise.
  apply quiet_bind; [apply quiet_resample | intros tps].
  apply quiet_bind; [apply quiet_index | intros row0]. apply quiet_intervals.
Qed.

(** *** nearest *)

Lemma nearest_total (yap : complex) (ys : list complex) :
  ys <> [] -> exists y, nearest yap ys = Return y.
Proof.
  intros Hne. unfold nearest.
  destruct (sort distance_compare (map (fun y0 => (norm (csub yap y0), y0)) ys))
    as [| d rest] eqn:E.
  - apply sort_nil_inv in E. apply map_eq_nil in E. contradiction.
  - exists (snd d). reflexivity.
Qed.

Lemma nearest_Return_nonempty (yap : complex) (ys : list complex) (y : complex) :
  nearest yap ys = Return y -> ys <> [].
Proof. intros H ->. discriminate. Qed.

Lemma quiet_nearest (yap : complex) (ys : list complex) : quiet (nearest yap ys).
Proof. unfold nearest. repeat quiet_step. Qed.

(** The root returned is one of the roots, and none is nearer. *)
Lemma nearest_spec (yap : complex) (ys : list complex) (y : complex) :
  nearest yap ys = Return y ->
  In y ys /\ forall y', In y' ys -> norm (csub yap y) <= norm (csub yap y').
Proof.
  unfold nearest. intros H.
  apply bind_Return_inv in H. destruct H as (d & Hd & H). inversion H; subst. clear H.
  apply index_Return in Hd.
  set (distances := map (fun y0 => (norm (csub yap y0), y0)) ys) in *.
  destruct (sort distance_compare distances) as [| d0 rest] eqn:E; [discriminate |].
  simpl in Hd. inversion Hd; subst d0. clear Hd.
  pose proof (sort_perm _ distance_compare distances) as Hperm. rewrite E in Hperm.
  assert (Hin : In d distances) by (apply (Permutation_in _ Hperm); left; reflexivity).
  apply in_map_iff in Hin. destruct Hin as (y0 & Ey0 & Hy0). subst d. simpl.
  split; [exact Hy0 |]. intros y' Hy'.
  assert (Hleast : Forall (fun b => fst (norm (csub yap y0), y0) <= fst b) rest).
  { apply (sort_head_least _ distance_compare (fun a b => fst a <= fst b))
      with (l := distances); [| | | exact E].
    - intros a b. unfold distance_compare.
      destruct (fst a ?= fst b) eqn:Ec; simpl; intros Hc.
      + apply Qeq_alt in Ec. lra.
      + apply Qlt_alt in Ec. lra.
      + congruence.
    - intros a b. unfold distance_compare.
      destruct (fst a ?= fst b) eqn:Ec; simpl; intros Hc.
      + apply Qeq_alt in Ec. lra.
      + congruence.
      + apply Qgt_alt in Ec. lra.
    - intros a b c; apply Qle_trans. }
  assert (Hin' : In (norm (csub yap y'), y') ((norm (csub yap y0), y0) :: rest)).
  { apply (Permutation_in _ (Permutation_sym Hperm)). unfold distances.
    apply in_map_iff. exists y'. auto. }
  destruct Hin' as [Heq | Hin'].
  - inversion Heq. apply Qle_refl.
  - rewrite Forall_forall in Hleast. apply (Hleast _ Hin').
Qed.

(** *** The matching loop *)

Lemma complex_eqb_sym (a b : complex) : complex_eqb a b = complex_eqb b a.
Proof.
  unfold complex_eqb.
  assert (H : forall x y, Qeqb x y = Qeqb y x).
  { intros x y. destruct (Qeqb x y) eqn:E1, (Qeqb y x) eqn:E2; try reflexivity.
    - apply Qeqb_eq in E1. apply Qeqb_neq in E2. exfalso; apply E2; symmetry; exact E1.
    - apply Qeqb_eq in E2. apply Qeqb_neq in E1. exfalso; apply E1; symmetry; exact E2. }
  rewrite (H (real a)), (H (imag a)). reflexivity.
Qed.

Lemma mem_app (y : complex) (l1 l2 : list complex) :
  mem y (l1 ++ l2) = mem y l1 || mem y l2.
Proof. unfold mem. apply existsb_app. Qed.

Lemma mem_exists (y : complex) (l : list complex) :
  mem y l = true <-> exists y', In y' l /\ complex_eqb y y' = true.
Proof. unfold mem. apply existsb_exists. Qed.

Lemma distinct_snoc (used : list complex) (y : complex) :
  distinct used -> mem y used = false -> distinct (used ++ [y]).
Proof.
  induction used as [| a used IH]; simpl; intros Hd Hm; [auto |].
  destruct Hd as [Ha Hd]. apply orb_false_iff in Hm. destruct Hm as [Hya Hm].
  split; [| apply IH; assumption].
  rewrite mem_app, Ha. simpl. rewrite complex_eqb_sym, Hya. reflexivity.
Qed.

(** The loop returns the nearest roots, in order and all different,
    and one strand for each. *)
Lemma match_roots_Return (mk : complex -> complex -> list (Q * complex)) (ys : list complex) :
  forall yaps used strands used' strands',
    match_roots mk ys yaps used strands = Return (used', strands') ->
    exists new,
      Forall2 (fun yap y => nearest yap ys = Return y) yaps new /\
      used' = used ++ new /\
      strands' = strands ++ map (fun p => mk (fst p) (snd p)) (combine new yaps) /\
      (distinct used -> distinct used').
Proof.
  induction yaps as [| yap yaps IH]; simpl; intros used strands used' strands' H.
  - inversion H; subst. exists []. rewrite !app_nil_r. repeat split; auto.
  - apply bind_Return_inv in H. destruct H as (y & Ey & H).
    destruct (mem y used) eqn:Em; [discriminate |].
    destruct (IH _ _ _ _ H) as (new & Hnew & -> & -> & Hd).
    exists (y :: new). simpl. rewrite <- !app_assoc. simpl.
    repeat split; auto.
    intros Hused. rewrite <- app_assoc in Hd. apply Hd. apply distinct_snoc; assumption.
Qed.

(** The loop raises the error exactly when some approximation has for
    nearest root one of [used] or the nearest root of an earlier
    approximation. *)
Lemma match_roots_Raise (mk : complex -> complex -> list (Q * complex)) (ys : list complex) :
  forall yaps used strands,
    match_roots mk ys yaps used strands = Raise RootsTooClose <->
    exists pre yap post news y,
      yaps = pre ++ yap :: post /\
      Forall2 (fun yap' y' => nearest yap' ys = Return y') pre news /\
      nearest yap ys = Return y /\ mem y (used ++ news) = true.
Proof.
  induction yaps as [| yap yaps IH]; simpl; intros used strands; split.
  - discriminate.
  - intros (pre & yap & post & news & y & H & _). destruct pre; discriminate.
  - intros H. apply bind_Raise_inv in H. destruct H as [H | (y & Ey & H)].
    + exfalso. apply (quiet_nearest yap ys). exact H.
    + destruct (mem y used) eqn:Em.
      * exists [], yap, yaps, [], y. rewrite app_nil_r. repeat split; auto.
      * apply IH in H. destruct H as (pre & yap' & post & news & y' & -> & Hn & Ey' & Hm).
        exists (yap :: pre), yap', post, (y :: news), y'.
        rewrite <- app_assoc in Hm. repeat split; auto.
  - intros (pre & yap' & post & news & y & Heq & Hn & Ey & Hm).
    destruct pre as [| p pre]; simpl in Heq; inversion Heq; subst.
    + inversion Hn; subst. rewrite app_nil_r in Hm. rewrite Ey. simpl. rewrite Hm. reflexivity.
    + inversion Hn as [| ? py ? news' Hp Hn']; subst. rewrite Hp. simpl.
      destruct (mem py used) eqn:Em; [reflexivity |].
      apply IH. exists pre, yap', post, news', y.
      rewrite <- app_assoc. simpl. repeat split; auto.
Qed.

Lemma match_roots_reuses (mk : complex -> complex -> list (Q * complex))
      (ys yaps : list complex) :
  match_roots mk ys yaps [] [] = Raise RootsTooClose <-> reuses ys yaps.
Proof.
  rewrite match_roots_Raise. unfold reuses. split.
  - intros (pre & yap & post & news & y & -> & Hn & Ey & Hm). simpl in Hm.
    apply mem_exists in Hm. destruct Hm as (y' & Hin & Heq).
    destruct (Forall2_In_r _ _ _ _ _ _ Hn Hin) as (yap' & Hin' & Ey').
    exists pre, yap, post, yap', y, y'. repeat split; auto.
  - intros (pre & yap & post & yap' & y & y' & -> & Hin & Ey' & Ey & Heq).
    assert (Hne : ys <> []) by (apply (nearest_Return_nonempty _ _ _ Ey)).
    assert (Hn : exists news, Forall2 (fun a b => nearest a ys = Return b) pre news).
    { clear - Hne. induction pre as [| p pre (news & IH)]; [exists []; constructor |].
      destruct (nearest_total p ys Hne) as (py & Hp). exists (py :: news). constructor; auto. }
    destruct Hn as (news & Hn).
    exists pre, yap, post, news, y. repeat split; auto. simpl.
    apply mem_exists.
    destruct (Forall2_In_l _ _ _ _ _ _ Hn Hin) as (y'' & Hin'' & Ey'').
    rewrite Ey' in Ey''. inversion Ey''; subst. exists y''. auto.
Qed.

Lemma match_roots_matched (mk : complex -> complex -> list (Q * complex))
      (ys yaps : list complex) used strands :
  match_roots mk ys yaps [] [] = Return (used, strands) ->
  matched ys yaps used /\
  strands = map (fun p => mk (fst p) (snd p)) (combine used yaps).
Proof.
  intros H. destruct (match_roots_Return _ _ _ _ _ _ _ H) as (new & Hn & -> & -> & Hd).
  simpl. repeat split; auto. apply Hd. exact I.
Qed.
End MatchingFacts.

(** ** braid_in_segment *)
Module SegmentFacts.
Import Follow Segment MatchingFacts.

Section SegmentFacts.
Context {poly : Type} {S : Sirocco poly} {R : Fibers poly}.

Lemma quiet_followstrand fuel (f : poly) x0 x1 y0a prec :
  quiet (followstrand fuel f x0 x1 y0a prec).
Proof. apply FollowFacts.followstrand_never_raises. Qed.

End SegmentFacts.
End SegmentFacts.

(** ** fundamental_group *)
Module FundamentalFacts.
Import Discrim Voronoi Segment FreeGroup Fundamental MatchingFacts.

(** *** Free group words *)

Lemma reduce_positive (l : list Z) : Forall (fun a => 0 < a)%Z l -> reduce l = l.
Proof.
  unfold reduce. induction 1 as [| a l Ha Hl IH]; simpl; [reflexivity |].
  rewrite IH. destruct l as [| b l]; simpl; [reflexivity |].
  inversion Hl; subst. destruct (Z.eqb_spec (a + b) 0); [lia | reflexivity].
Qed.

Lemma prod_generators (d a : nat) (w : word) :
  Forall (fun a => 0 < a)%Z w ->
  fold_left mul (map (fun i => [Z.of_nat (i + 1)]) (seq a d)) w
  = w ++ map (fun i => Z.of_nat (i + 1)) (seq a d).
Proof.
  revert a w. induction d as [| d IH]; intros a w Hw; simpl.
  - rewrite app_nil_r. reflexivity.
  - assert (Hw' : Forall (fun a => 0 < a)%Z (w ++ [Z.of_nat (a + 1)])).
    { apply Forall_app; split; [exact Hw |]. repeat constructor. lia. }
    unfold mul at 2. rewrite (reduce_positive _ Hw'). rewrite (IH _ _ Hw').
    rewrite <- app_assoc. reflexivity.
Qed.

Lemma gens_Return (n d : nat) (gens : list word) :
  mapM (gen n) (seq 0 d) = Return gens ->
  prod gens = map (fun i => Z.of_nat (i + 1)) (seq 0 d).
Proof.
  intros H.
  assert (Hg : forall a gs, mapM (gen n) (seq a d) = Return gs ->
                            gs = map (fun i => [Z.of_nat (i + 1)]) (seq a d)).
  { clear. induction d as [| d IH]; intros a gens H; simpl in *.
    - inversion H; reflexivity.
    - apply bind_Return_inv in H. destruct H as (g & Eg & H).
      apply bind_Return_inv in H. destruct H as (gs & Egs & H).
      inversion H; subst. unfold gen in Eg. destruct (Nat.ltb a n); [| discriminate].
      inversion Eg; subst. f_equal. apply IH. exact Egs. }
  rewrite (Hg _ _ H). unfold prod. rewrite prod_generators; [reflexivity | constructor].
Qed.

(** *** The set of the vertices *)

Lemma complex_eqb_trans (a b c : complex) :
  complex_eqb a b = true -> complex_eqb b c = true -> complex_eqb a c = true.
Proof.
  unfold complex_eqb. rewrite !andb_true_iff, !Qeqb_eq.
  intros [H1 H2] [H3 H4]. split; lra.
Qed.

Lemma mem_eqb (a b : complex) (l : list complex) :
  complex_eqb a b = true -> mem b l = true -> mem a l = true.
Proof.
  intros Hab Hb. apply mem_exists in Hb. destruct Hb as (c & Hc & Hbc).
  apply mem_exists. exists c. split; [exact Hc |].
  apply (complex_eqb_trans _ _ _ Hab Hbc).
Qed.

(** [dedup] keeps the members of the list. *)
Lemma dedup_mem (a : complex) (l : list complex) : mem a (dedup l) = mem a l.
Proof.
  induction l as [| b l IH]; simpl; [reflexivity |].
  destruct (mem b l) eqn:Eb; simpl; rewrite IH; [| reflexivity].
  destruct (complex_eqb a b) eqn:Eab; [| reflexivity].
  simpl. apply (mem_eqb _ _ _ Eab Eb).
Qed.

(** [dedup] keeps each of them once. *)
Lemma dedup_distinct (l : list complex) : distinct (dedup l).
Proof.
  induction l as [| b l IH]; simpl; [exact I |].
  destruct (mem b l) eqn:Eb; [exact IH |].
  simpl. rewrite dedup_mem. auto.
Qed.

Section WithCollaborators.
Context {P : Polynomials} {E : Elimination P} {C : Curves P}
        {S : Sirocco poly} {R : Fibers poly} {V : Geometry QQbar}
        {G : Groups} {T : Runtime}.

(** *** The change of variables *)

Lemma shift_loop_Return (fuel : nat) (projective : bool) (F : ring) (x y : var) :
  forall g0 g d,
    shift_loop fuel projective F x y g0 (degree g0 y) = Return (g, d) ->
    exists shifts,
      g = Nat.iter shifts (fun g => subs_add g x y) g0 /\
      d = degree g y /\
      shift_needed projective F y g d = false /\
      (forall k, (k < shifts)%nat ->
         let gk := Nat.iter k (fun g => subs_add g x y) g0 in
         shift_needed projective F y gk (degree gk y) = true).
Proof.
  induction fuel as [| fuel IH]; intros g0 g d H; simpl in H.
  - destruct (shift_needed projective F y g0 (degree g0 y)) eqn:En; [discriminate |].
    inversion H; subst. exists O. simpl. repeat split; auto. intros k Hk; lia.
  - destruct (shift_needed projective F y g0 (degree g0 y)) eqn:En.
    + destruct (IH _ _ _ H) as (shifts & Hg & Hd & Hstop & Hrun).
      exists (Datatypes.S shifts). rewrite Nat.iter_succ_r.
      repeat split; auto.
      intros [| k] Hk; [exact En |].
      cbv zeta. rewrite Nat.iter_succ_r. apply Hrun. lia.
    + inversion H; subst. exists O. simpl. repeat split; auto. intros k Hk; lia.
Qed.

(** *** The relators of the segments *)

Lemma relations_acc (d n : nat) (vertices : list complex) :
  forall braidscomputed rels,
    relations d n vertices braidscomputed rels
    = (new <- relations d n vertices braidscomputed [] ;; Return (rels ++ new)).
Proof.
  induction braidscomputed as [| [[seg0 seg1] b] rest IH]; intros rels; simpl.
  - rewrite app_nil_r. reflexivity.
  - destruct (list_index vertices seg0) as [i | |]; simpl; try reflexivity.
    destruct (list_index vertices seg1) as [j | |]; simpl; try reflexivity.
    destruct (mapM (relator d n i j b) (seq 0 d)) as [new | |]; simpl; try reflexivity.
    rewrite (IH (rels ++ new)), (IH new).
    destruct (relations d n vertices rest []) as [new' | |]; simpl; try reflexivity.
    rewrite app_assoc. reflexivity.
Qed.

Lemma relations_length (d n : nat) (vertices : list complex) :
  forall braidscomputed new,
    relations d n vertices braidscomputed [] = Return new ->
    length new = (d * length braidscomputed)%nat.
Proof.
  induction braidscomputed as [| [[seg0 seg1] b] rest IH]; intros new H; simpl in H.
  - inversion H. simpl. lia.
  - apply bind_Return_inv in H. destruct H as (i & _ & H).
    apply bind_Return_inv in H. destruct H as (j & _ & H).
    apply bind_Return_inv in H. destruct H as (new1 & E1 & H).
    rewrite relations_acc in H.
    apply bind_Return_inv in H. destruct H as (new2 & E2 & H).
    inversion H; subst. rewrite length_app. rewrite (IH _ E2).
    apply mapM_Return_length in E1. rewrite length_seq in E1. simpl. lia.
Qed.

Lemma computed_segments (fuel : nat) (g : poly) (segs : list (complex * complex)) computed :
  mapM (fun seg => b <- braid_in_segment fuel g (fst seg) (snd seg) ;;
                   Return (fst seg, snd seg, b)) segs = Return computed ->
  map fst computed = segs.
Proof.
  revert computed. induction segs as [| [p q] segs IH]; intros computed H; simpl in H.
  - inversion H. reflexivity.
  - apply bind_Return_inv in H. destruct H as (c & Ec & H).
    apply bind_Return_inv in H. destruct H as (cs & Ecs & H).
    inversion H; subst.
    apply bind_Return_inv in Ec. destruct Ec as (b & _ & Ec). inversion Ec; subst.
    simpl. f_equal. apply IH. exact Ecs.
Qed.
End WithCollaborators.
End FundamentalFacts.

(** ** The presentation *)
Module PresentationFacts.
Import Discrim Voronoi Segment FreeGroup Fundamental FundamentalFacts.

Lemma unpack2_Return (A : Type) (t : list A) (x y : A) :
  unpack2 t = Return (x, y) -> t = [x; y].
Proof.
  destruct t as [| a [| b [| c t]]]; simpl; intros H; inversion H; reflexivity.
Qed.

Section PresentationFacts.
Context {P : Polynomials} {E : Elimination P} {C : Curves P}
        {S : Sirocco poly} {R : Fibers poly} {V : Geometry QQbar}
        {G : Groups} {T : Runtime}.

(** What a successful call has computed on its way. *)
Lemma fundamental_group_Return (fuel : nat) (f : poly) (projective : bool)
      (H : presentation) :
  fundamental_group fuel f false projective = Return H ->
  exists x y g d disc segs braidscomputed segrels,
    variables f = [x; y] /\
    shift_loop fuel projective (base_ring f) x y (radical f) (degree (radical f) y)
    = Return (g, d) /\
    discrim g = Return disc /\
    segments disc = Return segs /\
    Permutation (map fst braidscomputed) segs /\
    relations d (generators H) (set_order (dedup (flatten segs))) braidscomputed []
    = Return segrels /\
    generators H = (d * length (set_order (dedup (flatten segs))))%nat /\
    relators H = (if projective then [map (fun i => Z.of_nat (i + 1)) (seq 0 d)] else [])
                   ++ segrels.
Proof.
  unfold fundamental_group. intros Hret.
  apply bind_Return_inv in Hret. destruct Hret as ([x y] & Exy & Hret).
  apply bind_Return_inv in Hret. destruct Hret as ([g d] & Egd & Hret).
  apply bind_Return_inv in Hret. destruct Hret as (disc & Edisc & Hret).
  apply bind_Return_inv in Hret. destruct Hret as (segs & Esegs & Hret).
  apply bind_Return_inv in Hret. destruct Hret as (rels0 & Erels0 & Hret).
  apply bind_Return_inv in Hret. destruct Hret as (computed & Ecomp & Hret).
  apply bind_Return_inv in Hret. destruct Hret as (rels & Erels & Hret).
  inversion Hret; subst H; clear Hret. simpl.
  rewrite relations_acc in Erels.
  apply bind_Return_inv in Erels. destruct Erels as (segrels & Esegrels & Erels).
  inversion Erels; subst rels; clear Erels.
  exists x, y, g, d, disc, segs, (schedule computed), segrels.
  split; [apply unpack2_Return; exact Exy |].
  repeat (split; [assumption |]).
  split.
  { rewrite <- (computed_segments _ _ _ _ Ecomp).
    apply Permutation_map. apply schedule_perm. }
  split; [exact Esegrels |]. split; [reflexivity |].
  f_equal. destruct projective.
  - apply bind_Return_inv in Erels0. destruct Erels0 as (gens & Egens & Erels0).
    inversion Erels0. f_equal. apply (gens_Return _ _ _ Egens).
  - inversion Erels0. reflexivity.
Qed.

(** C1. When [fundamental_group(f, simplified=False, projective=False)]
    succeeds, the presentation has [d * |vertices|] generators: [d] is
    the degree in [y] of the polynomial [g] that the loop of changes of
    variables [x -> x + y] makes of the radical of [f], a loop that goes
    on as long as the leading coefficient in [y] is not in the base
    field and stops at [g]; the vertices are the ends of the segments of
    the Voronoi diagram of the discriminant of [g], each once. *)
Theorem generators_count (fuel : nat) (f : poly) (H : presentation) :
  fundamental_group fuel f false false = Return H ->
  exists x y shifts disc segs,
    let shifted k := Nat.iter k (fun g => subs_add g x y) (radical f) in
    let g := shifted shifts in
    variables f = [x; y] /\
    (forall k, (k < shifts)%nat ->
       mem_ring (coefficient (shifted k) y (degree (shifted k) y)) (base_ring f) = false) /\
    mem_ring (coefficient g y (degree g y)) (base_ring f) = true /\
    discrim g = Return disc /\
    segments disc = Return segs /\
    distinct (dedup (flatten segs)) /\
    (forall p, mem p (dedup (flatten segs)) = mem p (flatten segs)) /\
    generators H = (degree g y * length (dedup (flatten segs)))%nat.
Proof.
  intros Hret.
  destruct (fundamental_group_Return _ _ _ _ Hret)
    as (x & y & g & d & disc & segs & bc & segrels & Hxy & Hloop & Hdisc & Hsegs & _ & _ & Hgen & _).
  destruct (shift_loop_Return _ _ _ _ _ _ _ _ Hloop) as (shifts & Hg & Hd & Hstop & Hrun).
  exists x, y, shifts, disc, segs. cbv beta zeta. rewrite <- Hg. subst d.
  split; [exact Hxy |]. split.
  { intros k Hk. specialize (Hrun k Hk). cbv beta zeta in Hrun.
    unfold shift_needed in Hrun. simpl in Hrun. rewrite orb_false_r in Hrun.
    apply negb_true_iff in Hrun. exact Hrun. }
  split.
  { unfold shift_needed in Hstop. simpl in Hstop. rewrite orb_false_r in Hstop.
    apply negb_false_iff in Hstop. exact Hstop. }
  repeat (split; [assumption |]).
  split; [apply dedup_distinct |]. split; [intros p; apply dedup_mem |].
  rewrite Hgen. f_equal. apply Permutation_length. apply set_order_perm.
Qed.

(** C7. The presentation returned before simplification has [d]
    relators for every segment, those that the loop over the computed
    braids appends; with [projective=True] it has, before them, one
    more relator, the product [x_0 x_1 ... x_(d-1)] of the first [d]
    generators (the word [[1, ..., d]]), and with [projective=False] it
    has no other relator. *)
Theorem projective_relator (fuel : nat) (f : poly) (projective : bool) (H : presentation) :
  fundamental_group fuel f false projective = Return H ->
  exists x y g d disc segs braidscomputed segrels,
    variables f = [x; y] /\
    shift_loop fuel projective (base_ring f) x y (radical f) (degree (radical f) y)
    = Return (g, d) /\
    discrim g = Return disc /\
    segments disc = Return segs /\
    Permutation (map fst braidscomputed) segs /\
    relations d (generators H) (set_order (dedup (flatten segs))) braidscomputed []
    = Return segrels /\
    length segrels = (d * length segs)%nat /\
    relators H = (if projective then [map (fun i => Z.of_nat (i + 1)) (seq 0 d)] else [])
                   ++ segrels.
Proof.
  intros Hret.
  destruct (fundamental_group_Return _ _ _ _ Hret)
    as (x & y & g & d & disc & segs & bc & segrels
        & Hxy & Hloop & Hdisc & Hsegs & Hperm & Hrels & Hgen & Hrel).
  exists x, y, g, d, disc, segs, bc, segrels.
  repeat (split; [assumption |]).
  split; [| exact Hrel].
  rewrite (relations_length _ _ _ _ _ Hrels).
  apply Permutation_length in Hperm. rewrite length_map in Hperm. rewrite Hperm.
  reflexivity.
Qed.

(** C9. [fundamental_group] begins by taking the radical of [f]; the
    radical of a radical being the same polynomial, in the same
    variables and over the same field, the call on [f] and the call on
    the radical of [f] are the same computation, whatever the flags. *)
Theorem radical_first (fuel : nat) (f : poly) (simplified projective : bool) :
  radical (radical f) = radical f ->
  variables (radical f) = variables f ->
  base_ring (radical f) = base_ring f ->
  fundamental_group fuel (radical f) simplified projective
  = fundamental_group fuel f simplified projective.
Proof.
  intros Hidem Hvars Hring. unfold fundamental_group.
  rewrite Hvars. destruct (unpack2 (variables f)) as [[x y] | e |]; simpl; try reflexivity.
  rewrite Hidem, Hring. reflexivity.
Qed.
End PresentationFacts.
End PresentationFacts.

(** ** discrim *)
Module DiscrimFacts.
Import Discrim Algebraic.

Lemma eliminant_cubic_and_line :
  eliminant cubic_and_line = [-531441 # 1; 0 # 1; 0 # 1; 531441 # 1].
Proof. vm_compute. reflexivity. Qed.

Lemma ceval_cubic (a b : R) :
  ceval [-531441 # 1; 0 # 1; 0 # 1; 531441 # 1] (a, b) = (0%R, 0%R) <->
  (a * a * a - 3 * a * b * b = 1 /\ 3 * a * a * b - b * b * b = 0)%R.
Proof.
  unfold ceval, cadd, cmul, of_Q, Q2R. simpl.
  split.
  - intros H. injection H as H1 H2. split; nra.
  - intros [H1 H2]. f_equal; nra.
Qed.

Lemma sqrt3_sq : (sqrt 3 * sqrt 3 = 3)%R.
Proof. apply sqrt_sqrt. lra. Qed.

Lemma sqrt3_pos : (0 < sqrt 3)%R.
Proof. apply sqrt_lt_R0. lra. Qed.

(** The complex numbers of cube one. *)
Lemma cube_roots (a b : R) :
  (a * a * a - 3 * a * b * b = 1 /\ 3 * a * a * b - b * b * b = 0)%R <->
  In (a, b) cube_roots_of_unity.
Proof.
  pose proof sqrt3_sq as Hs. pose proof sqrt3_pos as Hp.
  unfold cube_roots_of_unity. simpl. split.
  - intros [H1 H2].
    assert (Hb : (b = 0 \/ b * b = 3 * (a * a))%R).
    { assert (H : (b * (3 * (a * a) - b * b) = 0)%R) by lra.
      apply Rmult_integral in H. destruct H; [left; assumption | right; lra]. }
    destruct Hb as [Hb | Hb].
    + left. subst b.
      assert (H : ((a - 1) * (a * a + a + 1) = 0)%R) by lra.
      apply Rmult_integral in H. destruct H as [H | H]; [f_equal; lra | nra].
    + right.
      assert (Hab : (a * (b * b) = a * (3 * (a * a)))%R) by (rewrite Hb; reflexivity).
      assert (Ha : ((2 * a + 1) * (4 * (a * a) - 2 * a + 1) = 0)%R) by nra.
      apply Rmult_integral in Ha. destruct Ha as [Ha | Ha]; [| nra].
      assert (Ha' : (a = -1 / 2)%R) by lra. subst a.
      assert (H : ((b + sqrt 3 / 2) * (b - sqrt 3 / 2) = 0)%R) by nra.
      apply Rmult_integral in H. destruct H as [H | H].
      * left. f_equal. lra.
      * right. left. f_equal. lra.
  - assert (Hc : (sqrt 3 * sqrt 3 * sqrt 3 = 3 * sqrt 3)%R) by (rewrite Hs; reflexivity).
    revert Hs Hp Hc. generalize (sqrt 3). intros s Hs Hp Hc.
    intros [H | [H | [H | []]]]; inversion H; subst; split; lra.
Qed.

Lemma exact_on_cube_roots (roots : list Q -> list (R * R)) :
  exact_on roots (eliminant cubic_and_line) ->
  NoDup (roots (eliminant cubic_and_line)) /\
  forall z, In z (roots (eliminant cubic_and_line)) <-> In z cube_roots_of_unity.
Proof.
  intros [Hnd Hroots]. split; [exact Hnd |].
  intros [a b]. rewrite Hroots, eliminant_cubic_and_line, ceval_cubic. apply cube_roots.
Qed.

Lemma cube_roots_NoDup : NoDup cube_roots_of_unity.
Proof.
  pose proof sqrt3_pos as Hp. unfold cube_roots_of_unity.
  repeat constructor; simpl; intros H;
    repeat (destruct H as [H | H]; [inversion H; lra |]); exact H.
Qed.

Lemma unity_roots_exact : exact_on unity_roots (eliminant cubic_and_line).
Proof.
  split; [apply cube_roots_NoDup |].
  intros [a b]. rewrite eliminant_cubic_and_line, ceval_cubic. unfold unity_roots.
  symmetry. apply cube_roots.
Qed.

(** C5. [discrim(f)] returns what the root finder, which lists each
    root once, finds for the squarefree radical of the resultant in [y]
    of the discriminant in [y] of [f] with [f]; for
    [f = (y^3 + x^3 - 1)(x + y)] and any root finder that is exact on
    that radical, it returns the three cube roots of unity, [1] and
    [-1/2 +- (sqrt 3 / 2) i], each once. *)
Theorem discrim_roots_of_eliminant :
  (forall (P : Polynomials) (E : Elimination P) (f : poly) (x y : var),
      variables f = [x; y] ->
      discrim f
      = Return (roots (uradical (univariate (base_ring f) x
                                            (resultant (discriminant f y) f y))))) /\
  (forall roots : list Q -> list (R * R),
      exact_on roots (eliminant cubic_and_line) ->
      exists l,
        @discrim QQxy (QQxy_elimination (R * R) roots) cubic_and_line = Return l /\
        NoDup l /\
        forall z, In z l <-> In z cube_roots_of_unity).
Proof.
  split.
  - intros P E f x y Hxy. unfold discrim. rewrite Hxy. reflexivity.
  - intros roots Hexact.
    exists (roots (eliminant cubic_and_line)). split.
    + unfold discrim.
      assert (Hv : variables cubic_and_line = [QPoly.X; QPoly.Y])
        by (vm_compute; reflexivity).
      rewrite Hv. reflexivity.
    + apply exact_on_cube_roots. exact Hexact.
Qed.
End DiscrimFacts.

(** ** The functions on the examples of the docstrings *)
Module ExampleFacts.
Import Segment Fundamental FreeGroup.

(** The docstring of [braid_from_piecewise]: [s0*s1]. *)
Example docstring_paths : forall fuel, braid_from_piecewise (3 + fuel) Strands.paths = Return [1; 2]%Z.
Proof. intros fuel. destruct fuel; vm_compute; reflexivity. Qed.

(** On two strands that meet in a point, [sgn] is [0] at the crossing
    and the list [braid] is [[0]] when the function comes to its last
    two lines. *)
Lemma collide_braid :
  forall fuel, braid_from_piecewise fuel Strands.collide = Return [0%Z].
Proof. intros fuel. destruct fuel; vm_compute; reflexivity. Qed.

(** C6, as the code has it.  In the world of the cusp, along the
    segment from [1] to [1 + 0.5 i], [braid_in_segment] returns the word
    [[2]] on the three strands of [y^3 + x^2]: the second and the third
    strand cross once, positively.  Sage names the generators from
    [s0]: it prints this braid [s1]. *)
Theorem braid_in_segment_cusp :
  forall fuel, braid_in_segment (S fuel) Cusp.f Cusp.x0 Cusp.x1 = Return [2%Z].
Proof. intros fuel. destruct fuel; vm_compute; reflexivity. Qed.

(** C6, as stated, fails: no fuel makes the call return the word
    [[1]]. *)
Lemma braid_in_segment_cusp_not_1 :
  ~ exists fuel, braid_in_segment fuel Cusp.f Cusp.x0 Cusp.x1 = Return [1%Z].
Proof.
  intros (fuel & H). destruct fuel as [| [| fuel]]; vm_compute in H; discriminate H.
Qed.

(** The curve has three roots above [1], hence three strands. *)
Lemma cusp_three_strands : length (fiber_roots Cusp.f Cusp.x0) = 3%nat.
Proof. reflexivity. Qed.

Lemma cusp_affine :
  forall fuel, fundamental_group (S fuel) Cusp.f false false = Return Cusp.affine_presentation.
Proof. intros fuel. destruct fuel; vm_compute; reflexivity. Qed.

Lemma cusp_projective :
  forall fuel, fundamental_group (S fuel) Cusp.f false true = Return Cusp.projective_presentation.
Proof. intros fuel. destruct fuel; vm_compute; reflexivity. Qed.

(** The square of the cusp has the presentation of the cusp. *)
Lemma cusp_squared_affine :
  fundamental_group 2 Cusp.f_squared false false = Return Cusp.affine_presentation.
Proof. vm_compute. reflexivity. Qed.

(** A primitive that fails at the precisions 53 and 106 and succeeds at
    212: [followstrand] returns at the third try. *)
Example stubborn_third_try :
  Stubborn.follow 2 = OutOfFuel /\
  forall fuel, Stubborn.follow (3 + fuel) = Return [(0, 0, 0); (1, 0, 0)].
Proof. split; [reflexivity | intros fuel; reflexivity]. Qed.

(** Two approximate endpoints nearer to the root [0] than to the root
    [1]: the second finds its nearest root taken. *)
Example roots_too_close :
  match_roots initial_strand [Cusp.Cx 0 0; Cusp.Cx 1 0]
              [Cusp.Cx (1 # 10) 0; Cusp.Cx (2 # 10) 0] [] []
  = Raise RootsTooClose.
Proof. reflexivity. Qed.
End ExampleFacts.

(** ** The functions from their first to their last statement *)
Module WholeFacts.
Import Follow Segment FreeGroup Trace.

(** *** The constructor of the braids *)

Lemma push_Forall (P : Z -> Prop) (a : Z) (w : word) :
  P a -> Forall P w -> Forall P (push a w).
Proof.
  intros Ha Hw. unfold push. destruct w as [| b w]; [repeat constructor; exact Ha |].
  destruct (Z.eqb (a + b) 0).
  - inversion Hw; assumption.
  - constructor; assumption.
Qed.

(** The reduced word has no letter that the word had not. *)
Lemma reduce_Forall (P : Z -> Prop) (l : list Z) : Forall P l -> Forall P (reduce l).
Proof.
  unfold reduce. induction 1 as [| a l Ha Hl IH]; simpl; [constructor |].
  apply push_Forall; assumption.
Qed.

Lemma make_Return_iff (n : nat) (l : list Z) (w : word) :
  make n l = Return w <->
  Forall (fun a => a <> 0 /\ Z.abs a <= Z.of_nat n)%Z l /\ w = reduce l.
Proof.
  unfold make.
  destruct (forallb (fun a => negb (Z.eqb a 0) && Z.leb (Z.abs a) (Z.of_nat n)) l) eqn:E.
  - rewrite forallb_forall in E. split.
    + intros H. inversion H; subst. split; [| reflexivity].
      apply Forall_forall. intros a Ha. specialize (E a Ha).
      apply andb_true_iff in E. destruct E as [E1 E2].
      apply negb_true_iff in E1. apply Z.eqb_neq in E1. apply Z.leb_le in E2. auto.
    + intros [_ ->]. reflexivity.
  - split; [discriminate |]. intros [H _]. exfalso.
    assert (Ht : forallb (fun a => negb (Z.eqb a 0) && Z.leb (Z.abs a) (Z.of_nat n)) l = true).
    { apply forallb_forall. rewrite Forall_forall in H. intros a Ha.
      destruct (H a Ha) as [H1 H2]. apply andb_true_iff. split.
      - apply negb_true_iff. apply Z.eqb_neq. exact H1.
      - apply Z.leb_le. exact H2. }
    congruence.
Qed.

Lemma make_outcome (n : nat) (l : list Z) :
  make n l = Return (reduce l) \/ make n l = Raise NotAGenerator.
Proof. unfold make. destruct (forallb _ l); auto. Qed.

(** The letters that the crossings give are generators, but for the
    letter [0]. *)
Lemma letters_but_zero (n : nat) (braid : list Z) :
  Forall (letter_or_zero n) braid ->
  (Forall (fun a => a <> 0 /\ Z.abs a <= Z.of_nat (n - 1))%Z braid <-> ~ In 0%Z braid).
Proof.
  intros Hb. split.
  - intros H Hin. rewrite Forall_forall in H. destruct (H _ Hin) as [H0 _]. congruence.
  - intros Hno. apply Forall_forall. intros a Ha.
    rewrite Forall_forall in Hb. specialize (Hb a Ha). unfold letter_or_zero in Hb.
    split; [intros ->; contradiction | lia].
Qed.

(** C8. Every letter of a braid that [braid_from_piecewise] returns on
    [n] strands is in [{-(n-1), ..., -1, 1, ..., n-1}].  The crossings do
    give the letter [0] when [sgn] is [0], as on two strands that meet in
    a point; then the constructor [B(braid)] of the last line refuses the
    list and the function raises, returning no braid.  When the first
    part of the function has built the list [braid], the last two lines
    raise on fewer than two strands, raise when [0] is in [braid], and
    return the reduced word of [braid] otherwise: no letter is ever
    beyond [n - 1]. *)
Theorem letters_are_generators :
  (forall fuel strands w,
      Whole.braid_from_piecewise fuel strands = Return w ->
      Forall (fun a => a <> 0 /\ Z.abs a <= Z.of_nat (length strands) - 1)%Z w) /\
  (forall fuel strands braid,
      Piecewise.braid_from_piecewise fuel strands = Return braid ->
      ((length strands < 2)%nat ->
       Whole.braid_from_piecewise fuel strands = Raise TooFewStrands) /\
      ((2 <= length strands)%nat -> In 0%Z braid ->
       Whole.braid_from_piecewise fuel strands = Raise NotAGenerator) /\
      ((2 <= length strands)%nat -> ~ In 0%Z braid ->
       Whole.braid_from_piecewise fuel strands = Return (reduce braid))) /\
  (forall fuel,
      Piecewise.braid_from_piecewise fuel Strands.collide = Return [0%Z] /\
      Whole.braid_from_piecewise fuel Strands.collide = Raise NotAGenerator).
Proof.
  split; [| split].
  - intros fuel strands w H. unfold Whole.braid_from_piecewise in H.
    apply bind_Return_inv in H. destruct H as (braid & _ & H).
    apply bind_Return_inv in H. destruct H as (B & EB & H).
    unfold Braid.BraidGroup in EB.
    destruct (Nat.ltb (length strands) 2) eqn:En; [discriminate |].
    inversion EB; subst B. apply Nat.ltb_ge in En.
    unfold Braid.make in H. apply make_Return_iff in H. destruct H as [Hl ->].
    apply reduce_Forall. eapply Forall_impl; [| exact Hl].
    intros a [H0 Ha]. split; [exact H0 | lia].
  - intros fuel strands braid Hb.
    pose proof (LetterFacts.letters_in_range _ _ _ Hb) as Hrange.
    unfold Whole.braid_from_piecewise, Braid.BraidGroup, Braid.make.
    rewrite Hb. simpl. split; [| split].
    + intros Hn. apply Nat.ltb_lt in Hn. rewrite Hn. reflexivity.
    + intros Hn Hin. apply Nat.ltb_ge in Hn. rewrite Hn. simpl.
      destruct (make_outcome (length strands - 1) braid) as [E | E]; [| exact E].
      exfalso. apply make_Return_iff in E. destruct E as [E _].
      apply (letters_but_zero _ _ Hrange) in E. contradiction.
    + intros Hn Hno. apply Nat.ltb_ge in Hn. rewrite Hn. simpl.
      apply make_Return_iff. split; [| reflexivity].
      apply (letters_but_zero _ _ Hrange). exact Hno.
  - intros fuel. split; destruct fuel; vm_compute; reflexivity.
Qed.

(** The docstring of [braid_from_piecewise]: [s0*s1]. *)
Example whole_docstring_paths :
  forall fuel, Whole.braid_from_piecewise (3 + fuel) Strands.paths = Return [1; 2]%Z.
Proof. intros fuel. destruct fuel; vm_compute; reflexivity. Qed.

(** The docstring of [braid_in_segment]: the braid that Sage prints
    [s1], of Tietze word [[2]]. *)
Example whole_braid_in_segment_cusp :
  forall fuel, Whole.braid_in_segment (S fuel) Cusp.f Cusp.x0 Cusp.x1 = Return [2%Z].
Proof. intros fuel. destruct fuel; vm_compute; reflexivity. Qed.

Section WholeFacts.
Context {P : Polynomials} {S : Sirocco poly} {R : Fibers poly}.

(** On a polynomial in which both variables occur the assignment of the
    variables goes through, and the function is its [try] statement. *)
Lemma followstrand_unpacked (f : poly) (x0 x1 y0a : complex) (x y : var) :
  variables f = [x; y] ->
  forall fuel prec,
    Whole.followstrand fuel f x0 x1 y0a prec = Follow.followstrand fuel f x0 x1 y0a prec.
Proof.
  intros Hxy. induction fuel as [| fuel IH]; intros prec; simpl; [reflexivity |].
  rewrite Hxy. simpl. destruct (primitive f x0 x1 y0a prec); [reflexivity | apply IH].
Qed.

(** C4. On a polynomial in which both variables occur, [followstrand]
    returns the list of samples of [contpath], at the precision 53, or of
    [contpath_mp], at another precision, when that call succeeds at the
    precision [prec]; when it fails, the whole call is made again at the
    precision [2 * prec].  No number of retries and no precision ends the
    recursion: after [k] failures the call is still going on.  So the
    call returns [points] exactly when the primitive fails at the
    precisions [prec], [2 prec], ..., [2^(k-1) prec] and yields [points]
    at [2^k prec], for some [k]; it returns at all exactly when the
    primitive succeeds at some precision [2^k prec]; and it does not
    raise. *)
Theorem followstrand_retries_doubling (f : poly) (x0 x1 y0a : complex) (prec : N)
        (x y : var) :
  variables f = [x; y] ->
  let sirocco p :=
    let '(deg, coefs) := coefficients f x0 x1 p in
    if N.eqb p 53
    then contpath deg coefs (real (to_CC p y0a)) (imag (to_CC p y0a))
    else contpath_mp deg coefs (real (to_CC p y0a)) (imag (to_CC p y0a)) p in
  (forall points fuel, sirocco prec = Some points ->
      Whole.followstrand (Datatypes.S fuel) f x0 x1 y0a prec = Return points) /\
  (forall fuel, sirocco prec = None ->
      Whole.followstrand (Datatypes.S fuel) f x0 x1 y0a prec
      = Whole.followstrand fuel f x0 x1 y0a (2 * prec)) /\
  (forall k, (forall i, (i < k)%nat -> sirocco (retry_prec prec i) = None) ->
      Whole.followstrand k f x0 x1 y0a prec = OutOfFuel) /\
  (forall points,
      (exists fuel, Whole.followstrand fuel f x0 x1 y0a prec = Return points)
      <-> exists k, (forall i, (i < k)%nat -> sirocco (retry_prec prec i) = None) /\
                    sirocco (retry_prec prec k) = Some points) /\
  ((exists fuel points, Whole.followstrand fuel f x0 x1 y0a prec = Return points)
   <-> exists k, sirocco (retry_prec prec k) <> None) /\
  (forall fuel e, Whole.followstrand fuel f x0 x1 y0a prec <> Raise e).
Proof.
  intros Hxy sirocco.
  assert (Hp : forall p, primitive f x0 x1 y0a p = sirocco p) by reflexivity.
  pose proof (followstrand_unpacked f x0 x1 y0a x y Hxy) as Hw.
  repeat split.
  - intros points fuel H. rewrite Hw. cbn [Follow.followstrand].
    rewrite Hp, H. reflexivity.
  - intros fuel H. rewrite !Hw. cbn [Follow.followstrand]. rewrite Hp, H. reflexivity.
  - intros k Hfail. rewrite Hw.
    apply FollowFacts.followstrand_still_running. exact Hfail.
  - intros (fuel & H). rewrite Hw in H.
    destruct (FollowFacts.followstrand_Return_inv _ _ _ _ _ _ _ H) as (k & _ & Hk).
    exists k. exact Hk.
  - intros (k & Hk). exists (Datatypes.S k). rewrite Hw.
    apply (FollowFacts.followstrand_first_success _ _ _ _ _ _ _ Hk). lia.
  - intros (fuel & points & H). rewrite Hw in H.
    destruct (FollowFacts.followstrand_Return_inv _ _ _ _ _ _ _ H) as (k & _ & _ & Hk).
    exists k. rewrite <- Hp. congruence.
  - intros (k & Hk). exists (Datatypes.S k).
    destruct (FollowFacts.followstrand_some_success f x0 x1 y0a k prec Hk) as (points & H).
    exists points. rewrite Hw. exact H.
  - intros fuel e. rewrite Hw. apply FollowFacts.followstrand_never_raises.
Qed.
End WholeFacts.
End WholeFacts.

(** ** The theorems at work on the examples *)
Module Witnesses.
Import Discrim Voronoi Segment FreeGroup Fundamental Algebraic.

(** The strands of the docstring of [braid_from_piecewise] are
    resampled on the partition [0, 1/5, 1/2, 4/5, 1]. *)
Lemma resample_common_partition_witness :
  Strands.paths <> [] /\
  Forall well_formed Strands.paths /\
  exists totalpoints partition,
    (forall fuel, (length (concat Strands.paths) <= fuel)%nat ->
                  resample fuel Strands.paths = Return totalpoints) /\
    common_partition Strands.paths partition /\
    length totalpoints = length Strands.paths /\
    Forall (fun row => length row = length partition) totalpoints /\
    (forall fuel, (length (concat Strands.paths) <= fuel)%nat ->
                  in_bounds (braid_from_piecewise fuel Strands.paths)).
Proof.
  assert (Hne : Strands.paths <> []) by discriminate.
  assert (Hwf : Forall well_formed Strands.paths).
  { unfold Strands.paths, well_formed.
    repeat (constructor; try (vm_compute; reflexivity); try (simpl; lia)). }
  split; [exact Hne |]. split; [exact Hwf |].
  exact (CrossingFacts.resample_common_partition Strands.paths Hne Hwf).
Defined.

(** The affine presentation of the cusp has [3 * 4] generators. *)
Lemma generators_count_witness :
  fundamental_group 2 Cusp.f false false = Return Cusp.affine_presentation /\
  exists x y shifts disc segs,
    let shifted k := Nat.iter k (fun g => subs_add g x y) (radical Cusp.f) in
    let g := shifted shifts in
    variables Cusp.f = [x; y] /\
    (forall k, (k < shifts)%nat ->
       mem_ring (coefficient (shifted k) y (degree (shifted k) y)) (base_ring Cusp.f)
       = false) /\
    mem_ring (coefficient g y (degree g y)) (base_ring Cusp.f) = true /\
    discrim g = Return disc /\
    segments disc = Return segs /\
    distinct (dedup (flatten segs)) /\
    (forall p, mem p (dedup (flatten segs)) = mem p (flatten segs)) /\
    generators Cusp.affine_presentation
    = (degree g y * length (dedup (flatten segs)))%nat.
Proof.
  assert (H : fundamental_group 2 Cusp.f false false = Return Cusp.affine_presentation)
    by (vm_compute; reflexivity).
  split; [exact H |].
  exact (PresentationFacts.generators_count 2 Cusp.f Cusp.affine_presentation H).
Defined.

(** The projective presentation of the cusp has the relator
    [x_0 x_1 x_2] before the twelve relators of the four segments. *)
Lemma projective_relator_witness :
  fundamental_group 2 Cusp.f false true = Return Cusp.projective_presentation /\
  exists x y g d disc segs braidscomputed segrels,
    variables Cusp.f = [x; y] /\
    shift_loop 2 true (base_ring Cusp.f) x y (radical Cusp.f) (degree (radical Cusp.f) y)
    = Return (g, d) /\
    discrim g = Return disc /\
    segments disc = Return segs /\
    Permutation (map fst braidscomputed) segs /\
    relations d (generators Cusp.projective_presentation)
              (set_order (dedup (flatten segs))) braidscomputed []
    = Return segrels /\
    length segrels = (d * length segs)%nat /\
    relators Cusp.projective_presentation
    = [map (fun i => Z.of_nat (i + 1)) (seq 0 d)] ++ segrels.
Proof.
  assert (H : fundamental_group 2 Cusp.f false true = Return Cusp.projective_presentation)
    by (vm_compute; reflexivity).
  split; [exact H |].
  exact (PresentationFacts.projective_relator 2 Cusp.f true Cusp.projective_presentation H).
Defined.

(** The square of the cusp and its radical, the cusp, give the same
    presentation. *)
Lemma radical_first_witness :
  let f : @poly QQxy := Cusp.f_squared in
  radical (radical f) = radical f /\
  variables (radical f) = variables f /\
  base_ring (radical f) = base_ring f /\
  fundamental_group 2 (radical f) true false = fundamental_group 2 f true false.
Proof.
  intros f.
  assert (Hidem : radical (radical f) = radical f) by (vm_compute; reflexivity).
  assert (Hvars : variables (radical f) = variables f) by (vm_compute; reflexivity).
  assert (Hring : base_ring (radical f) = base_ring f) by reflexivity.
  split; [exact Hidem |]. split; [exact Hvars |]. split; [exact Hring |].
  exact (PresentationFacts.radical_first 2 f true false Hidem Hvars Hring).
Defined.

(** A root finder that returns the cube roots of unity is exact on the
    polynomial of the example. *)
Lemma discrim_roots_of_eliminant_witness :
  exact_on unity_roots (eliminant cubic_and_line) /\
  exists l,
    @discrim QQxy (QQxy_elimination (R * R) unity_roots) cubic_and_line = Return l /\
    NoDup l /\
    forall z, In z l <-> In z cube_roots_of_unity.
Proof.
  split; [exact DiscrimFacts.unity_roots_exact |].
  exact (proj2 DiscrimFacts.discrim_roots_of_eliminant unity_roots
               DiscrimFacts.unity_roots_exact).
Defined.

(** The cusp, from [1] to [1 + 0.5 i], on the root [-1]. *)
Lemma followstrand_retries_doubling_witness :
  let f : @poly QQxy := Cusp.f in
  let x0 := Cusp.x0 in
  let x1 := Cusp.x1 in
  let y0a := Cusp.Cx (-1) 0 in
  variables f = [QPoly.X; QPoly.Y] /\
  let sirocco p :=
    let '(deg, coefs) := coefficients f x0 x1 p in
    if N.eqb p 53
    then contpath deg coefs (real (to_CC p y0a)) (imag (to_CC p y0a))
    else contpath_mp deg coefs (real (to_CC p y0a)) (imag (to_CC p y0a)) p in
  (forall points fuel, sirocco 53%N = Some points ->
      Whole.followstrand (Datatypes.S fuel) f x0 x1 y0a 53 = Return points) /\
  (forall fuel, sirocco 53%N = None ->
      Whole.followstrand (Datatypes.S fuel) f x0 x1 y0a 53
      = Whole.followstrand fuel f x0 x1 y0a (2 * 53)) /\
  (forall k, (forall i, (i < k)%nat -> sirocco (Follow.retry_prec 53 i) = None) ->
      Whole.followstrand k f x0 x1 y0a 53 = OutOfFuel) /\
  (forall points,
      (exists fuel, Whole.followstrand fuel f x0 x1 y0a 53 = Return points)
      <-> exists k, (forall i, (i < k)%nat -> sirocco (Follow.retry_prec 53 i) = None) /\
                    sirocco (Follow.retry_prec 53 k) = Some points) /\
  ((exists fuel points, Whole.followstrand fuel f x0 x1 y0a 53 = Return points)
   <-> exists k, sirocco (Follow.retry_prec 53 k) <> None) /\
  (forall fuel e, Whole.followstrand fuel f x0 x1 y0a 53 <> Raise e).
Proof.
  intros f x0 x1 y0a.
  assert (Hxy : variables f = [QPoly.X; QPoly.Y]) by (vm_compute; reflexivity).
  split; [exact Hxy |].
  exact (WholeFacts.followstrand_retries_doubling f x0 x1 y0a 53 QPoly.X QPoly.Y Hxy).
Defined.
End Witnesses.

(** ** The resampling loop comes to an end on every input *)
Module TerminationFacts.
Import ResampleInv ResampleFacts Coverage.

Lemma finished_Return (A : Type) (a : A) : finished (Return a).
Proof. left; exists a; reflexivity. Qed.

Lemma finished_Raise (A : Type) (e : error) : finished (@Raise A e).
Proof. right; exists e; reflexivity. Qed.

Lemma finished_bind (A B : Type) (m : outcome A) (k : A -> outcome B) :
  finished m -> (forall a, m = Return a -> finished (k a)) -> finished (bind m k).
Proof.
  intros [(a & ->) | (e & ->)] Hk; simpl; [apply Hk; reflexivity | apply finished_Raise].
Qed.

Lemma finished_mapM (A B : Type) (f : A -> outcome B) (l : list A) :
  (forall a, finished (f a)) -> finished (mapM f l).
Proof.
  intros Hf. induction l as [| a l IH]; simpl; [apply finished_Return |].
  apply finished_bind; [apply Hf | intros b _].
  apply finished_bind; [exact IH | intros bs _; apply finished_Return].
Qed.

Lemma finished_index (A : Type) (l : list A) (n : nat) : finished (index l n).
Proof.
  unfold index. destruct (nth_error l n); [apply finished_Return | apply finished_Raise].
Qed.

Lemma finished_index_last (A : Type) (l : list A) : finished (index_last l).
Proof.
  unfold index_last. destruct (rev l); [apply finished_Raise | apply finished_Return].
Qed.

Lemma finished_pymin (l : list Q) : finished (pymin l).
Proof. destruct l; [apply finished_Raise | apply finished_Return]. Qed.

Ltac finished_step :=
  match goal with
  | |- finished (bind _ _) => apply finished_bind; [| intros ? _]
  | |- finished (mapM _ _) => apply finished_mapM; intros ?
  | |- finished (if ?b then _ else _) => destruct b
  | |- finished (Return _) => apply finished_Return
  | |- finished (Raise _) => apply finished_Raise
  | |- finished (index _ _) => apply finished_index
  | |- finished (index_last _) => apply finished_index_last
  | |- finished (pymin _) => apply finished_pymin
  end.

Lemma finished_strand_step i val ix tp : finished (strand_step i val ix tp).
Proof. unfold strand_step, interpolate. repeat finished_step. Qed.

Lemma finished_for_strands i L : forall indices totalpoints,
    finished (for_strands i L indices totalpoints).
Proof.
  induction L as [| val L IH]; intros [| ix indices] [| tp totalpoints]; simpl;
    try apply finished_Return.
  apply finished_bind; [apply finished_strand_step | intros r _].
  apply finished_bind; [apply IH | intros; apply finished_Return].
Qed.

Lemma finished_next_time L indices : finished (next_time L indices).
Proof. unfold next_time. repeat finished_step. Qed.

(** A pass moves no index back, moves the index of a strand by one at
    most, and does move the index of a strand that has a sample at the
    time of the pass. *)
Lemma strand_step_index i val ix tp ix' tp' :
  strand_step i val ix tp = Return (ix', tp') ->
  (ix < length val)%nat /\ (ix <= ix' <= S ix)%nat /\
  ((exists s, nth_error val ix = Some s /\ fst s = i) -> ix' = S ix).
Proof.
  unfold strand_step. intros H.
  apply bind_Return_inv in H. destruct H as (cur & Ecur & H).
  apply index_Return in Ecur.
  split; [apply nth_error_Some; congruence |].
  destruct (Qltb i (fst cur)) eqn:E.
  - apply bind_Return_inv in H. destruct H as (prev & _ & H).
    apply bind_Return_inv in H. destruct H as (p & _ & H).
    inversion H; subst. split; [lia |].
    intros (s & Hs & Heq). rewrite Ecur in Hs. inversion Hs; subst.
    apply Qltb_lt in E. exfalso. apply (Qlt_irrefl _ E).
  - inversion H; subst. split; [lia | reflexivity].
Qed.

Lemma for_strands_slack i L : forall indices totalpoints indices' totalpoints',
    for_strands i L indices totalpoints = Return (indices', totalpoints') ->
    (slack L indices' <= slack L indices)%nat /\
    (hits i L indices -> (slack L indices' < slack L indices)%nat).
Proof.
  induction L as [| val L IH]; intros [| ix indices] [| tp totalpoints] indices' totalpoints' H;
    simpl in H;
    try solve [inversion H; subst; unfold slack, hits; simpl; split;
               [lia | intros Hh; inversion Hh]].
  - inversion H; subst. split; [unfold slack; simpl; lia |].
    intros Hh. pose proof (hits_slack _ _ _ Hh) as Hs.
    unfold slack in *. simpl in *. lia.
  - apply bind_Return_inv in H. destruct H as ([ix1 tp1] & E1 & H).
    apply bind_Return_inv in H. destruct H as ([is1 tps1] & E2 & H).
    inversion H; subst.
    destruct (strand_step_index _ _ _ _ _ _ E1) as (Hlen & Hix & Hhit).
    destruct (IH _ _ _ _ E2) as (Hle & Hlt).
    unfold slack, hits in *. simpl in *.
    split; [lia |].
    intros Hh. inversion Hh as [? ? Hhd | ? ? Htl]; subst.
    + simpl in Hhd. rewrite (Hhit Hhd). lia.
    + specialize (Hlt Htl). lia.
Qed.

Lemma next_times_hit L : forall indices ts,
    mapM (fun vi => s <- index (fst vi) (snd vi) ;; Return (fst s)) (combine L indices)
    = Return ts ->
    forall t, In t ts -> hits t L indices.
Proof.
  unfold hits.
  induction L as [| val L IH]; intros [| ix indices] ts H t Ht; simpl in H;
    try (inversion H; subst; inversion Ht).
  apply bind_Return_inv in H. destruct H as (t0 & E0 & H).
  apply bind_Return_inv in H. destruct H as (ts' & E' & H).
  inversion H; subst. simpl.
  apply bind_Return_inv in E0. destruct E0 as (s & Es & E0). inversion E0; subst.
  apply index_Return in Es. simpl in Es.
  destruct Ht as [<- | Ht].
  - left. simpl. exists s. auto.
  - right. apply (IH _ _ E' _ Ht).
Qed.

Lemma next_time_hit L indices i :
  next_time L indices = Return i -> hits i L indices.
Proof.
  unfold next_time. intros H.
  apply bind_Return_inv in H. destruct H as (ts & Ets & H).
  destruct ts as [| t ts]; [discriminate |]. inversion H; subst.
  apply (next_times_hit _ _ _ Ets). apply Qmin_from_in.
Qed.

(** The loop ends within as many passes as there are samples ahead. *)
Lemma resample_loop_finished L :
  forall fuel i indices totalpoints,
    hits i L indices -> (slack L indices <= fuel)%nat ->
    finished (resample_loop fuel L i indices totalpoints).
Proof.
  induction fuel as [| fuel IH]; intros i indices totalpoints Hhit Hfuel.
  - pose proof (hits_slack _ _ _ Hhit). lia.
  - simpl. destruct (Qltb i 1); [| apply finished_Return].
    destruct (for_strands i L indices totalpoints) as [[is' tps'] | e |] eqn:E.
    + simpl. destruct (for_strands_slack _ _ _ _ _ _ E) as (_ & Hlt).
      specialize (Hlt Hhit).
      destruct (next_time L is') as [i' | e |] eqn:E'; simpl.
      * apply IH; [apply (next_time_hit _ _ _ E') | lia].
      * apply finished_Raise.
      * exfalso. destruct (finished_next_time L is') as [(a & Ha) | (e & He)]; congruence.
    + apply finished_Raise.
    + exfalso. destruct (finished_for_strands i L indices totalpoints) as [(a & Ha) | (e & He)];
        congruence.
Qed.

(** X1. Whatever the strands, well formed or not, the [while] loop of
    [braid_from_piecewise] ends: with fuel for as many passes as the
    strands have samples, the part of the function that resamples the
    strands returns its rows or raises an exception.  Every pass moves
    on the index of the strand whose next sample is the earliest. *)
Theorem resampling_loop_finishes (strands : list strand) (more : nat) :
  finished (resample (length (concat strands) + more) strands).
Proof.
  unfold resample.
  rewrite PartitionFacts.first_times_eq.
  destruct (mapM (fun vi => s <- index (fst vi) (snd vi) ;; Return (fst s))
                 (combine strands (map (fun _ => 1%nat) strands)))
    as [ts | e |] eqn:Ets; simpl; [| apply finished_Raise |].
  - destruct (pymin ts) as [i | e |] eqn:Ei; simpl;
      [| apply finished_Raise | destruct ts; discriminate].
    assert (Hhit : hits i strands (map (fun _ => 1%nat) strands)).
    { apply next_time_hit. unfold next_time. rewrite Ets. simpl. exact Ei. }
    apply finished_bind; [repeat finished_step | intros tps _].
    apply finished_bind; [| intros tps' _; repeat finished_step].
    apply resample_loop_finished; [exact Hhit |].
    pose proof (PartitionFacts.slack_ones strands). lia.
  - exfalso.
    destruct (finished_mapM _ _ (fun vi : list (Q * complex) * nat =>
                                   s <- index (fst vi) (snd vi) ;; Return (fst s))
                            (combine strands (map (fun _ => 1%nat) strands)))
      as [(a & Ha) | (e & He)]; try congruence.
    intros vi. repeat finished_step.
Qed.
End TerminationFacts.

(** ** Inputs that braid_from_piecewise refuses *)
Module EdgeFacts.
Import Follow Segment Discrim Fundamental Coverage.

Lemma short_strand_IndexError (L : list strand) :
  Exists (fun val => length val < 2)%nat L ->
  mapM (fun val => s <- index val 1 ;; Return (fst s)) L = Raise IndexError.
Proof.
  induction L as [| val L IH]; intros H; [inversion H |].
  simpl. unfold index at 1.
  destruct (nth_error val 1) as [s |] eqn:E; simpl; [| reflexivity].
  inversion H as [? ? Hshort | ? ? Hrest]; subst.
  - exfalso. assert (Hlen : (1 < length val)%nat) by (apply nth_error_Some; congruence). lia.
  - rewrite (IH Hrest). reflexivity.
Qed.

Lemma unpack2_refuses (A : Type) (t : list A) :
  length t <> 2%nat -> unpack2 t = Raise UnpackError.
Proof.
  destruct t as [| a [| b [| c t]]]; simpl; intros H; try reflexivity. congruence.
Qed.

(** X2. [braid_from_piecewise] raises the error of [min] on an empty
    sequence when it is given no strand, and an index error when some
    strand has fewer than two samples; [followstrand] and
    [braid_in_segment] raise the error of the assignment of the variables
    on a polynomial whose [variables()] are not two; and on a polynomial
    in both variables that has no root above the start of the segment
    [braid_in_segment] raises the error of [min]. *)
Theorem strands_refused :
  (forall fuel, Whole.braid_from_piecewise fuel [] = Raise EmptySequence) /\
  (forall fuel strands,
      Exists (fun val => length val < 2)%nat strands ->
      Whole.braid_from_piecewise fuel strands = Raise IndexError) /\
  (forall (P : Polynomials) (S : Sirocco poly) (R : Fibers poly) fuel (f : poly) x0 x1,
      length (variables f) <> 2%nat ->
      Whole.braid_in_segment fuel f x0 x1 = Raise UnpackError /\
      forall y0a prec,
        Whole.followstrand (Datatypes.S fuel) f x0 x1 y0a prec = Raise UnpackError) /\
  (forall (P : Polynomials) (S : Sirocco poly) (R : Fibers poly) fuel (f : poly) x0 x1,
      length (variables f) = 2%nat -> fiber_roots f x0 = [] ->
      Whole.braid_in_segment fuel f x0 x1 = Raise EmptySequence).
Proof.
  split; [| split; [| split]].
  - intros fuel. reflexivity.
  - intros fuel strands H.
    unfold Whole.braid_from_piecewise, braid_from_piecewise, resample.
    rewrite (short_strand_IndexError _ H). reflexivity.
  - intros P S R fuel f x0 x1 H. split.
    + unfold Whole.braid_in_segment. rewrite (unpack2_refuses _ _ H). reflexivity.
    + intros y0a prec. simpl. rewrite (unpack2_refuses _ _ H). reflexivity.
  - intros P S R fuel f x0 x1 Hxy H. unfold Whole.braid_in_segment.
    destruct (variables f) as [| x [| y [| z t]]]; simpl in Hxy; try lia.
    simpl. rewrite H. reflexivity.
Qed.

Section EdgeFacts.
Context {P : Polynomials} {E : Elimination P} {C : Curves P}
        {S : Sirocco poly} {R : Fibers poly} {V : Geometry QQbar}
        {G : Groups} {T : Runtime}.

(** X10. A polynomial whose [variables()] are not two, as when only one
    of the variables of the ring occurs in it, is refused by [discrim]
    and by [fundamental_group]: the assignment [(x, y) = f.variables()]
    raises, before anything is computed. *)
Theorem one_variable_refused (f : poly) :
  length (variables f) <> 2%nat ->
  discrim f = Raise UnpackError /\
  forall fuel simplified projective,
    fundamental_group fuel f simplified projective = Raise UnpackError.
Proof.
  intros H. split.
  - unfold discrim. rewrite (unpack2_refuses _ _ H). reflexivity.
  - intros fuel simplified projective. unfold fundamental_group.
    rewrite (unpack2_refuses _ _ H). reflexivity.
Qed.
End EdgeFacts.
End EdgeFacts.

(** ** How many crossings, and when *)
Module CrossingBounds.
Import Trace OrderFacts WordFacts Coverage.

Lemma crossing_length (l1 l2 : list point) (j k : nat) cs :
  crossing l1 l2 j k = Return cs -> (length cs <= 1)%nat.
Proof.
  unfold crossing. intros H.
  apply bind_Return_inv in H. destruct H as (l2j & _ & H).
  apply bind_Return_inv in H. destruct H as (l2k & _ & H).
  destruct (ltb_of point_compare l2j l2k); [| inversion H; simpl; lia].
  apply bind_Return_inv in H. destruct H as (l1j & _ & H).
  apply bind_Return_inv in H. destruct H as (l1k & _ & H).
  destruct (Qeqb _ 0); [discriminate | inversion H; simpl; lia].
Qed.

Lemma mapM_concat_length (A B : Type) (f : A -> outcome (list B)) (g : A -> nat)
      (l : list A) (rows : list (list B)) :
  (forall a bs, In a l -> f a = Return bs -> (length bs <= g a)%nat) ->
  mapM f l = Return rows -> (length (concat rows) <= list_sum (map g l))%nat.
Proof.
  revert rows. induction l as [| a l IH]; simpl; intros rows Hf H.
  - inversion H. simpl. lia.
  - apply bind_Return_inv in H. destruct H as (bs & Ebs & H).
    apply bind_Return_inv in H. destruct H as (rest & Erest & H).
    inversion H; subst. simpl. rewrite length_app.
    pose proof (Hf a bs (or_introl eq_refl) Ebs).
    assert (length (concat rest) <= list_sum (map g l))%nat.
    { apply IH; [| exact Erest]. intros a' bs' Hin; apply Hf; right; exact Hin. }
    lia.
Qed.

Lemma sum_ones (a k : nat) : list_sum (map (fun _ => 1%nat) (seq a k)) = k.
Proof. revert a. induction k as [| k IH]; intros a; simpl; [| rewrite IH]; reflexivity. Qed.

Lemma sum_below (n : nat) : (2 * list_sum (map (fun j => j) (seq 0 n)) = n * (n - 1))%nat.
Proof.
  induction n as [| n IH]; [reflexivity |].
  rewrite seq_S, map_app, list_sum_app. simpl.
  destruct n as [| n]; [reflexivity |].
  replace (S n - 1)%nat with n in IH by lia.
  replace (S n - 0)%nat with (S n) by lia. nia.
Qed.

(** Among [n] strands no more than [n (n - 1) / 2] pairs cross. *)
Lemma find_cruces_length (l1 l2 : list point) cruces :
  find_cruces l1 l2 = Return cruces ->
  (2 * length cruces <= length l2 * (length l2 - 1))%nat.
Proof.
  unfold find_cruces. intros H.
  apply bind_Return_inv in H. destruct H as (rows & E & H). inversion H; subst.
  rewrite <- sum_below.
  assert (length (concat rows) <= list_sum (map (fun j => j) (seq 0 (length l2))))%nat;
    [| lia].
  apply (mapM_concat_length _ _ _ _ _ _) with (2 := E).
  intros j cs _ Hcs.
  apply bind_Return_inv in Hcs. destruct Hcs as (rows' & E' & Hcs). inversion Hcs; subst.
  rewrite <- (sum_ones 0 j).
  apply (mapM_concat_length _ _ _ _ _ _) with (2 := E').
  intros k cs' _ Hcs'. apply (crossing_length _ _ _ _ _ Hcs').
Qed.

Lemma run_length (order : list cruce) : forall P, length (run P order) = length order.
Proof. induction order as [| c order IH]; intros P; simpl; [| rewrite IH]; reflexivity. Qed.

Lemma interval_length (totalpoints : list (list point)) (n i : nat) braid braid' :
  interval totalpoints n braid i = Return braid' ->
  (2 * length braid' <= 2 * length braid + n * (n - 1))%nat.
Proof.
  intros H.
  destruct (interval_order _ _ _ _ _ H)
    as (l1 & l2 & cruces & order & E1 & E2 & E3 & Hp & _ & _ & ->).
  rewrite length_app, run_length, (Permutation_length Hp).
  apply find_cruces_length in E3.
  assert (Hn : length (snd (sorted_columns l1 l2)) = n).
  { unfold sorted_columns. simpl. rewrite length_map, sort_length, length_combine.
    apply mapM_Return_length in E1. apply mapM_Return_length in E2.
    rewrite length_seq in E1, E2. lia. }
  rewrite Hn in E3. lia.
Qed.

Lemma intervals_length (totalpoints : list (list point)) (n : nat) (ivals : list nat) :
  forall braid w,
    intervals totalpoints n braid ivals = Return w ->
    (2 * length w <= 2 * length braid + length ivals * (n * (n - 1)))%nat.
Proof.
  induction ivals as [| i ivals IH]; simpl; intros braid w H.
  - inversion H; subst. lia.
  - apply bind_Return_inv in H. destruct H as (braid' & E & H).
    apply interval_length in E. apply IH in H. lia.
Qed.


(** *** The time of a crossing *)

Lemma segment_compare_le (a b : point * point) :
  segment_compare a b <> Gt -> fst (fst a) <= fst (fst b).
Proof.
  unfold segment_compare, point_compare, lex.
  destruct (Qcompare_spec (fst (fst a)) (fst (fst b))) as [E | E | E]; intros H;
    try lra. congruence.
Qed.

Lemma segment_compare_gt (a b : point * point) :
  segment_compare a b = Gt -> fst (fst b) <= fst (fst a).
Proof.
  unfold segment_compare, point_compare, lex.
  destruct (Qcompare_spec (fst (fst a)) (fst (fst b))) as [E | E | E]; intros H;
    try lra. congruence.
Qed.

Lemma sorted_map_fst (M : list (point * point)) :
  StronglySorted (fun a b => fst (fst a) <= fst (fst b)) M ->
  StronglySorted (fun p q : point => fst p <= fst q) (map fst M).
Proof.
  induction 1 as [| a M Hs IH Ha]; simpl; constructor; [exact IH |].
  apply Forall_map. exact Ha.
Qed.

(** The first column starts each strand no further right than the
    strands after it. *)
Lemma sorted_columns_sorted (l1 l2 : list point) :
  StronglySorted (fun p q : point => fst p <= fst q) (fst (sorted_columns l1 l2)).
Proof.
  unfold sorted_columns. simpl. apply sorted_map_fst.
  apply (sort_strongly_sorted _ segment_compare _ segment_compare_le segment_compare_gt).
  intros a b c; apply Qle_trans.
Qed.

Lemma sorted_nth (l : list point) :
  StronglySorted (fun p q : point => fst p <= fst q) l ->
  forall k j p q, (k < j)%nat -> nth_error l k = Some p -> nth_error l j = Some q ->
                  fst p <= fst q.
Proof.
  induction 1 as [| a l Hs IH Ha]; intros k j p q Hkj Hp Hq.
  - destruct k; discriminate.
  - destruct j as [| j]; [lia |]. simpl in Hq.
    destruct k as [| k]; simpl in Hp.
    + inversion Hp; subst. rewrite Forall_forall in Ha. apply Ha.
      apply (nth_error_In _ _ Hq).
    + apply (IH k j); [lia | assumption | assumption].
Qed.

Lemma point_compare_Lt (p q : point) : ltb_of point_compare p q = true -> fst p <= fst q.
Proof.
  unfold ltb_of, point_compare, lex.
  destruct (Qcompare_spec (fst p) (fst q)) as [E | E | E]; intros H; try lra;
    try discriminate.
Qed.

(** One pair of strands whose first column is in order. *)
Lemma crossing_time (l1 l2 : list point) (j k : nat) :
  StronglySorted (fun p q : point => fst p <= fst q) l1 -> (k < j)%nat ->
  (forall cs, crossing l1 l2 j k = Return cs -> Forall (fun c => 0 <= time c <= 1) cs) /\
  (crossing l1 l2 j k = Raise ZeroDivisionError ->
   exists p1k p1j p2k p2j,
     nth_error l1 k = Some p1k /\ nth_error l1 j = Some p1j /\
     nth_error l2 k = Some p2k /\ nth_error l2 j = Some p2j /\
     fst p1k == fst p1j /\ fst p2k == fst p2j /\ snd p2j < snd p2k).
Proof.
  intros Hs Hkj. unfold crossing, index.
  destruct (nth_error l2 j) as [l2j |] eqn:E2j; simpl; [| split; discriminate].
  destruct (nth_error l2 k) as [l2k |] eqn:E2k; simpl; [| split; discriminate].
  destruct (ltb_of point_compare l2j l2k) eqn:Ecmp;
    [| split; [intros cs H; inversion H; constructor | discriminate]].
  destruct (nth_error l1 j) as [l1j |] eqn:E1j; simpl; [| split; discriminate].
  destruct (nth_error l1 k) as [l1k |] eqn:E1k; simpl; [| split; discriminate].
  pose proof (sorted_nth _ Hs _ _ _ _ Hkj E1k E1j) as H1.
  pose proof (point_compare_Lt _ _ Ecmp) as H2.
  destruct (Qeqb (fst l2k - fst l1k + fst l1j - fst l2j) 0) eqn:Ez.
  - apply Qeqb_eq in Ez. split; [discriminate | intros _].
    exists l1k, l1j, l2k, l2j. repeat (split; [reflexivity |]).
    assert (Hre : fst l2j == fst l2k) by lra.
    split; [lra |]. split; [lra |].
    unfold ltb_of, point_compare, lex in Ecmp.
    destruct (Qcompare_spec (fst l2j) (fst l2k)) as [E | E | E]; try lra; try discriminate.
    destruct (Qcompare_spec (snd l2j) (snd l2k)) as [E' | E' | E']; try discriminate.
    exact E'.
  - apply Qeqb_neq in Ez. split; [| discriminate].
    intros cs H. inversion H; subst. constructor; [| constructor].
    unfold time.
    assert (Hden : 0 < fst l2k - fst l1k + fst l1j - fst l2j).
    { destruct (Qlt_le_dec 0 (fst l2k - fst l1k + fst l1j - fst l2j)) as [Hlt | Hge];
        [exact Hlt |].
      exfalso. apply Ez. lra. }
    split.
    + apply Qle_shift_div_l; [exact Hden | lra].
    + apply Qle_shift_div_r; [exact Hden | lra].
Qed.

(** X4. In every interval the detected crossings have their time
    between 0 and 1, the two ends of the interval; and the crossing stage
    divides by zero only on two strands that have the same real part at
    both ends of the interval and exchange the order of their imaginary
    parts. *)
Theorem crossing_times (l1 l2 : list point) :
  let c1 := fst (sorted_columns l1 l2) in
  let c2 := snd (sorted_columns l1 l2) in
  (forall cruces, find_cruces c1 c2 = Return cruces ->
                  Forall (fun c => 0 <= time c <= 1) cruces) /\
  (find_cruces c1 c2 = Raise ZeroDivisionError ->
   exists k j p1k p1j p2k p2j,
     (k < j)%nat /\
     nth_error c1 k = Some p1k /\ nth_error c1 j = Some p1j /\
     nth_error c2 k = Some p2k /\ nth_error c2 j = Some p2j /\
     fst p1k == fst p1j /\ fst p2k == fst p2j /\ snd p2j < snd p2k).
Proof.
  intros c1 c2.
  pose proof (sorted_columns_sorted l1 l2) as Hs. fold c1 in Hs.
  unfold find_cruces. split.
  - intros cruces H.
    apply bind_Return_inv in H. destruct H as (rows & E & H). inversion H; subst.
    apply (LetterFacts.mapM_concat_Forall _ _ _ _ _ _) with (2 := E).
    intros j cs Hj Hcs. apply in_seq in Hj.
    apply bind_Return_inv in Hcs. destruct Hcs as (rows' & E' & Hcs). inversion Hcs; subst.
    apply (LetterFacts.mapM_concat_Forall _ _ _ _ _ _) with (2 := E').
    intros k cs' Hk Hcs'. apply in_seq in Hk.
    apply (proj1 (crossing_time c1 c2 j k Hs ltac:(lia)) _ Hcs').
  - intros H.
    apply bind_Raise_inv in H. destruct H as [H | (rows & _ & H)]; [| discriminate].
    apply mapM_Raise_inv in H. destruct H as (j & Hj & H). apply in_seq in Hj.
    apply bind_Raise_inv in H. destruct H as [H | (rows & _ & H)]; [| discriminate].
    apply mapM_Raise_inv in H. destruct H as (k & Hk & H). apply in_seq in Hk.
    destruct (proj2 (crossing_time c1 c2 j k Hs ltac:(lia)) H)
      as (p1k & p1j & p2k & p2j & Hrest).
    exists k, j, p1k, p1j, p2k, p2j. split; [lia | exact Hrest].
Qed.
End CrossingBounds.

(** ** The resampled points lie on the strands *)
Module SamplingFacts.
Import ResampleInv ResampleFacts PartitionFacts Coverage.

Lemma on_strand_between (val : strand) (n : nat) (a b : sample) (t : Q) :
  nth_error val n = Some a -> nth_error val (S n) = Some b ->
  fst a <= t -> t <= fst b -> fst a < fst b ->
  on_strand val t
            (pt (mkC (real (snd a) + (real (snd b) - real (snd a)) * (t - fst a) / (fst b - fst a))
                     (imag (snd a) + (imag (snd b) - imag (snd a)) * (t - fst a) / (fst b - fst a)))).
Proof.
  intros Ha Hb H1 H2 H3. exists n, a, b. unfold pt. simpl.
  repeat split; try assumption; apply Qeq_refl.
Qed.

Lemma on_strand_right (val : strand) (n : nat) (a b : sample) (t : Q) :
  nth_error val n = Some a -> nth_error val (S n) = Some b ->
  fst a < fst b -> t == fst b -> on_strand val t (pt (snd b)).
Proof.
  intros Ha Hb H1 H2. exists n, a, b. unfold pt. simpl.
  repeat split; try assumption; try lra; rewrite H2; field; lra.
Qed.

Lemma on_strand_left (val : strand) (n : nat) (a b : sample) (t : Q) :
  nth_error val n = Some a -> nth_error val (S n) = Some b ->
  fst a < fst b -> t == fst a -> on_strand val t (pt (snd a)).
Proof.
  intros Ha Hb H1 H2. exists n, a, b. unfold pt. simpl.
  repeat split; try assumption; try lra; rewrite H2; field; lra.
Qed.

Lemma strand_step_sampled (val : strand) (i : Q) (vis : list Q) (ix : nat)
      (tp : list point) (ix' : nat) (tp' : list point) :
  well_formed val -> before i vis val ix tp -> sampled val vis tp ->
  strand_step i val ix tp = Return (ix', tp') -> sampled val (vis ++ [i]) tp'.
Proof.
  intros Hwf (H1 & Hlen & Hprev & Hcur & Htp & Hcov) Hsam H.
  destruct Hwf as (Hlen2 & Hs & _).
  destruct (wf_nth val ix Hlen) as (cur & Ecur).
  destruct (wf_nth val (ix - 1)) as (prev & Eprev); [lia |].
  pose proof (Hprev _ Eprev) as Hp. pose proof (Hcur _ Ecur) as Hc. simpl in Hp, Hc.
  assert (Ecur' : nth_error val (S (ix - 1)) = Some cur)
    by (replace (S (ix - 1)) with ix by lia; exact Ecur).
  pose proof (sorted_nth_lt val Hs (ix - 1) ix _ _ ltac:(lia) Eprev Ecur) as Hlt.
  unfold strand_step, index in H. rewrite Ecur in H. simpl in H.
  destruct (Qltb i (fst cur)) eqn:E.
  - rewrite Eprev in H. simpl in H. unfold interpolate in H.
    destruct (Qeqb (fst cur - fst prev) 0); [discriminate |].
    simpl in H. inversion H; subst.
    apply Forall2_app; [exact Hsam |]. constructor; [| constructor].
    apply (on_strand_between val (ix' - 1) prev cur i); try assumption; lra.
  - apply Qltb_ge in E. inversion H; subst.
    apply Forall2_app; [exact Hsam |]. constructor; [| constructor].
    apply (on_strand_right val (ix - 1) prev cur i); try assumption; lra.
Qed.

Lemma for_strands_sampled (i : Q) (vis : list Q) L indices totalpoints :
  Forall well_formed L -> rows (before i vis) L indices totalpoints ->
  rows (fun val _ tp => sampled val vis tp) L indices totalpoints ->
  forall indices' totalpoints',
    for_strands i L indices totalpoints = Return (indices', totalpoints') ->
    rows (fun val _ tp => sampled val (vis ++ [i]) tp) L indices' totalpoints'.
Proof.
  intros Hwf H. induction H as [| val ix tp L indices totalpoints HP H IH];
    intros Hsam indices' totalpoints' E.
  - simpl in E. inversion E; subst. constructor.
  - inversion Hwf as [| ? ? Hval HL]; subst.
    inversion Hsam as [| ? ? ? ? ? ? Hs Hrest]; subst.
    simpl in E.
    apply bind_Return_inv in E. destruct E as ([ix' tp'] & E1 & E).
    apply bind_Return_inv in E. destruct E as ([ixs tps] & E2 & E).
    inversion E; subst. simpl. constructor.
    + apply (strand_step_sampled val i vis ix tp ix' tp' Hval HP Hs E1).
    + apply (IH HL Hrest _ _ E2).
Qed.

Lemma initial_sampled (L : list strand) :
  Forall well_formed L ->
  forall totalpoints,
    mapM (fun a => s <- index a 0 ;; Return [pt (snd s)]) L = Return totalpoints ->
    rows (fun val _ tp => sampled val ([] ++ [0]) tp) L (map (fun _ => 1%nat) L) totalpoints.
Proof.
  induction 1 as [| val L Hval HL IH]; simpl; intros totalpoints E.
  - inversion E; subst. constructor.
  - apply bind_Return_inv in E. destruct E as (row & E1 & E).
    apply bind_Return_inv in E. destruct E as (rest & E2 & E).
    inversion E; subst. constructor; [| apply IH; exact E2].
    pose proof Hval as (Hlen & Hs & _).
    destruct (wf_nth val 0) as (s0 & E0); [lia |].
    destruct (wf_nth val 1) as (s1 & E1'); [lia |].
    unfold index in E1. rewrite E0 in E1. simpl in E1. inversion E1; subst.
    constructor; [| constructor].
    apply (on_strand_left val 0 s0 s1 0 E0 E1').
    + apply (sorted_nth_lt val Hs 0 1 _ _ ltac:(lia) E0 E1').
    + symmetry. apply (wf_first val Hval _ E0).
Qed.

(** The loop keeps, besides its bookkeeping, every row on its strand. *)
Lemma resample_loop_sampled (L : list strand) :
  L <> [] -> Forall well_formed L ->
  forall fuel i vis indices totalpoints,
    rows (before i vis) L indices totalpoints ->
    rows (fun val _ tp => sampled val vis tp) L indices totalpoints ->
    hits i L indices -> visited L i vis -> i <= 1 ->
    (slack L indices <= fuel)%nat ->
    exists totalpoints' vis' indices',
      resample_loop fuel L i indices totalpoints = Return totalpoints' /\
      rows (before 1 vis') L indices' totalpoints' /\
      rows (fun val _ tp => sampled val vis' tp) L indices' totalpoints' /\
      visited L 1 vis'.
Proof.
  intros Hne Hwf. induction fuel as [| fuel IH];
    intros i vis indices totalpoints Hrows Hsam Hhit Hvis Hle Hfuel.
  - pose proof (hits_slack _ _ _ Hhit). lia.
  - simpl. destruct (Qltb i 1) eqn:E.
    + apply Qltb_lt in E.
      destruct (for_strands_spec i vis L indices totalpoints Hwf Hrows E)
        as (indices' & totalpoints' & E1 & Hafter & _ & Hdec).
      specialize (Hdec Hhit).
      pose proof (for_strands_sampled i vis L indices totalpoints Hwf Hrows Hsam _ _ E1)
        as Hsam'.
      rewrite E1. simpl.
      destruct (next_time_spec i vis L indices' totalpoints' Hne Hwf Hafter)
        as (i' & E2 & Hlt & Hle' & Hbefore & Hhit' & Hocc).
      rewrite E2. simpl.
      apply (IH i' (vis ++ [i])); try assumption; [| lia].
      destruct Hvis as (Hs & Hall & Hoc).
      assert (Hi_occ : occurs L i).
      { apply Exists_exists in Hhit. destruct Hhit as (vi & Hin & s & Hs' & Heq).
        exists (fst vi), (fst s). split.
        - destruct vi as [v n]. apply in_combine_l in Hin. exact Hin.
        - split; [| rewrite Heq; apply Qeq_refl].
          apply nth_error_In with (n := snd vi). apply times_nth; exact Hs'. }
      split; [| split].
      * apply sorted_snoc; assumption.
      * apply Forall_app; split.
        { eapply Forall_impl; [| exact Hall]. simpl. intros; lra. }
        { repeat constructor. exact Hlt. }
      * apply Forall_app; split; [exact Hoc |]. repeat constructor. exact Hi_occ.
    + apply Qltb_ge in E.
      exists totalpoints, vis, indices. split; [reflexivity |]. split; [| split].
      * eapply rows_impl; [| exact Hrows].
        intros val ix tp _ (H1 & H2 & H3 & H4 & H5 & H6).
        repeat split; try assumption.
        { intros s Hs. specialize (H3 s Hs). simpl in *. lra. }
        { intros s Hs. specialize (H4 s Hs). simpl in *. lra. }
        { intros t Ht Hlt. apply H6; [exact Ht | lra]. }
      * exact Hsam.
      * destruct Hvis as (Hs & Hall & Hoc). repeat split; try assumption.
        eapply Forall_impl; [| exact Hall]. simpl. intros; lra.
Qed.

Lemma final_sampled (vis : list Q) L indices totalpoints :
  Forall well_formed L ->
  rows (fun val _ tp => sampled val vis tp) L indices totalpoints ->
  exists final,
    mapM (fun vt => s <- index_last (fst vt) ;; Return (snd vt ++ [pt (snd s)]))
         (combine L totalpoints) = Return final /\
    Forall2 (fun val row => sampled val (vis ++ [1]) row) L final.
Proof.
  intros Hwf H. induction H as [| val ix tp L indices totalpoints Hv H IH].
  - exists []. split; [reflexivity | constructor].
  - inversion Hwf as [| ? ? Hval HL]; subst.
    destruct (IH HL) as (final & E & Hall).
    pose proof Hval as (Hlen & Hs & _).
    destruct (wf_nth val (length val - 1)) as (b & Eb); [lia |].
    destruct (wf_nth val (length val - 2)) as (a & Ea); [lia |].
    assert (Eb' : nth_error val (S (length val - 2)) = Some b)
      by (replace (S (length val - 2)) with (length val - 1)%nat by lia; exact Eb).
    assert (Elast : index_last val = Return b).
    { unfold index_last. clear - Eb Hlen.
      destruct (exists_last (l := val)) as (val' & s & Heq).
      { intros ->; simpl in Hlen; lia. }
      subst val. rewrite rev_app_distr. simpl.
      rewrite length_app in Eb. simpl in Eb.
      replace (length val' + 1 - 1)%nat with (length val') in Eb by lia.
      rewrite nth_error_app2 in Eb by lia. rewrite Nat.sub_diag in Eb.
      simpl in Eb. inversion Eb; reflexivity. }
    exists ((tp ++ [pt (snd b)]) :: final). simpl. rewrite Elast. simpl. rewrite E. simpl.
    split; [reflexivity |]. constructor; [| exact Hall].
    apply Forall2_app; [exact Hv |]. constructor; [| constructor].
    apply (on_strand_right val (length val - 2) a b 1 Ea Eb').
    + apply (sorted_nth_lt val Hs (length val - 2) (length val - 1) _ _ ltac:(lia) Ea Eb).
    + symmetry. apply (wf_last val Hval _ Eb).
Qed.

(** X5. On well-formed strands the first half of
    [braid_from_piecewise] returns, for every strand and in the order of
    the strands, one point for each time of the common partition, and
    that point is on the strand: the linear interpolation, at that time,
    of two consecutive samples whose times enclose it. *)
Theorem resample_on_strands (L : list strand) :
  L <> [] -> Forall well_formed L ->
  exists totalpoints partition,
    (forall fuel, (length (concat L) <= fuel)%nat -> resample fuel L = Return totalpoints) /\
    common_partition L partition /\
    Forall2 (fun val row => sampled val partition row) L totalpoints.
Proof.
  intros Hne Hwf.
  destruct (initial_rows L Hwf) as (tps0 & E0 & Hrows0).
  pose proof (initial_sampled L Hwf tps0 E0) as Hsam0.
  destruct (next_time_spec 0 [] L _ _ Hne Hwf Hrows0)
    as (i & Ei & Hi0 & Hi1 & Hbefore & Hhit & Hocc).
  assert (Hfirst : exists val, In val L)
    by (destruct L as [| v L]; [congruence | exists v; left; reflexivity]).
  destruct Hfirst as (v & Hv).
  assert (Hv_wf : well_formed v) by (rewrite Forall_forall in Hwf; apply Hwf; exact Hv).
  assert (Hvis : visited L i ([] ++ [0])).
  { simpl. split; [repeat constructor |]. split; [repeat constructor; exact Hi0 |].
    repeat constructor.
    destruct (wf_nth v 0) as (s0 & Es0); [destruct Hv_wf; lia |].
    exists v, (fst s0). split; [exact Hv |]. split.
    - apply nth_error_In with (n := 0%nat). apply times_nth; exact Es0.
    - apply (wf_first v Hv_wf _ Es0). }
  pose proof (slack_ones L) as Hslack.
  destruct (resample_loop_sampled L Hne Hwf (length (concat L)) i _ _ _
                                  Hbefore Hsam0 Hhit Hvis Hi1 Hslack)
    as (tps' & vis' & ix' & E' & Hrows & Hsam & Hs & Hall & Hoc).
  destruct (final_sampled vis' L ix' tps' Hwf Hsam) as (final & Ef & Hfin).
  exists final, (vis' ++ [1]). split; [| split].
  - intros fuel Hfuel. unfold resample.
    rewrite first_times_eq.
    unfold next_time in Ei. apply bind_Return_inv in Ei. destruct Ei as (ts & Ets & Emin).
    rewrite Ets. simpl. rewrite Emin. simpl. rewrite E0. simpl.
    rewrite (resample_loop_mono _ _ _ _ _ _ E' _ Hfuel). simpl. exact Ef.
  - split; [apply sorted_snoc; assumption |]. split.
    + apply Forall_app; split; [exact Hoc |]. repeat constructor.
      destruct (wf_nth v (length v - 1)) as (s1 & Es1); [destruct Hv_wf; lia |].
      exists v, (fst s1). split; [exact Hv |]. split.
      * apply nth_error_In with (n := (length v - 1)%nat). apply times_nth; exact Es1.
      * apply (wf_last v Hv_wf _ Es1).
    + intros val t Hval Ht.
      assert (Hval_wf : well_formed val) by (rewrite Forall_forall in Hwf; apply Hwf; exact Hval).
      pose proof (wf_le_1 val Hval_wf t Ht) as Hle.
      destruct (Qlt_le_dec t 1) as [Hlt | Hge].
      * destruct (rows_in _ _ _ _ val Hrows Hval) as (ix & tp & Hb).
        destruct Hb as (_ & _ & _ & _ & _ & Hcov).
        destruct (Hcov t Ht Hlt) as (t' & Hin & Heq).
        exists t'. split; [apply in_or_app; left; exact Hin | exact Heq].
      * exists 1. split; [apply in_or_app; right; left; reflexivity |].
        apply Qle_antisym; assumption.
  - exact Hfin.
Qed.
End SamplingFacts.

(** ** The strands of braid_in_segment *)
Module FibreFacts.
Import Follow Segment Trace MatchingFacts LetterFacts Coverage.

Lemma complex_eqb_refl (a : complex) : complex_eqb a a = true.
Proof. unfold complex_eqb. apply andb_true_iff. split; apply Qeqb_eq; apply Qeq_refl. Qed.

Lemma distinct_NoDup (l : list complex) : distinct l -> NoDup l.
Proof.
  induction l as [| a l IH]; simpl; intros H; [constructor |].
  destruct H as [Ha Hl]. constructor; [| apply IH; exact Hl].
  intros Hin. assert (Hm : mem a l = true).
  { apply mem_exists. exists a. split; [exact Hin | apply complex_eqb_refl]. }
  congruence.
Qed.

(** The roots matched are as many as the approximations, and no more
    than the roots there are. *)
Lemma matched_length (ys yaps used : list complex) :
  matched ys yaps used ->
  length used = length yaps /\ (length used <= length ys)%nat.
Proof.
  intros [Hn Hd]. split.
  - symmetry. apply (Forall2_length Hn).
  - apply NoDup_incl_length; [apply distinct_NoDup; exact Hd |].
    intros y Hy. destruct (Forall2_In_r _ _ _ _ _ _ Hn Hy) as (yap & _ & Ey).
    apply (nearest_spec _ _ _ Ey).
Qed.

Lemma letter_or_zero_app (n : nat) (u v w : list Z) :
  Forall (letter_or_zero n) u -> Forall (letter_or_zero n) v ->
  Forall (letter_or_zero n) w -> Forall (letter_or_zero n) (u ++ v ++ w).
Proof. intros Hu Hv Hw. apply Forall_app; split; [| apply Forall_app; split]; assumption. Qed.

Section FibreFacts.
Context {poly : Type} {S : Sirocco poly} {R : Fibers poly}.

(** X6. When [braid_in_segment] returns a braid, the three braids it
    multiplies are on the same number [n] of strands, the number of roots
    of [f] above [x0]: [n] is at least one, the polynomial has at least
    [n] roots above [x1], and every letter of the word returned is zero or
    has its position between [1] and [n - 1]. *)
Theorem braid_in_segment_strands (fuel : nat) (f : poly) (x0 x1 : complex) (w : list Z) :
  braid_in_segment fuel f x0 x1 = Return w ->
  (1 <= length (fiber_roots f x0) <= length (fiber_roots f x1))%nat /\
  Forall (letter_or_zero (length (fiber_roots f x0))) w.
Proof.
  unfold braid_in_segment. intros H.
  apply bind_Return_inv in H. destruct H as (strands & Es & H).
  apply bind_Return_inv in H. destruct H as (central & Ec & H).
  apply bind_Return_inv in H. destruct H as (y0aps & E0 & H).
  apply bind_Return_inv in H. destruct H as ([used0 initial] & Ei & H).
  apply bind_Return_inv in H. destruct H as (initialbraid & Eib & H).
  apply bind_Return_inv in H. destruct H as (y1aps & E1 & H).
  apply bind_Return_inv in H. destruct H as ([used1 final] & Ef & H).
  apply bind_Return_inv in H. destruct H as (finalbraid & Efb & H).
  inversion H; subst w; clear H. simpl in Eib, Efb.
  apply mapM_Return_length in Es. apply mapM_Return_length in E0.
  apply mapM_Return_length in E1. rewrite length_map in E0, E1.
  destruct (match_roots_matched _ _ _ _ _ Ei) as (Hm0 & ->).
  destruct (match_roots_matched _ _ _ _ _ Ef) as (Hm1 & ->).
  destruct (matched_length _ _ _ Hm0) as (Hl0 & _).
  destruct (matched_length _ _ _ Hm1) as (Hl1 & Hle1).
  set (n := length (fiber_roots f x0)) in *.
  assert (Hn : (1 <= n)%nat).
  { destruct (fiber_roots f x0) as [| y ys] eqn:Ey; [| simpl in n; lia].
    simpl in Es. destruct strands; [| discriminate]. simpl in Ec.
    destruct fuel; discriminate. }
  split; [lia |].
  apply letter_or_zero_app.
  - apply letters_in_range in Eib.
    rewrite length_map, length_combine in Eib.
    replace (Nat.min (length used0) (length y0aps)) with n in Eib by lia. exact Eib.
  - apply letters_in_range in Ec. rewrite length_map in Ec.
    replace (length strands) with n in Ec by lia. exact Ec.
  - apply letters_in_range in Efb.
    rewrite length_map, length_combine in Efb.
    replace (Nat.min (length used1) (length y1aps)) with n in Efb by lia. exact Efb.
Qed.
End FibreFacts.
End FibreFacts.

(** ** segments *)
Module SegmentsFacts.
Import Voronoi Coverage.

Lemma Qmax_from_spec (l : list Q) :
  forall m, In (Qmax_from m l) (m :: l) /\
            m <= Qmax_from m l /\ Forall (fun x => x <= Qmax_from m l) l.
Proof.
  induction l as [| x l IH]; intros m; simpl.
  - split; [left; reflexivity |]. split; [apply Qle_refl | constructor].
  - destruct (IH (if Qltb m x then x else m)) as (Hin & Hle & Hall).
    destruct (Qltb m x) eqn:E.
    + apply Qltb_lt in E. split; [right; exact Hin |].
      split; [lra |]. constructor; assumption.
    + apply Qltb_ge in E. split; [destruct Hin as [Hin | Hin]; auto |].
      split; [exact Hle |]. constructor; [lra | exact Hall].
Qed.

Lemma pymax_spec (l : list Q) (m : Q) :
  pymax l = Return m -> In m l /\ Forall (fun x => x <= m) l.
Proof.
  destruct l as [| x l]; simpl; intros H; [discriminate |].
  inversion H; subst. destruct (Qmax_from_spec l x) as (Hin & Hle & Hall).
  split; [exact Hin |]. constructor; assumption.
Qed.

Lemma vertex_Return (vertices : list point) (n : Z) (c : complex) :
  vertex vertices n = Return c -> nth_error vertices (Z.to_nat n) = Some (pt c).
Proof.
  unfold vertex. intros H.
  apply bind_Return_inv in H. destruct H as ([a b] & E & H).
  inversion H; subst. apply index_Return in E. exact E.
Qed.

(** The loop appends one segment for every bounded ridge, in the order
    of the ridges. *)
Lemma ridges_Return (vertices : list point) (ridge_vertices : list (list Z)) :
  forall res res',
    ridges vertices ridge_vertices res = Return res' ->
    exists new,
      res' = res ++ new /\
      Forall2 (ridge_ends vertices) (filter bounded_ridge ridge_vertices) new.
Proof.
  induction ridge_vertices as [| rv rest IH]; intros res res' H; simpl in H.
  - inversion H; subst. exists []. rewrite app_nil_r. split; [reflexivity | constructor].
  - simpl. unfold bounded_ridge at 1.
    destruct (negb (existsb (Z.eqb (-1)) rv)) eqn:E.
    + apply bind_Return_inv in H. destruct H as (rv0 & E0 & H).
      apply bind_Return_inv in H. destruct H as (p1 & E1 & H).
      apply bind_Return_inv in H. destruct H as (rv1 & E2 & H).
      apply bind_Return_inv in H. destruct H as (p2 & E3 & H).
      destruct (IH _ _ H) as (new & -> & Hnew).
      exists ((p1, p2) :: new). rewrite <- app_assoc. split; [reflexivity |].
      constructor; [| exact Hnew].
      exists rv0, rv1. simpl.
      split; [apply index_Return in E0; exact E0 |].
      split; [apply index_Return in E2; exact E2 |].
      split; apply vertex_Return; assumption.
    + apply (IH _ _ H).
Qed.

Section SegmentsFacts.
Context {QQbar : Type} {V : Geometry QQbar}.

(** X7. When [segments] returns, it was given at least one point; the
    four points of the frame are at the distance [3 m + 1] from the
    origin, [m] being the greatest absolute value of a coordinate of the
    points given; and the segments returned are the ridges of the Voronoi
    diagram that have no vertex at infinity, in the order of the diagram,
    each with the two vertices of its ridge for ends. *)
Theorem segments_bounded_ridges (points : list QQbar) (res : list (complex * complex)) :
  segments points = Return res ->
  points <> [] /\
  exists m,
    let discpoints := map (fun a => (real (QQbar_to_CC a), imag (QQbar_to_CC a))) points in
    let diagram := voronoi (configuration discpoints (3 * m + 1)) in
    In m (concat (map (fun p => [Qabs (fst p); Qabs (snd p)]) discpoints)) /\
    Forall (fun p => Qabs (fst p) <= m /\ Qabs (snd p) <= m) discpoints /\
    Forall2 (ridge_ends (fst diagram)) (filter bounded_ridge (snd diagram)) res.
Proof.
  unfold segments. intros H.
  apply bind_Return_inv in H. destruct H as (m & Em & H).
  split; [intros ->; discriminate |].
  exists m. cbv zeta.
  apply pymax_spec in Em. destruct Em as (Hin & Hall).
  split; [exact Hin |]. split.
  - apply Forall_forall. intros p Hp. rewrite Forall_forall in Hall.
    split; apply Hall; apply in_concat; exists [Qabs (fst p); Qabs (snd p)];
      (split; [apply in_map_iff; exists p; auto | simpl; auto]).
  - unfold configuration.
    destruct (voronoi _) as [vertices ridge_vertices]. simpl.
    destruct (ridges_Return _ _ _ _ H) as (new & -> & Hnew). exact Hnew.
Qed.
End SegmentsFacts.
End SegmentsFacts.

(** ** The layout of the coefficients of followstrand *)
Module CoefsFacts.
Import Coefs.

Lemma fold_left_flat_map (A B : Type) (h : list B -> A -> list B) (f : A -> list B)
      (l : list A) :
  (forall acc x, h acc x = acc ++ f x) ->
  forall acc, fold_left h l acc = acc ++ flat_map f l.
Proof.
  intros Hh. induction l as [| x l IH]; intros acc; simpl.
  - rewrite app_nil_r. reflexivity.
  - rewrite IH, Hh, <- app_assoc. reflexivity.
Qed.

Lemma coefs_blocks (coefficient : nat -> nat -> CIF) (deg : nat) :
  coefs coefficient deg = flat_map (block coefficient) (seq 0 (deg + 1)).
Proof.
  unfold coefs.
  rewrite (fold_left_flat_map _ _ _ (block coefficient)); [reflexivity |].
  intros acc d. unfold block.
  apply (fold_left_flat_map _ _ _ (fun i => endpoints (coefficient (d - i) i)%nat)).
  intros; reflexivity.
Qed.

Lemma coefs_S (coefficient : nat -> nat -> CIF) (deg : nat) :
  coefs coefficient (S deg) = coefs coefficient deg ++ block coefficient (S deg).
Proof.
  rewrite !coefs_blocks. replace (S deg + 1)%nat with (S (deg + 1)) by lia.
  rewrite seq_S, flat_map_app. simpl. rewrite app_nil_r.
  replace (deg + 1)%nat with (S deg) by lia. reflexivity.
Qed.

(** Four numbers for each of the first [n] monomials of a block. *)
Lemma fours_length (f : nat -> CIF) (n : nat) :
  length (flat_map (fun i => endpoints (f i)) (seq 0 n)) = (4 * n)%nat.
Proof.
  induction n as [| n IH]; [reflexivity |].
  rewrite seq_S, flat_map_app, length_app, IH. simpl. lia.
Qed.

Lemma fours_nth (f : nat -> CIF) (n i k : nat) :
  (i < n)%nat -> (k < 4)%nat ->
  nth_error (flat_map (fun i => endpoints (f i)) (seq 0 n)) (4 * i + k)
  = nth_error (endpoints (f i)) k.
Proof.
  intros Hi Hk. induction n as [| n IH]; [lia |].
  rewrite seq_S, flat_map_app. cbn [flat_map Nat.add]. rewrite app_nil_r.
  destruct (Nat.eq_dec i n) as [-> | Hne].
  - rewrite nth_error_app2; rewrite fours_length; [| lia].
    replace (4 * n + k - 4 * n)%nat with k by lia. reflexivity.
  - rewrite nth_error_app1; [apply IH; lia |].
    rewrite fours_length. lia.
Qed.

Lemma block_length (coefficient : nat -> nat -> CIF) (d : nat) :
  length (block coefficient d) = (4 * (d + 1))%nat.
Proof. unfold block. apply (fours_length (fun i => coefficient (d - i)%nat i)). Qed.

Lemma coefs_length (coefficient : nat -> nat -> CIF) (deg : nat) :
  length (coefs coefficient deg) = (2 * (deg + 1) * (deg + 2))%nat.
Proof.
  induction deg as [| deg IH]; [reflexivity |].
  rewrite coefs_S, length_app, IH, block_length. nia.
Qed.

(** X11. The list of coefficients that [followstrand] hands to sirocco
    has four numbers for every monomial of total degree at most [deg],
    [2 (deg + 1) (deg + 2)] in all; the monomials come by total degree and,
    within a degree, by the power of [y], so that the endpoints of the
    real part and then of the imaginary part of the coefficient of
    [x^(d-i) y^i] are the four entries from the place
    [2 d (d + 1) + 4 i] on. *)
Theorem coefs_layout (coefficient : nat -> nat -> CIF) (deg : nat) :
  length (coefs coefficient deg) = (2 * (deg + 1) * (deg + 2))%nat /\
  forall d i k, (i <= d)%nat -> (d <= deg)%nat -> (k < 4)%nat ->
    nth_error (coefs coefficient deg) (2 * d * (d + 1) + 4 * i + k)
    = nth_error [fst (real_endpoints (coefficient (d - i)%nat i));
                 snd (real_endpoints (coefficient (d - i)%nat i));
                 fst (imag_endpoints (coefficient (d - i)%nat i));
                 snd (imag_endpoints (coefficient (d - i)%nat i))] k.
Proof.
  split; [apply coefs_length |].
  induction deg as [| deg IH]; intros d i k Hi Hd Hk.
  - assert (d = 0%nat) by lia. assert (i = 0%nat) by lia. subst. simpl.
    destruct k as [| [| [| [| k]]]]; try lia; reflexivity.
  - rewrite coefs_S. destruct (Nat.eq_dec d (S deg)) as [-> | Hne].
    + rewrite nth_error_app2; rewrite coefs_length; [| nia].
      replace (2 * S deg * (S deg + 1) + 4 * i + k - 2 * (deg + 1) * (deg + 2))%nat
        with (4 * i + k)%nat by nia.
      unfold block.
      rewrite (fours_nth (fun i => coefficient (S deg - i)%nat i)); [reflexivity | lia | lia].
    + rewrite nth_error_app1; [apply IH; lia |].
      rewrite coefs_length. nia.
Qed.
End CoefsFacts.

(** ** The loops of fundamental_group *)
Module LoopFacts.
Import Discrim Voronoi Segment FreeGroup Fundamental MatchingFacts FundamentalFacts
       FibreFacts Coverage.

(** [vertices.index(p)] finds a member of [vertices]. *)
Lemma list_index_found (vertices : list complex) (p : complex) :
  mem p vertices = true ->
  exists i, list_index vertices p = Return i /\ (i < length vertices)%nat.
Proof.
  induction vertices as [| v vs IH]; simpl; intros H; [discriminate |].
  rewrite (complex_eqb_sym v p).
  destruct (complex_eqb p v); simpl in *.
  - exists 0%nat. split; [reflexivity | lia].
  - destruct (IH H) as (i & -> & Hi). exists (Datatypes.S i). simpl. split; [reflexivity | lia].
Qed.

Lemma mem_In (p : complex) (l : list complex) : In p l -> mem p l = true.
Proof.
  intros H. apply mem_exists. exists p. split; [exact H | apply complex_eqb_refl].
Qed.

Lemma mem_Permutation (p : complex) (l l' : list complex) :
  Permutation l l' -> mem p l = true -> mem p l' = true.
Proof.
  intros Hp H. apply mem_exists in H. destruct H as (y & Hy & E).
  apply mem_exists. exists y. split; [apply (Permutation_in _ Hp Hy) | exact E].
Qed.

Lemma flatten_ends (segs : list (complex * complex)) (seg : complex * complex) :
  In seg segs -> In (fst seg) (flatten segs) /\ In (snd seg) (flatten segs).
Proof.
  intros H. unfold flatten. split; apply in_concat; exists [fst seg; snd seg];
    (split; [apply in_map_iff; exists seg; auto | simpl; auto]).
Qed.

(** [F(l)] accepts the letters of [F]. *)
Lemma make_Return (n : nat) (l : list Z) :
  Forall (generator_letter n) l -> make n l = Return (reduce l).
Proof.
  intros H. unfold make.
  replace (forallb _ l) with true; [reflexivity |].
  symmetry. apply forallb_forall. rewrite Forall_forall in H.
  intros a Ha. specialize (H a Ha). unfold generator_letter in H.
  apply andb_true_iff. split.
  - apply negb_true_iff. apply Z.eqb_neq. lia.
  - apply Z.leb_le. lia.
Qed.

(** The letter [a] of [Faux] as a letter of [F], above the vertex [i]. *)
Lemma lifted_letter (d nv i : nat) (a : Z) :
  (i < nv)%nat -> generator_letter d a ->
  generator_letter (d * nv) (Z.sgn a * Z.of_nat d * Z.of_nat i + a)%Z.
Proof.
  unfold generator_letter. intros Hi Ha.
  assert (Hd : (Z.of_nat d * Z.of_nat i + Z.of_nat d <= Z.of_nat (d * nv))%Z) by nia.
  assert (H0 : (0 <= Z.of_nat d * Z.of_nat i)%Z) by nia.
  destruct (Z.lt_trichotomy a 0) as [Hneg | [Hz | Hpos]].
  - rewrite (Z.sgn_neg a Hneg). lia.
  - lia.
  - rewrite (Z.sgn_pos a Hpos). lia.
Qed.

Section LoopFacts.
Context {P : Polynomials} {E : Elimination P} {C : Curves P}
        {S : Sirocco poly} {R : Fibers poly} {V : Geometry QQbar}
        {G : Groups} {T : Runtime}.

Lemma relator_Return (d nv i j : nat) (b : list Z) (k : nat) :
  (i < nv)%nat -> (j < nv)%nat -> (k < d)%nat ->
  Forall (generator_letter d) (act d [Z.of_nat (k + 1)] (braid_inverse b)) ->
  exists w, relator d (d * nv) i j b k = Return w.
Proof.
  intros Hi Hj Hk Hact. unfold relator.
  rewrite make_Return.
  - simpl. rewrite make_Return; [eexists; reflexivity |].
    repeat constructor; unfold generator_letter; nia.
  - apply Forall_map. eapply Forall_impl; [| exact Hact].
    intros a Ha. apply lifted_letter; assumption.
Qed.

(** X8. The loop of [fundamental_group] over the computed braids goes
    through: every end of a segment is found in [vertices], whatever the
    order in which the set lists them, and every letter handed to the
    free group [F] is one of its [d * len(vertices)] generators, as long
    as the action of each braid on [Faux] gives words of [Faux]; it
    appends [d] relators for each segment. *)
Theorem relations_succeed (d : nat) (segs : list (complex * complex))
        (braidscomputed : list (complex * complex * list Z)) :
  Forall (fun c => In (fst c) segs) braidscomputed ->
  Forall (fun c => forall k, (k < d)%nat ->
              Forall (generator_letter d)
                     (act d [Z.of_nat (k + 1)] (braid_inverse (snd c))))
         braidscomputed ->
  let vertices := set_order (dedup (flatten segs)) in
  forall rels,
  exists new,
    relations d (d * length vertices) vertices braidscomputed rels = Return (rels ++ new) /\
    length new = (d * length braidscomputed)%nat.
Proof.
  intros Hsegs Hact vertices.
  assert (Hfound : forall p, In p (flatten segs) ->
            exists i, list_index vertices p = Return i /\ (i < length vertices)%nat).
  { intros p Hp. apply list_index_found.
    apply (mem_Permutation _ (dedup (flatten segs))).
    - apply Permutation_sym, set_order_perm.
    - rewrite dedup_mem. apply mem_In. exact Hp. }
  induction braidscomputed as [| [[seg0 seg1] b] rest IH]; intros rels.
  - exists []. simpl. rewrite app_nil_r. split; [reflexivity | lia].
  - inversion Hsegs as [| ? ? Hseg Hrest]; subst.
    inversion Hact as [| ? ? Hb Hactrest]; subst.
    simpl in Hseg, Hb.
    destruct (flatten_ends _ _ Hseg) as (H0 & H1). simpl in H0, H1.
    destruct (Hfound _ H0) as (i & Ei & Hi).
    destruct (Hfound _ H1) as (j & Ej & Hj).
    simpl. rewrite Ei. simpl. rewrite Ej. simpl.
    destruct (mapM_total _ _ (relator d (d * length vertices) i j b) (seq 0 d))
      as (new1 & E1).
    { apply Forall_forall. intros k Hk. apply in_seq in Hk.
      apply (relator_Return d (length vertices) i j b k Hi Hj); [lia |].
      apply Hb. lia. }
    rewrite E1. simpl.
    destruct (IH Hrest Hactrest (rels ++ new1)) as (new2 & E2 & Hlen).
    exists (new1 ++ new2). rewrite E2. rewrite app_assoc. split; [reflexivity |].
    rewrite length_app, Hlen.
    apply mapM_Return_length in E1. rewrite length_seq in E1. simpl. lia.
Qed.

(** X9. When the [while] loop of [fundamental_group] ends, [d] is the
    degree in [y] of the polynomial [g] it leaves, the coefficient of
    [y^d] in [g] is in the base field and, in the projective case, the
    total degree of [g] is not above [d]; [g] is the polynomial the loop
    started from after a number of substitutions of [x + y] for [x], no
    more than the fuel, and after no smaller number of them these
    conditions held. *)
Theorem shift_loop_exit (fuel : nat) (projective : bool) (F : ring) (x y : var)
        (g0 g : poly) (d : nat) :
  shift_loop fuel projective F x y g0 (degree g0 y) = Return (g, d) ->
  d = degree g y /\
  mem_ring (coefficient g y d) F = true /\
  (projective = true -> (total_degree g <= d)%nat) /\
  exists shifts,
    (shifts <= fuel)%nat /\
    g = Nat.iter shifts (fun g => subs_add g x y) g0 /\
    forall k, (k < shifts)%nat ->
      let gk := Nat.iter k (fun g => subs_add g x y) g0 in
      mem_ring (coefficient gk y (degree gk y)) F = false \/
      (projective = true /\ (degree gk y < total_degree gk)%nat).
Proof.
  revert g0. induction fuel as [| fuel IH]; intros g0 H; simpl in H.
  - destruct (shift_needed projective F y g0 (degree g0 y)) eqn:En; [discriminate |].
    inversion H; subst. unfold shift_needed in En.
    apply orb_false_iff in En. destruct En as [Em Et].
    apply negb_false_iff in Em.
    split; [reflexivity |]. split; [exact Em |]. split.
    + intros ->. simpl in Et. apply Nat.ltb_ge in Et. exact Et.
    + exists 0%nat. split; [lia |]. split; [reflexivity |]. intros k Hk; lia.
  - destruct (shift_needed projective F y g0 (degree g0 y)) eqn:En.
    + destruct (IH _ H) as (Hd & Hm & Ht & shifts & Hle & Hg & Hrun).
      split; [exact Hd |]. split; [exact Hm |]. split; [exact Ht |].
      exists (Datatypes.S shifts). split; [lia |]. rewrite Nat.iter_succ_r.
      split; [exact Hg |].
      intros [| k] Hk.
      * cbv zeta. simpl. unfold shift_needed in En.
        apply orb_true_iff in En. destruct En as [Em | Et].
        { left. apply negb_true_iff in Em. exact Em. }
        { right. apply andb_true_iff in Et. destruct Et as [Hp Hlt].
          split; [exact Hp | apply Nat.ltb_lt; exact Hlt]. }
      * cbv zeta. rewrite Nat.iter_succ_r. apply Hrun. lia.
    + inversion H; subst. unfold shift_needed in En.
      apply orb_false_iff in En. destruct En as [Em Et].
      apply negb_false_iff in Em.
      split; [reflexivity |]. split; [exact Em |]. split.
      * intros ->. simpl in Et. apply Nat.ltb_ge in Et. exact Et.
      * exists 0%nat. split; [lia |]. split; [reflexivity |]. intros k Hk; lia.
Qed.
End LoopFacts.
End LoopFacts.

(** ** The further properties at work on the examples *)
Module CoverageWitnesses.
Import Discrim Voronoi Segment FreeGroup Fundamental Trace Coverage.


(** The strands of the docstring of [braid_from_piecewise], resampled. *)
Lemma resample_on_strands_witness :
  Strands.paths <> [] /\
  Forall well_formed Strands.paths /\
  exists totalpoints partition,
    (forall fuel, (length (concat Strands.paths) <= fuel)%nat ->
                  resample fuel Strands.paths = Return totalpoints) /\
    common_partition Strands.paths partition /\
    Forall2 (fun val row => sampled val partition row) Strands.paths totalpoints.
Proof.
  assert (Hne : Strands.paths <> []) by discriminate.
  assert (Hwf : Forall well_formed Strands.paths).
  { unfold Strands.paths, well_formed.
    repeat (constructor; try (vm_compute; reflexivity); try (simpl; lia)). }
  split; [exact Hne |]. split; [exact Hwf |].
  exact (SamplingFacts.resample_on_strands Strands.paths Hne Hwf).
Defined.

(** The cusp over the segment of the docstring of [braid_in_segment]:
    three roots at each end. *)
Lemma braid_in_segment_strands_witness :
  braid_in_segment 2 Cusp.f Cusp.x0 Cusp.x1 = Return [2]%Z /\
  (1 <= length (fiber_roots Cusp.f Cusp.x0) <= length (fiber_roots Cusp.f Cusp.x1))%nat /\
  Forall (letter_or_zero (length (fiber_roots Cusp.f Cusp.x0))) [2]%Z.
Proof.
  assert (H : braid_in_segment 2 Cusp.f Cusp.x0 Cusp.x1 = Return [2]%Z)
    by (vm_compute; reflexivity).
  split; [exact H |].
  exact (FibreFacts.braid_in_segment_strands 2 Cusp.f Cusp.x0 Cusp.x1 [2]%Z H).
Defined.

(** The discriminant of the cusp is the origin; the frame is at
    distance 1 and the bounded ridges are the sides of a square. *)
Lemma segments_bounded_ridges_witness :
  segments [Cusp.Cx 0 0] = Return Cusp.sides /\
  [Cusp.Cx 0 0] <> [] /\
  exists m,
    let discpoints :=
      map (fun a => (real (QQbar_to_CC a), imag (QQbar_to_CC a))) [Cusp.Cx 0 0] in
    let diagram := voronoi (configuration discpoints (3 * m + 1)) in
    In m (concat (map (fun p => [Qabs (fst p); Qabs (snd p)]) discpoints)) /\
    Forall (fun p => Qabs (fst p) <= m /\ Qabs (snd p) <= m) discpoints /\
    Forall2 (ridge_ends (fst diagram)) (filter bounded_ridge (snd diagram)) Cusp.sides.
Proof.
  assert (H : segments [Cusp.Cx 0 0] = Return Cusp.sides) by (vm_compute; reflexivity).
  split; [exact H |].
  exact (SegmentsFacts.segments_bounded_ridges [Cusp.Cx 0 0] Cusp.sides H).
Defined.

(** The four sides of the square with their braids on three strands. *)
Lemma relations_succeed_witness :
  Forall (fun c => In (fst c) Cusp.sides) Cusp.side_braids /\
  Forall (fun c => forall k, (k < 3)%nat ->
              Forall (generator_letter 3)
                     (act 3 [Z.of_nat (k + 1)] (braid_inverse (snd c))))
         Cusp.side_braids /\
  forall rels,
  exists new,
    relations 3 (3 * length (set_order (dedup (flatten Cusp.sides))))
              (set_order (dedup (flatten Cusp.sides))) Cusp.side_braids rels
    = Return (rels ++ new) /\
    length new = (3 * length Cusp.side_braids)%nat.
Proof.
  assert (H1 : Forall (fun c => In (fst c) Cusp.sides) Cusp.side_braids).
  { unfold Cusp.side_braids, Cusp.sides. simpl.
    repeat (apply Forall_cons; [simpl; auto 10 |]). apply Forall_nil. }
  assert (H2 : Forall (fun c => forall k, (k < 3)%nat ->
              Forall (generator_letter 3)
                     (act 3 [Z.of_nat (k + 1)] (braid_inverse (snd c))))
         Cusp.side_braids).
  { unfold Cusp.side_braids, Cusp.sides. simpl.
    repeat (apply Forall_cons;
            [intros [| [| [| k]]] Hk; try lia;
             match goal with
             | |- Forall _ ?l => let l' := eval vm_compute in l in change l with l'
             end;
             repeat (apply Forall_cons; [unfold generator_letter; simpl; lia |]);
             apply Forall_nil |]).
    apply Forall_nil. }
  split; [exact H1 |]. split; [exact H2 |].
  exact (LoopFacts.relations_succeed 3 Cusp.sides Cusp.side_braids H1 H2).
Defined.

(** The curve [x y]: the coefficient of [y] is [x], and one substitution
    gives [x y + y^2]. *)
Lemma shift_loop_exit_witness :
  let g0 : @poly QQxy := [[]; [0; 1]] in
  let g : @poly QQxy := [[]; [0; 1]; [1]] in
  shift_loop 2 false tt QPoly.X QPoly.Y g0 (degree g0 QPoly.Y) = Return (g, 2%nat) /\
  2%nat = degree g QPoly.Y /\
  mem_ring (coefficient g QPoly.Y 2) tt = true /\
  (false = true -> (total_degree g <= 2)%nat) /\
  exists shifts,
    (shifts <= 2)%nat /\
    g = Nat.iter shifts (fun g => subs_add g QPoly.X QPoly.Y) g0 /\
    forall k, (k < shifts)%nat ->
      let gk := Nat.iter k (fun g => subs_add g QPoly.X QPoly.Y) g0 in
      mem_ring (coefficient gk QPoly.Y (degree gk QPoly.Y)) tt = false \/
      (false = true /\ (degree gk QPoly.Y < total_degree gk)%nat).
Proof.
  intros g0 g.
  assert (H : shift_loop 2 false tt QPoly.X QPoly.Y g0 (degree g0 QPoly.Y)
              = Return (g, 2%nat)) by (vm_compute; reflexivity).
  split; [exact H |].
  exact (LoopFacts.shift_loop_exit 2 false tt QPoly.X QPoly.Y g0 g 2 H).
Defined.

(** In [y^3 - 1] only [y] occurs. *)
Lemma one_variable_refused_witness :
  let f : @poly QQxy := [[-1]; []; []; [1]] in
  length (variables f) <> 2%nat /\
  discrim f = Raise UnpackError /\
  forall fuel simplified projective,
    fundamental_group fuel f simplified projective = Raise UnpackError.
Proof.
  intros f.
  assert (H : length (variables f) <> 2%nat) by (vm_compute; discriminate).
  split; [exact H |].
  exact (EdgeFacts.one_variable_refused f H).
Defined.
End CoverageWitnesses.
